(** * Eigix: fixed-shape dense containers [Matrix] and [Tensor3D]

    A shallow embedding of the two class templates of the repository and of
    their stream inserters, and the properties proved about them.

    - [Matrix<T, Rows, Cols>]   : the 2-dimensional container,
    - [Tensor3D<T, Depth, Rows, Cols>] : the 3-dimensional container.

    Objects live in a store (a finite map from locations to the nested
    arrays held by the [data] member); member functions are computations
    in a state-and-exception monad over that store.  A [const] reference
    or [this] pointer is a location; a local object such as [result] is
    a freshly allocated location.

    The template parameter [T] is a type with the operations the templates
    use (class [Numeric]); [int] and [double] are its two instances here.
    Indices, bounds and loop counters are [size_t] values, modelled by
    [nat]: the only [size_t] arithmetic that can wrap is [Cols - 1] and
    [Depth - 1] in the inserters, which is done modulo 2^64.

    The file has three parts: the model (definitions that follow the
    source), the vocabulary of the specifications, and the properties. *)

From Stdlib Require Import ZArith String Ascii SpecFloat Lia Eqdep_dec DecimalString.
From stdpp Require Import base option list gmap.

Local Open Scope Z_scope.

(** ** Element types *)

(** *** [int]: 32-bit two's complement integers

    A value of type [int] is an integer of the range [-2^31, 2^31).
    Arithmetic wraps around (the behaviour of the unsigned types, and of
    the signed ones on every two's complement target). *)

Definition int_min : Z := - 2 ^ 31.
Definition int_max : Z := 2 ^ 31 - 1.

Definition in_int (z : Z) : bool := (int_min <=? z) && (z <=? int_max).

Definition wrap32 (z : Z) : Z := (z + 2 ^ 31) mod 2 ^ 32 - 2 ^ 31.

Record int : Type := mk_int { int_val : Z; int_ok : in_int int_val = true }.

(** Reduction modulo 2^32 into the range of [int].  On a closed number
    the range proof computes to [eq_refl], so values of type [int] have a
    canonical form. *)
Definition int_of_Z (z : Z) : int :=
  match in_int (wrap32 z) as b return in_int (wrap32 z) = b → int with
  | true => λ H, mk_int (wrap32 z) H
  | false => λ _, mk_int 0 eq_refl
  end eq_refl.

Definition int_add (a b : int) : int := int_of_Z (int_val a + int_val b).
Definition int_sub (a b : int) : int := int_of_Z (int_val a - int_val b).
Definition int_mul (a b : int) : int := int_of_Z (int_val a * int_val b).
(** Integer division truncates toward zero.  It is undefined ([None])
    when the divisor is zero and when the quotient is not representable,
    which is the case of [INT_MIN / -1]. *)
Definition int_div (a b : int) : option int :=
  if int_val b =? 0 then None
  else
    let q := Z.quot (int_val a) (int_val b) in
    if in_int q then Some (int_of_Z q) else None.
Definition int_eqb (a b : int) : bool := int_val a =? int_val b.

(** *** [double]: IEEE 754 binary64, as the Standard Library's [spec_float]
    with a 53-bit significand. *)

Definition double : Type := spec_float.
Definition dprec : Z := 53.
Definition demax : Z := 1024.

Definition double_of_Z (m e : Z) : double := binary_normalize dprec demax m e false.

(** [std::numeric_limits<double>::epsilon()], 2^-52. *)
Definition double_epsilon : double := double_of_Z 1 (-52).

(** The value of a finite [double] as a fraction:
    [(-1)^s * m * 2^e = double_num / double_den]. *)
Definition double_num (d : double) : Z :=
  match d with
  | S754_finite s m e => (if s then -1 else 1) * Z.pos m * 2 ^ Z.max e 0
  | _ => 0
  end.

Definition double_den (d : double) : Z :=
  match d with
  | S754_finite s m e => 2 ^ Z.max (- e) 0
  | _ => 1
  end.

(** The integer part of a finite [double], rounded toward zero
    ([Z.quot] is the quotient that rounds toward zero). *)
Definition double_trunc (d : double) : option Z :=
  match d with
  | S754_infinity _ | S754_nan => None
  | _ => Some (Z.quot (double_num d) (double_den d))
  end.

(** *** Arguments of [populate]

    [populate] is a variadic template: each argument has a type of its
    own, convertible to [T].  The embedding covers the two element types
    above. *)

Inductive arg : Type :=
| arg_int (i : int)
| arg_double (d : double).

(** [static_cast<int>(a)].  A floating-point value converts by
    truncation; the conversion is undefined ([None]) when the truncated
    value is not representable. *)
Definition static_cast_int (a : arg) : option int :=
  match a with
  | arg_int i => Some i
  | arg_double d =>
      z ← double_trunc d;
      if in_int z then Some (int_of_Z z) else None
  end.

(** [static_cast<double>(a)]; every [int] is a [double]. *)
Definition static_cast_double (a : arg) : option double :=
  match a with
  | arg_int i => Some (double_of_Z (int_val i) 0)
  | arg_double d => Some d
  end.

(** *** What the templates require of [T] *)

(** The operations of the [if constexpr (std::is_floating_point_v<T>)]
    branch of [operator/]; they are instantiated for floating-point [T]
    only. *)
Record FloatingPoint (T : Type) : Type := {
  fabs : T → T;                 (* std::fabs *)
  epsilon : T;                  (* std::numeric_limits<T>::epsilon() *)
  T_lt : T → T → bool           (* operator< *)
}.
Arguments fabs {T} _ _.
Arguments epsilon {T} _.
Arguments T_lt {T} _ _ _.

Class Numeric (T : Type) : Type := {
  T_zero : T;                   (* T{} *)
  T_add : T → T → T;
  T_sub : T → T → T;
  T_mul : T → T → T;
  T_div : T → T → option T;    (* operator/; [None]: undefined behaviour *)
  T_eq : T → T → bool;          (* operator== *)
  is_floating_point : option (FloatingPoint T);
  static_cast : arg → option T
}.

#[export] Instance int_Numeric : Numeric int := {|
  T_zero := int_of_Z 0;
  T_add := int_add;
  T_sub := int_sub;
  T_mul := int_mul;
  T_div := int_div;
  T_eq := int_eqb;
  is_floating_point := None;
  static_cast := static_cast_int
|}.

#[export] Instance double_Numeric : Numeric double := {|
  T_zero := S754_zero false;
  T_add := SFadd dprec demax;
  T_sub := SFsub dprec demax;
  T_mul := SFmul dprec demax;
  T_div := λ a b, Some (SFdiv dprec demax a b);
  T_eq := SFeqb;
  is_floating_point :=
    Some {| fabs := SFabs; epsilon := double_epsilon; T_lt := SFltb |};
  static_cast := static_cast_double
|}.

Local Close Scope Z_scope.

(** ** Exceptions and the monad of member functions *)

Inductive exception : Type :=
| out_of_range (what : string)      (* std::out_of_range *)
| runtime_error (what : string).    (* std::runtime_error *)

(** How a call ends: it returns, an exception leaves it, or its behaviour
    is undefined (an unchecked array index out of range, a dangling
    reference, an unrepresentable conversion, an integer quotient that is
    not defined). *)
Inductive outcome (A : Type) : Type :=
| Ok (a : A)
| Throw (e : exception)
| Undefined.
Arguments Ok {A} a.
Arguments Throw {A} e.
Arguments Undefined {A}.

Definition M (Σ A : Type) : Type := Σ → outcome A * Σ.

Definition ret {Σ A} (a : A) : M Σ A := λ σ, (Ok a, σ).
Definition throw {Σ A} (e : exception) : M Σ A := λ σ, (Throw e, σ).
Definition undefined {Σ A} : M Σ A := λ σ, (Undefined, σ).

Definition bind {Σ A B} (m : M Σ A) (k : A → M Σ B) : M Σ B :=
  λ σ, match m σ with
       | (Ok a, σ') => k a σ'
       | (Throw e, σ') => (Throw e, σ')
       | (Undefined, σ') => (Undefined, σ')
       end.

Notation "x <- m ;; k" := (bind m (λ x, k))
  (at level 100, m at next level, right associativity).
Notation "m ;; k" := (bind m (λ _, k))
  (at level 100, right associativity).

(** An optional value whose absence is undefined behaviour. *)
Definition defined {Σ A} (o : option A) : M Σ A :=
  match o with Some a => ret a | None => undefined end.

(** [for (size_t i = 0; i < n; ++i) body], threading the local variables
    [s] that the body updates. *)
Fixpoint for_from {Σ L} (i n : nat) (body : nat → L → M Σ L) (s : L) : M Σ L :=
  match n with
  | O => ret s
  | S n' => s' <- body i s ;; for_from (S i) n' body s'
  end.

Definition for_loop {Σ L} (n : nat) (body : nat → L → M Σ L) (s : L) : M Σ L :=
  for_from 0 n body s.

(** The same loop when the body updates the store only. *)
Definition for_ {Σ} (n : nat) (body : nat → M Σ unit) : M Σ unit :=
  for_loop n (λ i _, body i) tt.

(** ** The store of objects *)

Abbreviation loc := nat.
Abbreviation store V := (gmap nat V).

Section Store.
Context {V : Type}.

(** Storage for a new object, at a location no live object has. *)
Definition alloc (v : V) : M (store V) loc :=
  λ h, let l := fresh (dom h) in (Ok l, <[l := v]> h).

(** Stack unwinding: when an exception leaves [m], the local object at [l]
    is destroyed. *)
Definition unwinding {A} (l : loc) (m : M (store V) A) : M (store V) A :=
  λ h, match m h with
       | (Throw e, h') => (Throw e, delete l h')
       | r => r
       end.

End Store.

(** ** [Matrix<T, Rows, Cols>] *)

(** A [Matrix<T, Rows, Cols>] object, known by its location; the element
    type and the shape are part of the type. *)
Record Matrix (T : Type) (Rows Cols : nat) : Type :=
  Matrix_object { Matrix_addr : loc }.
Arguments Matrix_object {T Rows Cols} _.
Arguments Matrix_addr {T Rows Cols} _.

Section MatrixModel.
Context {T : Type} `{Numeric T}.
(** What the storage of a new object holds before its constructor runs. *)
Variable indeterminate : T.

(** The data member, [std::array<std::array<T, Cols>, Rows>]. *)
Abbreviation array2 := (list (list T)).

(** [data[r][c]], read and written without a bounds check. *)
Definition load2 (l : loc) (r c : nat) : M (store array2) T :=
  λ h, match h !! l with
       | Some d =>
           match d !! r with
           | Some row => (defined (row !! c)) h
           | None => (Undefined, h)
           end
       | None => (Undefined, h)
       end.

Definition store2 (l : loc) (r c : nat) (v : T) : M (store array2) unit :=
  λ h, match h !! l with
       | Some d =>
           match d !! r with
           | Some row =>
               if decide (c < length row)
               then (Ok tt, <[l := <[r := <[c := v]> row]> d]> h)
               else (Undefined, h)
           | None => (Undefined, h)
           end
       | None => (Undefined, h)
       end.

(** The default constructor: every element becomes [T{}]. *)
Definition Matrix_ctor (Rows Cols : nat) : M (store array2) (Matrix T Rows Cols) :=
  l <- alloc (replicate Rows (replicate Cols indeterminate)) ;;
  for_ Rows (λ r,
    for_ Cols (λ c,
      store2 l r c T_zero)) ;;
  ret (Matrix_object l).

(** [operator()] of a [const] object. *)
Definition Matrix_at {Rows Cols} (this : Matrix T Rows Cols) (row col : nat)
  : M (store array2) T :=
  if (Rows <=? row) || (Cols <=? col)
  then throw (out_of_range "Matrix access out of bounds")
  else load2 (Matrix_addr this) row col.

(** The [T&] that the other [operator()] returns, and assignment
    through it. *)
Record ref2 : Type := Ref2 { ref2_obj : loc; ref2_row : nat; ref2_col : nat }.

Definition Matrix_ref {Rows Cols} (this : Matrix T Rows Cols) (row col : nat)
  : M (store array2) ref2 :=
  if (Rows <=? row) || (Cols <=? col)
  then throw (out_of_range "Matrix access out of bounds")
  else ret (Ref2 (Matrix_addr this) row col).

Definition assign2 (p : ref2) (v : T) : M (store array2) unit :=
  store2 (ref2_obj p) (ref2_row p) (ref2_col p) v.

Definition read2 (p : ref2) : M (store array2) T :=
  load2 (ref2_obj p) (ref2_row p) (ref2_col p).

Definition numRows {Rows Cols} (this : Matrix T Rows Cols) : nat := Rows.
Definition numCols {Rows Cols} (this : Matrix T Rows Cols) : nat := Cols.

(** [operator*]: the [static_assert(Cols == OtherRows)] is the type of
    [other]. *)
Definition Matrix_mul {Rows Cols OtherCols}
    (this : Matrix T Rows Cols) (other : Matrix T Cols OtherCols)
  : M (store array2) (Matrix T Rows OtherCols) :=
  result <- Matrix_ctor Rows OtherCols ;;
  unwinding (Matrix_addr result) (
    for_ Rows (λ i,
      for_ OtherCols (λ j,
        sum <- for_loop Cols (λ k sum,
                 a <- Matrix_at this i k ;;
                 b <- Matrix_at other k j ;;
                 ret (T_add sum (T_mul a b))) T_zero ;;
        p <- Matrix_ref result i j ;;
        assign2 p sum)) ;;
    ret result).

Definition Matrix_add {Rows Cols} (this other : Matrix T Rows Cols)
  : M (store array2) (Matrix T Rows Cols) :=
  result <- Matrix_ctor Rows Cols ;;
  unwinding (Matrix_addr result) (
    for_ Rows (λ r,
      for_ Cols (λ c,
        a <- Matrix_at this r c ;;
        b <- Matrix_at other r c ;;
        p <- Matrix_ref result r c ;;
        assign2 p (T_add a b))) ;;
    ret result).

Definition Matrix_sub {Rows Cols} (this other : Matrix T Rows Cols)
  : M (store array2) (Matrix T Rows Cols) :=
  result <- Matrix_ctor Rows Cols ;;
  unwinding (Matrix_addr result) (
    for_ Rows (λ r,
      for_ Cols (λ c,
        a <- Matrix_at this r c ;;
        b <- Matrix_at other r c ;;
        p <- Matrix_ref result r c ;;
        assign2 p (T_sub a b))) ;;
    ret result).

Definition Matrix_div {Rows Cols} (this : Matrix T Rows Cols) (scalar : T)
  : M (store array2) (Matrix T Rows Cols) :=
  match is_floating_point with
  | Some F =>
      if T_lt F (fabs F scalar) (epsilon F)
      then throw (runtime_error "Matrix division by zero or near-zero scalar")
      else ret tt
  | None =>
      if T_eq scalar T_zero
      then throw (runtime_error "Matrix division by zero scalar")
      else ret tt
  end ;;
  result <- Matrix_ctor Rows Cols ;;
  unwinding (Matrix_addr result) (
    for_ Rows (λ r,
      for_ Cols (λ c,
        a <- Matrix_at this r c ;;
        q <- defined (T_div a scalar) ;;
        p <- Matrix_ref result r c ;;
        assign2 p q)) ;;
    ret result).

(** [T values[] = {static_cast<T>(args)...}]. *)
Fixpoint cast_all {Σ} (args : list arg) : M Σ (list T) :=
  match args with
  | [] => ret []
  | a :: args' =>
      v <- defined (static_cast a) ;;
      vs <- cast_all args' ;;
      ret (v :: vs)
  end.

(** [populate]; the [static_assert] on the number of arguments is the
    argument [_ : length args = Rows * Cols]. *)
Definition Matrix_populate {Rows Cols} (this : Matrix T Rows Cols)
    (args : list arg) (_ : length args = Rows * Cols)
  : M (store array2) unit :=
  values <- cast_all args ;;
  for_loop Rows (λ r k,
    for_loop Cols (λ c k,
      v <- defined (values !! k) ;;
      store2 (Matrix_addr this) r c v ;;
      ret (S k)) k) 0 ;;
  ret tt.

End MatrixModel.

(** ** [Tensor3D<T, Depth, Rows, Cols>] *)

(** A [Tensor3D<T, Depth, Rows, Cols>] object, known by its location. *)
Record Tensor3D (T : Type) (Depth Rows Cols : nat) : Type :=
  Tensor3D_object { Tensor3D_addr : loc }.
Arguments Tensor3D_object {T Depth Rows Cols} _.
Arguments Tensor3D_addr {T Depth Rows Cols} _.

Section Tensor3DModel.
Context {T : Type} `{Numeric T}.
Variable indeterminate : T.

(** The data member,
    [std::array<std::array<std::array<T, Cols>, Rows>, Depth>]. *)
Abbreviation array3 := (list (list (list T))).

(** [data[d][r][c]], read and written without a bounds check. *)
Definition load3 (l : loc) (d r c : nat) : M (store array3) T :=
  λ h, match h !! l with
       | Some t =>
           match t !! d with
           | Some slice =>
               match slice !! r with
               | Some row => (defined (row !! c)) h
               | None => (Undefined, h)
               end
           | None => (Undefined, h)
           end
       | None => (Undefined, h)
       end.

Definition store3 (l : loc) (d r c : nat) (v : T) : M (store array3) unit :=
  λ h, match h !! l with
       | Some t =>
           match t !! d with
           | Some slice =>
               match slice !! r with
               | Some row =>
                   if decide (c < length row)
                   then (Ok tt, <[l := <[d := <[r := <[c := v]> row]> slice]> t]> h)
                   else (Undefined, h)
               | None => (Undefined, h)
               end
           | None => (Undefined, h)
           end
       | None => (Undefined, h)
       end.

(** The default constructor. *)
Definition Tensor3D_ctor (Depth Rows Cols : nat)
  : M (store array3) (Tensor3D T Depth Rows Cols) :=
  l <- alloc (replicate Depth (replicate Rows (replicate Cols indeterminate))) ;;
  for_ Depth (λ d,
    for_ Rows (λ r,
      for_ Cols (λ c,
        store3 l d r c T_zero))) ;;
  ret (Tensor3D_object l).

(** [operator()] of a [const] object. *)
Definition Tensor3D_at {Depth Rows Cols} (this : Tensor3D T Depth Rows Cols)
    (depth row col : nat) : M (store array3) T :=
  if (Depth <=? depth) || (Rows <=? row) || (Cols <=? col)
  then throw (out_of_range "Tensor3D access out of bounds")
  else load3 (Tensor3D_addr this) depth row col.

(** The [T&] of the other [operator()]. *)
Record ref3 : Type :=
  Ref3 { ref3_obj : loc; ref3_depth : nat; ref3_row : nat; ref3_col : nat }.

Definition Tensor3D_ref {Depth Rows Cols} (this : Tensor3D T Depth Rows Cols)
    (depth row col : nat) : M (store array3) ref3 :=
  if (Depth <=? depth) || (Rows <=? row) || (Cols <=? col)
  then throw (out_of_range "Tensor3D access out of bounds")
  else ret (Ref3 (Tensor3D_addr this) depth row col).

Definition assign3 (p : ref3) (v : T) : M (store array3) unit :=
  store3 (ref3_obj p) (ref3_depth p) (ref3_row p) (ref3_col p) v.

Definition read3 (p : ref3) : M (store array3) T :=
  load3 (ref3_obj p) (ref3_depth p) (ref3_row p) (ref3_col p).

Definition numDepth {Depth Rows Cols} (this : Tensor3D T Depth Rows Cols) : nat := Depth.

Definition Tensor3D_add {Depth Rows Cols} (this other : Tensor3D T Depth Rows Cols)
  : M (store array3) (Tensor3D T Depth Rows Cols) :=
  result <- Tensor3D_ctor Depth Rows Cols ;;
  unwinding (Tensor3D_addr result) (
    for_ Depth (λ d,
      for_ Rows (λ r,
        for_ Cols (λ c,
          a <- Tensor3D_at this d r c ;;
          b <- Tensor3D_at other d r c ;;
          p <- Tensor3D_ref result d r c ;;
          assign3 p (T_add a b)))) ;;
    ret result).

Definition Tensor3D_sub {Depth Rows Cols} (this other : Tensor3D T Depth Rows Cols)
  : M (store array3) (Tensor3D T Depth Rows Cols) :=
  result <- Tensor3D_ctor Depth Rows Cols ;;
  unwinding (Tensor3D_addr result) (
    for_ Depth (λ d,
      for_ Rows (λ r,
        for_ Cols (λ c,
          a <- Tensor3D_at this d r c ;;
          b <- Tensor3D_at other d r c ;;
          p <- Tensor3D_ref result d r c ;;
          assign3 p (T_sub a b)))) ;;
    ret result).

(** The member [operator*], by a scalar. *)
Definition Tensor3D_mul {Depth Rows Cols} (this : Tensor3D T Depth Rows Cols)
    (scalar : T) : M (store array3) (Tensor3D T Depth Rows Cols) :=
  result <- Tensor3D_ctor Depth Rows Cols ;;
  unwinding (Tensor3D_addr result) (
    for_ Depth (λ d,
      for_ Rows (λ r,
        for_ Cols (λ c,
          a <- Tensor3D_at this d r c ;;
          p <- Tensor3D_ref result d r c ;;
          assign3 p (T_mul a scalar)))) ;;
    ret result).

Definition Tensor3D_div {Depth Rows Cols} (this : Tensor3D T Depth Rows Cols)
    (scalar : T) : M (store array3) (Tensor3D T Depth Rows Cols) :=
  match is_floating_point with
  | Some F =>
      if T_lt F (fabs F scalar) (epsilon F)
      then throw (runtime_error "Tensor3D division by zero or near-zero scalar")
      else ret tt
  | None =>
      if T_eq scalar T_zero
      then throw (runtime_error "Tensor3D division by zero scalar")
      else ret tt
  end ;;
  result <- Tensor3D_ctor Depth Rows Cols ;;
  unwinding (Tensor3D_addr result) (
    for_ Depth (λ d,
      for_ Rows (λ r,
        for_ Cols (λ c,
          a <- Tensor3D_at this d r c ;;
          q <- defined (T_div a scalar) ;;
          p <- Tensor3D_ref result d r c ;;
          assign3 p q))) ;;
    ret result).

(** [populate]; the [static_assert] on the number of arguments is the
    argument [_ : length args = Depth * Rows * Cols]. *)
Definition Tensor3D_populate {Depth Rows Cols} (this : Tensor3D T Depth Rows Cols)
    (args : list arg) (_ : length args = Depth * Rows * Cols)
  : M (store array3) unit :=
  values <- cast_all args ;;
  for_loop Depth (λ d k,
    for_loop Rows (λ r k,
      for_loop Cols (λ c k,
        v <- defined (values !! k) ;;
        store3 (Tensor3D_addr this) d r c v ;;
        ret (S k)) k) k) 0 ;;
  ret tt.

(** The free [operator*(const T&, const Tensor3D&)]. *)
Definition scalar_mul_Tensor3D {Depth Rows Cols} (scalar : T)
    (tensor : Tensor3D T Depth Rows Cols)
  : M (store array3) (Tensor3D T Depth Rows Cols) :=
  Tensor3D_mul tensor scalar.

End Tensor3DModel.

(** ** Output streams

    The part of [std::ostream] that the inserters touch: the formatting
    state of [std::ios_base] and [std::basic_ios], and the characters
    written so far.  The stream is taken to be in a good state.  How
    a value is turned into characters under a given formatting state is
    the stream library's business and is left as a parameter. *)

Local Open Scope Z_scope.

(** [std::ios_base::fmtflags], a bitmask. *)
Definition fmtflags : Type := Z.
Definition ios_dec : fmtflags := 2.
Definition ios_fixed : fmtflags := 4.
Definition ios_scientific : fmtflags := 256.
Definition ios_skipws : fmtflags := 4096.
Definition ios_floatfield : fmtflags := Z.lor ios_fixed ios_scientific.

Record ios : Type := {
  ios_flags : fmtflags;
  ios_precision : Z;
  ios_width : Z;
  ios_fill : ascii;
  ios_locale : string
}.

Record ostream : Type := { fmt : ios; written : string }.

(** The stream library around the inserters: the global locale, and the
    characters that a formatted insertion produces. *)
Record iostreams (T : Type) : Type := {
  global_locale : string;
  show_string : ios → string → string;   (* os << const char* *)
  show_size : ios → nat → string;        (* os << size_t *)
  show_T : ios → T → string              (* os << T *)
}.
Arguments global_locale {T} _.
Arguments show_string {T} _ _ _.
Arguments show_size {T} _ _ _.
Arguments show_T {T} _ _ _.

(** [std::ios(nullptr)]: what [basic_ios::init] sets. *)
Definition ios_init (locale : string) : ios := {|
  ios_flags := Z.lor ios_skipws ios_dec;
  ios_precision := 6;
  ios_width := 0;
  ios_fill := " "%char;
  ios_locale := locale
|}.

Definition set_flags (f : fmtflags) (s : ios) : ios :=
  {| ios_flags := f; ios_precision := ios_precision s; ios_width := ios_width s;
     ios_fill := ios_fill s; ios_locale := ios_locale s |}.
Definition set_precision (n : Z) (s : ios) : ios :=
  {| ios_flags := ios_flags s; ios_precision := n; ios_width := ios_width s;
     ios_fill := ios_fill s; ios_locale := ios_locale s |}.
Definition set_width (n : Z) (s : ios) : ios :=
  {| ios_flags := ios_flags s; ios_precision := ios_precision s; ios_width := n;
     ios_fill := ios_fill s; ios_locale := ios_locale s |}.

(** [size_t] subtraction, modulo 2^64. *)
Definition size_sub (a b : nat) : Z := (Z.of_nat a - Z.of_nat b) mod 2 ^ 64.

Definition newline : string := String (ascii_of_nat 10) EmptyString.

Section Streams.
Context {T Σ : Type}.
Variable lib : iostreams T.

(** A member function of the store, run beside the stream. *)
Definition in_store {A} (m : M Σ A) : M (Σ * ostream) A :=
  λ w, let (r, h') := m w.1 in (r, (h', w.2)).

Definition on_fmt (f : ios → ios) : M (Σ * ostream) unit :=
  λ w, (Ok tt, (w.1, {| fmt := f (fmt w.2); written := written w.2 |})).

(** A formatted insertion writes the characters and resets the width. *)
Definition insert (chars : ios → string) : M (Σ * ostream) unit :=
  λ w, (Ok tt, (w.1, {| fmt := set_width 0 (fmt w.2);
                        written := (written w.2 ++ chars (fmt w.2))%string |})).

Definition put_string (s : string) := insert (λ f, show_string lib f s).
Definition put_size (n : nat) := insert (λ f, show_size lib f n).
Definition put_T (v : T) := insert (λ f, show_T lib f v).

(** The manipulators [std::fixed], [std::setprecision] and [std::setw]. *)
Definition fixed : M (Σ * ostream) unit :=
  on_fmt (λ s, set_flags
    (Z.lor (Z.land (ios_flags s) (Z.lnot ios_floatfield))
           (Z.land ios_fixed ios_floatfield)) s).
Definition setprecision (n : Z) : M (Σ * ostream) unit := on_fmt (set_precision n).
Definition setw (n : Z) : M (Σ * ostream) unit := on_fmt (set_width n).

(** [os.flags()] and [os.flags(f)]. *)
Definition get_flags : M (Σ * ostream) fmtflags :=
  λ w, (Ok (ios_flags (fmt w.2)), w).
Definition put_flags (f : fmtflags) : M (Σ * ostream) unit := on_fmt (set_flags f).

(** [os.copyfmt(std::ios(nullptr))]. *)
Definition copyfmt_ios_nullptr : M (Σ * ostream) unit :=
  on_fmt (λ _, ios_init (global_locale lib)).

End Streams.

Section Inserters.
Context {T : Type} `{Numeric T}.
Variable lib : iostreams T.

(** [operator<<(std::ostream&, const Matrix&)]. *)
Definition Matrix_print {Rows Cols} (matrix : Matrix T Rows Cols)
  : M (store (list (list T)) * ostream) unit :=
  put_string lib "Matrix (" ;; put_size lib Rows ;; put_string lib "x" ;;
  put_size lib Cols ;; put_string lib ("):" ++ newline) ;;
  let width := 8 in
  fixed ;; setprecision 2 ;;
  for_ Rows (λ r,
    put_string lib "[" ;;
    for_ Cols (λ c,
      setw width ;;
      v <- in_store (Matrix_at matrix r c) ;;
      put_T lib v ;;
      put_string lib (if Z.of_nat c =? size_sub Cols 1 then "" else ", ")) ;;
    put_string lib (" ]" ++ newline)) ;;
  copyfmt_ios_nullptr lib.

(** [operator<<(std::ostream&, const Tensor3D&)]. *)
Definition Tensor3D_print {Depth Rows Cols} (tensor : Tensor3D T Depth Rows Cols)
  : M (store (list (list (list T))) * ostream) unit :=
  put_string lib "Tensor3D (" ;; put_size lib Depth ;; put_string lib "x" ;;
  put_size lib Rows ;; put_string lib "x" ;; put_size lib Cols ;;
  put_string lib ("):" ++ newline) ;;
  let width := 8 in
  original_flags <- get_flags ;;
  fixed ;; setprecision 2 ;;
  for_ Depth (λ d,
    put_string lib "Depth Slice [" ;; put_size lib d ;;
    put_string lib ("]:" ++ newline) ;;
    for_ Rows (λ r,
      put_string lib "  [" ;;
      for_ Cols (λ c,
        setw width ;;
        v <- in_store (Tensor3D_at tensor d r c) ;;
        put_T lib v ;;
        put_string lib (if Z.of_nat c =? size_sub Cols 1 then "" else ", ")) ;;
      put_string lib (" ]" ++ newline)) ;;
    if Z.of_nat d <? size_sub Depth 1 then put_string lib newline else ret tt) ;;
  put_flags original_flags.

End Inserters.

Local Close Scope Z_scope.

(** * Specification vocabulary

    The notions in which the properties are stated: what array an object
    holds, the shape of an array and its elements, the arrays that the
    loops of the member functions build, and what a call may do to the
    store. *)

(** ** Two-dimensional arrays and [Matrix] objects *)

Section Vocabulary2.
Context {T : Type} `{Numeric T}.
Implicit Types (d : list (list T)) (h : gmap nat (list (list T))).

(** The value of a [std::array<std::array<T, Cols>, Rows>]. *)
Definition shape2 (Rows Cols : nat) d : Prop :=
  length d = Rows ∧ Forall (λ row, length row = Cols) d.

(** The element stored at [(r, c)]. *)
Definition cell2 d (r c : nat) : option T :=
  match d !! r with Some row => row !! c | None => None end.

Definition get2 d (r c : nat) : T := default T_zero (cell2 d r c).

(** The array after [data[r][c] = v]. *)
Definition set2 d (r c : nat) (v : T) : list (list T) :=
  match d !! r with Some row => <[r := <[c := v]> row]> d | None => d end.

(** The array that holds [g r c] at every [(r, c)]. *)
Definition tabulate2 (Rows Cols : nat) (g : nat → nat → T) : list (list T) :=
  (λ r, g r <$> seq 0 Cols) <$> seq 0 Rows.

(** Every element before position [(r, c)], in row-major order, holds its
    final value. *)
Definition filled2 (Rows Cols : nat) (g : nat → nat → T) (r c : nat) d : Prop :=
  shape2 Rows Cols d ∧
  ∀ r' c', r' < Rows → c' < Cols → r' < r ∨ (r' = r ∧ c' < c) →
    cell2 d r' c' = Some (g r' c').

(** The object [m] is alive in [h] and holds the array [d]. *)
Definition Matrix_holds {Rows Cols} h (m : Matrix T Rows Cols) d : Prop :=
  h !! Matrix_addr m = Some d ∧ shape2 Rows Cols d.

(** The sum that [operator*] accumulates for the element [(i, j)]. *)
Definition dot (Cols : nat) d d' (i j : nat) : T :=
  foldl (λ sum k, T_add sum (T_mul (get2 d i k) (get2 d' k j))) T_zero (seq 0 Cols).

(** The divisor test at the head of [operator/]. *)
Definition zero_divisor (scalar : T) : bool :=
  match is_floating_point with
  | Some F => T_lt F (fabs F scalar) (epsilon F)
  | None => T_eq scalar T_zero
  end.

(** The quotient [a / scalar], where that division is defined. *)
Definition quotient (a scalar : T) : T := default T_zero (T_div a scalar).

(** Every quotient [d(r, c) / scalar] of the array [d] is defined. *)
Definition defined_quotients2 (Rows Cols : nat) d (scalar : T) : Prop :=
  ∀ r c, r < Rows → c < Cols → is_Some (T_div (get2 d r c) scalar).

Definition Matrix_div_what : string :=
  match is_floating_point with
  | Some _ => "Matrix division by zero or near-zero scalar"
  | None => "Matrix division by zero scalar"
  end.

(** The element of [values] that [populate] stores at [(r, c)]. *)
Definition row_major (Cols : nat) (values : list T) (r c : nat) : T :=
  default T_zero (values !! (r * Cols + c)).

End Vocabulary2.

Arguments Matrix_div_what T {_}.

(** ** Three-dimensional arrays and [Tensor3D] objects *)

Section Vocabulary3.
Context {T : Type} `{Numeric T}.
Implicit Types (t : list (list (list T))) (h : gmap nat (list (list (list T)))).

(** The value of a
    [std::array<std::array<std::array<T, Cols>, Rows>, Depth>]. *)
Definition shape3 (Depth Rows Cols : nat) t : Prop :=
  length t = Depth ∧ Forall (shape2 Rows Cols) t.

Definition cell3 t (d r c : nat) : option T :=
  match t !! d with Some slice => cell2 slice r c | None => None end.

Definition get3 t (d r c : nat) : T := default T_zero (cell3 t d r c).

(** The array after [data[d][r][c] = v]. *)
Definition set3 t (d r c : nat) (v : T) : list (list (list T)) :=
  match t !! d with Some slice => <[d := set2 slice r c v]> t | None => t end.

Definition tabulate3 (Depth Rows Cols : nat) (g : nat → nat → nat → T)
  : list (list (list T)) :=
  (λ d, tabulate2 Rows Cols (g d)) <$> seq 0 Depth.

(** The position [(d', r', c')] comes before [(d, r, c)] in the order
    of the loops: depth first, then row, then column. *)
Definition before3 (d' r' c' d r c : nat) : Prop :=
  d' < d ∨ (d' = d ∧ (r' < r ∨ (r' = r ∧ c' < c))).

Definition filled3 (Depth Rows Cols : nat) (g : nat → nat → nat → T)
    (d r c : nat) t : Prop :=
  shape3 Depth Rows Cols t ∧
  ∀ d' r' c', d' < Depth → r' < Rows → c' < Cols → before3 d' r' c' d r c →
    cell3 t d' r' c' = Some (g d' r' c').

(** The object [m] is alive in [h] and holds the array [t]. *)
Definition Tensor3D_holds {Depth Rows Cols} h (m : Tensor3D T Depth Rows Cols) t
  : Prop :=
  h !! Tensor3D_addr m = Some t ∧ shape3 Depth Rows Cols t.

(** Every quotient [t(d, r, c) / scalar] of the array [t] is defined. *)
Definition defined_quotients3 (Depth Rows Cols : nat) t (scalar : T) : Prop :=
  ∀ d r c, d < Depth → r < Rows → c < Cols →
    is_Some (T_div (get3 t d r c) scalar).

Definition Tensor3D_div_what : string :=
  match is_floating_point with
  | Some _ => "Tensor3D division by zero or near-zero scalar"
  | None => "Tensor3D division by zero scalar"
  end.

(** The element of [values] that [populate] stores at [(d, r, c)]. *)
Definition depth_major (Rows Cols : nat) (values : list T) (d r c : nat) : T :=
  default T_zero (values !! ((d * Rows + r) * Cols + c)).

End Vocabulary3.

Arguments Tensor3D_div_what T {_}.

(** ** Calls and the store *)

Section VocabularyStore.
Context {V R : Type}.
Implicit Types (h : gmap nat V).

(** The location of the next object. *)
Definition next_loc h : nat := fresh (dom h).

(** Every object of [h] is in [h'], unchanged. *)
Definition preserved h h' : Prop :=
  ∀ l v, h !! l = Some v → h' !! l = Some v.

(** The run [run] of a call started in [h] mutates no object of [h]: it
    returns an object that is new (no object of [h] has its location) and
    leaves every object of [h] as it was, or it throws and leaves the store
    exactly as it was. *)
Definition returns_new_object (addr : R → nat) h
    (run : outcome R * gmap nat V) : Prop :=
  match run.1 with
  | Ok result =>
      h !! addr result = None ∧ is_Some (run.2 !! addr result) ∧ preserved h run.2
  | Throw _ => run.2 = h
  | Undefined => False
  end.

(** The run ends without [std::out_of_range] and without undefined
    behaviour. *)
Definition in_bounds (run : outcome R * gmap nat V) : Prop :=
  match run.1 with
  | Ok _ | Throw (runtime_error _) => True
  | Throw (out_of_range _) | Undefined => False
  end.

End VocabularyStore.

(** ** Formatting states *)

(** While the elements are written the store is [h] and, between two
    insertions, the formatting state is [f]. *)
Definition printing {V} (h : gmap nat V) (f : ios) (w : gmap nat V * ostream)
  : Prop :=
  w.1 = h ∧ fmt w.2 = f.

(** The formatting state after [os << std::fixed << std::setprecision(2)]
    and an insertion, from the state [f]. *)
Definition fixed2 (f : ios) : ios :=
  set_width 0 (set_precision 2 (set_flags
    (Z.lor (Z.land (ios_flags f) (Z.lnot ios_floatfield))
           (Z.land ios_fixed ios_floatfield)) f)).

(** What [operator<<] of a tensor leaves in the formatting state: the
    flags it saved, the width that the insertions reset, and the precision
    it set. *)
Definition after_Tensor3D_print (f : ios) : ios :=
  set_flags (ios_flags (set_width 0 f)) (fixed2 f).

(** ** Equality of [double]s *)

(** [x == y], or both are NaN. *)
Definition double_same (x y : double) : Prop :=
  SFeqb x y = true ∨ (x = S754_nan ∧ y = S754_nan).

(** ** Objects and streams for the instances *)

Definition I32 (z : Z) : int := int_of_Z z.

(** A store of [Matrix<int, ., .>] objects:
    [A = [1 2; 3 4]], [B = [5 6; 7 8]] and the column [C = [5; 6]]. *)
Definition matrices : gmap nat (list (list int)) :=
  <[2 := [[I32 5]; [I32 6]]]>
    (<[1 := [[I32 5; I32 6]; [I32 7; I32 8]]]>
       (<[0 := [[I32 1; I32 2]; [I32 3; I32 4]]]> ∅)).
Definition A_2x2 : Matrix int 2 2 := Matrix_object 0.
Definition B_2x2 : Matrix int 2 2 := Matrix_object 1.
Definition C_2x1 : Matrix int 2 1 := Matrix_object 2.

(** A store with the [Matrix<int, 1, 1>] that holds [INT_MIN], and one
    with the [Tensor3D<int, 1, 1, 1>] that does. *)
Definition extreme_matrices : gmap nat (list (list int)) :=
  <[0 := [[I32 int_min]]]> ∅.
Definition M_1x1 : Matrix int 1 1 := Matrix_object 0.
Definition extreme_tensors : gmap nat (list (list (list int))) :=
  <[0 := [[[I32 int_min]]]]> ∅.
Definition N_1x1x1 : Tensor3D int 1 1 1 := Tensor3D_object 0.

(** A store of [Tensor3D<int, 2, 2, 2>] objects. *)
Definition tensors : gmap nat (list (list (list int))) :=
  <[1 := [[[I32 1; I32 0]; [I32 0; I32 1]]; [[I32 2; I32 2]; [I32 2; I32 2]]]]>
    (<[0 := [[[I32 1; I32 2]; [I32 3; I32 4]]; [[I32 5; I32 6]; [I32 7; I32 8]]]]> ∅).
Definition U_2x2x2 : Tensor3D int 2 2 2 := Tensor3D_object 0.
Definition W_2x2x2 : Tensor3D int 2 2 2 := Tensor3D_object 1.

Definition int_arg (z : Z) : arg := arg_int (I32 z).

(** The doubles 1.5, -2.75, 3 and 0.875. *)
Definition some_doubles : list double :=
  [double_of_Z 3 (-1); double_of_Z (-11) (-2); double_of_Z 3 0; double_of_Z 7 (-3)].

(** A stream library for the examples: decimal digits, right-justified in
    the field width. *)
Definition pad (f : ios) (s : string) : string :=
  (string_of_list_ascii
     (replicate (Z.to_nat (ios_width f) - String.length s) (ios_fill f)) ++ s)%string.

Definition plain_iostreams : iostreams int := {|
  global_locale := "C";
  show_string := pad;
  show_size f n := pad f (NilZero.string_of_uint (Nat.to_uint n));
  show_T f v := pad f (NilZero.string_of_int (Z.to_int (int_val v)))
|}.

(** A stream as constructed, and one whose user asked for 10 digits. *)
Definition new_stream : ostream :=
  {| fmt := ios_init "C"; written := EmptyString |}.
Definition precise_stream : ostream :=
  {| fmt := set_precision 10 (ios_init "C"); written := EmptyString |}.

(** ** Identity matrices, flattened arrays and the text of the inserters *)

Section VocabularyAlgebra.
Context {T : Type} `{Numeric T}.

(** The [n x n] array with [one] on the diagonal and [T{}] elsewhere. *)
Definition identity2 (n : nat) (one : T) : list (list T) :=
  tabulate2 n n (λ i k, if decide (i = k) then one else T_zero).

(** The sum [f 0 + ... + f (n - 1)], accumulated from [T{}] in the
    order of the loop of [operator*]. *)
Definition sum_upto (n : nat) (f : nat → T) : T :=
  foldl (λ sum k, T_add sum (f k)) T_zero (seq 0 n).

End VocabularyAlgebra.

(** The concatenation of a list of strings. *)
Definition joined (l : list string) : string := foldr String.append EmptyString l.

(** What follows the element of column [c] in a row of [Cols] elements. *)
Definition separator (Cols c : nat) : string :=
  if decide (S c = Cols) then EmptyString else ", "%string.

Section VocabularyText.
Context {T : Type}.
Variable lib : iostreams T.

(** The elements of one row: each in a field of width 8, each but the
    last followed by a comma. *)
Definition row_text (F : ios) (Cols : nat) (elem : nat → T) : string :=
  joined ((λ c, show_T lib (set_width 8 F) (elem c)
                ++ show_string lib F (separator Cols c))%string <$> seq 0 Cols).

(** One bracketed line per row. *)
Definition rows_text (bracket : string) (F : ios) (Rows Cols : nat)
    (elem : nat → nat → T) : string :=
  joined ((λ r, show_string lib F bracket ++ row_text F Cols (elem r)
                ++ show_string lib F (" ]" ++ newline))%string <$> seq 0 Rows).

(** The characters that [os << matrix] writes to a stream whose
    formatting state is [f]. *)
Definition Matrix_text (f : ios) (Rows Cols : nat) (elem : nat → nat → T)
  : string :=
  (show_string lib f "Matrix (" ++ show_size lib (set_width 0 f) Rows
   ++ show_string lib (set_width 0 f) "x" ++ show_size lib (set_width 0 f) Cols
   ++ show_string lib (set_width 0 f) ("):" ++ newline)
   ++ rows_text "[" (fixed2 f) Rows Cols elem)%string.

(** One depth slice: its label, its rows and, unless it is the last
    slice, an empty line. *)
Definition slice_text (F : ios) (Depth Rows Cols : nat) (d : nat)
    (elem : nat → nat → T) : string :=
  (show_string lib F "Depth Slice [" ++ show_size lib F d
   ++ show_string lib F ("]:" ++ newline)
   ++ rows_text "  [" F Rows Cols elem
   ++ (if decide (S d < Depth) then show_string lib F newline else EmptyString))%string.

(** The characters that [os << tensor] writes. *)
Definition Tensor3D_text (f : ios) (Depth Rows Cols : nat)
    (elem : nat → nat → nat → T) : string :=
  (show_string lib f "Tensor3D (" ++ show_size lib (set_width 0 f) Depth
   ++ show_string lib (set_width 0 f) "x" ++ show_size lib (set_width 0 f) Rows
   ++ show_string lib (set_width 0 f) "x" ++ show_size lib (set_width 0 f) Cols
   ++ show_string lib (set_width 0 f) ("):" ++ newline)
   ++ joined ((λ d, slice_text (fixed2 f) Depth Rows Cols d (elem d))
              <$> seq 0 Depth))%string.

End VocabularyText.

(** ** More objects for the instances *)

(** A store with the 2 x 2 identity matrix, [A = [1 2; 3 4]] and
    [B = [5 6; 7 8]]. *)
Definition with_identity : gmap nat (list (list int)) :=
  <[2 := [[I32 5; I32 6]; [I32 7; I32 8]]]>
    (<[1 := [[I32 1; I32 2]; [I32 3; I32 4]]]>
       (<[0 := [[I32 1; I32 0]; [I32 0; I32 1]]]> ∅)).
Definition Id_2x2 : Matrix int 2 2 := Matrix_object 0.
Definition P_2x2 : Matrix int 2 2 := Matrix_object 1.
Definition Q_2x2 : Matrix int 2 2 := Matrix_object 2.

(** A store with a matrix of [double]s, [[1.5 -2.75; 3 0.875]]. *)
Definition double_matrices : gmap nat (list (list double)) :=
  <[0 := [[double_of_Z 3 (-1); double_of_Z (-11) (-2)];
          [double_of_Z 3 0; double_of_Z 7 (-3)]]]> ∅.
Definition D_2x2 : Matrix double 2 2 := Matrix_object 0.

(** A store with a tensor of [double]s, one row [[1.5 -2.75]]. *)
Definition double_tensors : gmap nat (list (list (list double))) :=
  <[0 := [[[double_of_Z 3 (-1); double_of_Z (-11) (-2)]]]]> ∅.
Definition E_1x1x2 : Tensor3D double 1 1 2 := Tensor3D_object 0.

(** The arrays of [A], [B], [U] and [W]. *)
Definition array_A : list (list int) := [[I32 1; I32 2]; [I32 3; I32 4]].
Definition array_B : list (list int) := [[I32 5; I32 6]; [I32 7; I32 8]].
Definition array_U : list (list (list int)) :=
  [[[I32 1; I32 2]; [I32 3; I32 4]]; [[I32 5; I32 6]; [I32 7; I32 8]]].
Definition array_W : list (list (list int)) :=
  [[[I32 1; I32 0]; [I32 0; I32 1]]; [[I32 2; I32 2]; [I32 2; I32 2]]].

(** * Properties *)

(** ** The monad and its loops *)

Section MonadFacts.
Context {Σ : Type}.

Lemma bind_Ok {A B} (m : M Σ A) (k : A → M Σ B) σ a σ' :
  m σ = (Ok a, σ') → (x <- m ;; k x) σ = k a σ'.
Proof. unfold bind. by intros ->. Qed.

Lemma bind_Throw {A B} (m : M Σ A) (k : A → M Σ B) σ e σ' :
  m σ = (Throw e, σ') → (x <- m ;; k x) σ = (Throw e, σ').
Proof. unfold bind. by intros ->. Qed.

Lemma bind_Undefined {A B} (m : M Σ A) (k : A → M Σ B) σ :
  (m σ).1 = Undefined → ((x <- m ;; k x) σ).1 = Undefined.
Proof. unfold bind. by destruct (m σ) as [[a|e|] σ']. Qed.

Lemma for_from_ext {L} (body body' : nat → L → M Σ L) n :
  (∀ i s σ, body i s σ = body' i s σ) →
  ∀ i s σ, for_from i n body s σ = for_from i n body' s σ.
Proof.
  intros Hext. induction n as [|n IH]; intros i s σ; simpl; [done|].
  unfold bind. rewrite Hext. destruct (body' i s σ) as [[s'| |] σ']; auto.
Qed.

(** The invariant rule, for loops whose every iteration returns. *)
Lemma for_from_inv {L} (I : nat → L → Σ → Prop) (body : nat → L → M Σ L) n :
  ∀ i s σ,
    I i s σ →
    (∀ j s σ, i ≤ j < i + n → I j s σ →
       ∃ s' σ', body j s σ = (Ok s', σ') ∧ I (S j) s' σ') →
    ∃ s' σ', for_from i n body s σ = (Ok s', σ') ∧ I (i + n) s' σ'.
Proof.
  induction n as [|n IH]; intros i s σ HI Hbody; simpl.
  - exists s, σ. by rewrite Nat.add_0_r.
  - destruct (Hbody i s σ) as (s1 & σ1 & Hrun & HI1); [lia|done|].
    rewrite (bind_Ok _ _ _ _ _ Hrun).
    destruct (IH (S i) s1 σ1 HI1) as (s2 & σ2 & Hrest & HI2).
    { intros j s' σ' Hj. apply Hbody. lia. }
    exists s2, σ2. split; [done|]. by replace (i + S n) with (S i + n) by lia.
Qed.

Lemma for_loop_inv {L} (I : nat → L → Σ → Prop) (body : nat → L → M Σ L) n s σ :
  I 0 s σ →
  (∀ j s σ, j < n → I j s σ →
     ∃ s' σ', body j s σ = (Ok s', σ') ∧ I (S j) s' σ') →
  ∃ s' σ', for_loop n body s σ = (Ok s', σ') ∧ I n s' σ'.
Proof.
  intros HI Hbody. apply (for_from_inv I body n 0 s σ HI).
  intros j s' σ' Hj. apply Hbody. lia.
Qed.

(** A loop whose iterations leave the store alone folds its body over
    the indices. *)
Lemma for_loop_pure {L} (f : nat → L → L) (body : nat → L → M Σ L) n s σ :
  (∀ j s, j < n → body j s σ = (Ok (f j s), σ)) →
  for_loop n body s σ = (Ok (foldl (λ s j, f j s) s (seq 0 n)), σ).
Proof.
  intros Hbody.
  destruct (for_loop_inv
    (λ j s' σ', σ' = σ ∧ s' = foldl (λ s j, f j s) s (seq 0 j)) body n s σ)
    as (s' & σ' & -> & -> & ->); [done| |done].
  intros j s1 σ1 Hj [-> ->]. eexists _, _. split; [by apply Hbody|].
  split; [done|]. by rewrite seq_S, foldl_app.
Qed.

(** Loops whose body may run into undefined behaviour.  Every iteration
    either returns, keeps the invariant [I] of the state and
    establishes [P j], or its behaviour is undefined, for the reason [Q];
    so does the loop. *)
Lemma for_from_or (I : Σ → Prop) (P : nat → Prop) (Q : Prop)
    (body : nat → M Σ unit) n :
  ∀ i σ, I σ →
    (∀ j σ, i ≤ j < i + n → I σ →
       (∃ σ', body j σ = (Ok tt, σ') ∧ I σ' ∧ P j)
       ∨ ((body j σ).1 = Undefined ∧ Q)) →
    (∃ σ', for_from i n (λ j _, body j) tt σ = (Ok tt, σ') ∧ I σ' ∧
           ∀ j, i ≤ j < i + n → P j)
    ∨ ((for_from i n (λ j _, body j) tt σ).1 = Undefined ∧ Q).
Proof.
  induction n as [|n IH]; intros i σ HI Hbody; simpl.
  - left. exists σ. split; [done|]. split; [done|]. intros; lia.
  - destruct (Hbody i σ) as [(σ1 & Hrun & HI1 & HP)|[Hrun HQ]]; [lia|done| |].
    + rewrite (bind_Ok _ _ _ _ _ Hrun).
      destruct (IH (S i) σ1 HI1) as [(σ2 & Hrest & HI2 & HPs)|[Hrest HQ]].
      { intros j σ' Hj. apply Hbody. lia. }
      * left. exists σ2. split; [done|]. split; [done|].
        intros j Hj. destruct (decide (j = i)) as [->|]; [done|apply HPs; lia].
      * by right.
    + right. split; [by apply bind_Undefined|done].
Qed.

Lemma for__or (I : Σ → Prop) (P : nat → Prop) (Q : Prop)
    (body : nat → M Σ unit) n σ :
  I σ →
  (∀ j σ, j < n → I σ →
     (∃ σ', body j σ = (Ok tt, σ') ∧ I σ' ∧ P j)
     ∨ ((body j σ).1 = Undefined ∧ Q)) →
  (∃ σ', for_ n body σ = (Ok tt, σ') ∧ I σ' ∧ ∀ j, j < n → P j)
  ∨ ((for_ n body σ).1 = Undefined ∧ Q).
Proof.
  intros HI Hbody.
  destruct (for_from_or I P Q body n 0 σ HI)
    as [(σ' & Hrun & HI' & HP)|[Hrun HQ]].
  - intros j σ' Hj. apply Hbody. lia.
  - left. exists σ'. split; [done|]. split; [done|]. intros j Hj. apply HP. lia.
  - by right.
Qed.

Lemma loop2_or (I : Σ → Prop) (P : nat → nat → Prop) (Q : Prop)
    (body : nat → nat → M Σ unit) Rows Cols σ :
  I σ →
  (∀ r c σ, r < Rows → c < Cols → I σ →
     (∃ σ', body r c σ = (Ok tt, σ') ∧ I σ' ∧ P r c)
     ∨ ((body r c σ).1 = Undefined ∧ Q)) →
  (∃ σ', for_ Rows (λ r, for_ Cols (λ c, body r c)) σ = (Ok tt, σ') ∧ I σ' ∧
         ∀ r c, r < Rows → c < Cols → P r c)
  ∨ ((for_ Rows (λ r, for_ Cols (λ c, body r c)) σ).1 = Undefined ∧ Q).
Proof.
  intros HI Hbody.
  destruct (for__or I (λ r, ∀ c, c < Cols → P r c) Q
              (λ r, for_ Cols (λ c, body r c)) Rows σ HI)
    as [(σ' & Hrun & HI' & HP)|[Hrun HQ]].
  - intros r σ1 Hr HI1.
    destruct (for__or I (P r) Q (λ c, body r c) Cols σ1 HI1)
      as [(σ2 & Hrun & HI2 & HP)|[Hrun HQ]]; [|left; eauto|right; eauto].
    intros c σ2 Hc HI2. by apply Hbody.
  - left. exists σ'. split; [done|]. split; [done|]. intros r c Hr Hc. by apply HP.
  - by right.
Qed.

Lemma loop3_or (I : Σ → Prop) (P : nat → nat → nat → Prop) (Q : Prop)
    (body : nat → nat → nat → M Σ unit) Depth Rows Cols σ :
  I σ →
  (∀ d r c σ, d < Depth → r < Rows → c < Cols → I σ →
     (∃ σ', body d r c σ = (Ok tt, σ') ∧ I σ' ∧ P d r c)
     ∨ ((body d r c σ).1 = Undefined ∧ Q)) →
  (∃ σ', for_ Depth (λ d, for_ Rows (λ r, for_ Cols (λ c, body d r c))) σ
         = (Ok tt, σ') ∧ I σ' ∧
         ∀ d r c, d < Depth → r < Rows → c < Cols → P d r c)
  ∨ ((for_ Depth (λ d, for_ Rows (λ r, for_ Cols (λ c, body d r c))) σ).1
     = Undefined ∧ Q).
Proof.
  intros HI Hbody.
  destruct (for__or I (λ d, ∀ r c, r < Rows → c < Cols → P d r c) Q
              (λ d, for_ Rows (λ r, for_ Cols (λ c, body d r c))) Depth σ HI)
    as [(σ' & Hrun & HI' & HP)|[Hrun HQ]].
  - intros d σ1 Hd HI1.
    destruct (loop2_or I (P d) Q (body d) Rows Cols σ1 HI1)
      as [(σ2 & Hrun & HI2 & HP)|[Hrun HQ]]; [|left; eauto|right; eauto].
    intros r c σ2 Hr Hc HI2. by apply Hbody.
  - left. exists σ'. split; [done|]. split; [done|].
    intros d r c Hd Hr Hc. by apply HP.
  - by right.
Qed.

End MonadFacts.

(** ** Two-dimensional arrays *)

Section Array2.
Context {T : Type} `{Numeric T}.
Implicit Types (d : list (list T)) (h : gmap nat (list (list T))).
Implicit Types (g : nat → nat → T) (v : T).

Lemma shape2_row Rows Cols d r row :
  shape2 Rows Cols d → d !! r = Some row → r < Rows ∧ length row = Cols.
Proof.
  intros [Hlen Hall] Hr. split.
  - rewrite <- Hlen. by eapply lookup_lt_Some.
  - by eapply (Forall_lookup_1 _ _ _ _ Hall).
Qed.

Lemma shape2_lookup Rows Cols d r :
  shape2 Rows Cols d → r < Rows → ∃ row, d !! r = Some row ∧ length row = Cols.
Proof.
  intros Hd Hr. destruct (lookup_lt_is_Some_2 d r) as [row Hrow].
  { destruct Hd as [-> _]. done. }
  exists row. split; [done|]. by eapply shape2_row.
Qed.

Lemma cell2_shape Rows Cols d r c :
  shape2 Rows Cols d → r < Rows → c < Cols → cell2 d r c = Some (get2 d r c).
Proof.
  intros Hd Hr Hc. unfold get2, cell2.
  destruct (shape2_lookup _ _ _ _ Hd Hr) as (row & -> & Hlen).
  destruct (lookup_lt_is_Some_2 row c) as [v ->]; [lia|done].
Qed.

Lemma shape2_set2 Rows Cols d r c v :
  shape2 Rows Cols d → shape2 Rows Cols (set2 d r c v).
Proof.
  intros Hd. unfold set2. destruct (d !! r) as [row|] eqn:Hrow; [|done].
  destruct (shape2_row _ _ _ _ _ Hd Hrow) as [Hr Hlen].
  destruct Hd as [Hrows Hall]. split.
  - by rewrite length_insert.
  - apply Forall_insert; [done|]. by rewrite length_insert.
Qed.

Lemma cell2_set2_eq Rows Cols d r c v :
  shape2 Rows Cols d → r < Rows → c < Cols → cell2 (set2 d r c v) r c = Some v.
Proof.
  intros Hd Hr Hc. unfold set2, cell2.
  destruct (shape2_lookup _ _ _ _ Hd Hr) as (row & Hrow & Hlen). rewrite Hrow.
  rewrite list_lookup_insert_eq by (by eapply lookup_lt_Some).
  apply list_lookup_insert_eq. lia.
Qed.

Lemma cell2_set2_ne d r c v r' c' :
  (r', c') ≠ (r, c) → cell2 (set2 d r c v) r' c' = cell2 d r' c'.
Proof.
  intros Hne. unfold set2, cell2.
  destruct (d !! r) as [row|] eqn:Hrow; [|done].
  destruct (decide (r' = r)) as [->|Hr].
  - rewrite list_lookup_insert_eq by (by eapply lookup_lt_Some). rewrite Hrow.
    apply list_lookup_insert_ne. congruence.
  - by rewrite list_lookup_insert_ne.
Qed.

Lemma shape2_tabulate2 Rows Cols g : shape2 Rows Cols (tabulate2 Rows Cols g).
Proof.
  unfold tabulate2. split.
  - by rewrite length_fmap, length_seq.
  - apply Forall_fmap, Forall_forall. intros r _. simpl.
    by rewrite length_fmap, length_seq.
Qed.

Lemma cell2_tabulate2 Rows Cols g r c :
  r < Rows → c < Cols → cell2 (tabulate2 Rows Cols g) r c = Some (g r c).
Proof.
  intros Hr Hc. unfold cell2, tabulate2.
  rewrite list_lookup_fmap, lookup_seq_lt by done. simpl.
  by rewrite list_lookup_fmap, lookup_seq_lt.
Qed.

Lemma get2_tabulate2 Rows Cols g r c :
  r < Rows → c < Cols → get2 (tabulate2 Rows Cols g) r c = g r c.
Proof. intros Hr Hc. unfold get2. by rewrite cell2_tabulate2. Qed.

(** Two arrays of one shape with the same elements are the same array. *)
Lemma array2_ext Rows Cols d d' :
  shape2 Rows Cols d → shape2 Rows Cols d' →
  (∀ r c, r < Rows → c < Cols → cell2 d r c = cell2 d' r c) →
  d = d'.
Proof.
  intros Hd Hd' Hcells. apply list_eq. intros r.
  destruct (decide (r < Rows)) as [Hr|Hr].
  - destruct (shape2_lookup _ _ _ _ Hd Hr) as (row & Hrow & Hlen).
    destruct (shape2_lookup _ _ _ _ Hd' Hr) as (row' & Hrow' & Hlen').
    rewrite Hrow, Hrow'. f_equal. apply list_eq. intros c.
    destruct (decide (c < Cols)) as [Hc|Hc].
    + specialize (Hcells r c Hr Hc). unfold cell2 in Hcells.
      by rewrite Hrow, Hrow' in Hcells.
    + rewrite !lookup_ge_None_2 by lia. done.
  - destruct Hd as [Hl _], Hd' as [Hl' _].
    rewrite !lookup_ge_None_2 by lia. done.
Qed.

Lemma shape2_replicate Rows Cols (v : T) :
  shape2 Rows Cols (replicate Rows (replicate Cols v)).
Proof.
  split; [by rewrite length_replicate|].
  apply Forall_replicate. by rewrite length_replicate.
Qed.

(** The unchecked accesses, on an array of the right shape. *)
Lemma load2_run Rows Cols h l d r c :
  h !! l = Some d → shape2 Rows Cols d → r < Rows → c < Cols →
  load2 l r c h = (Ok (get2 d r c), h).
Proof.
  intros Hl Hd Hr Hc. unfold load2. rewrite Hl.
  pose proof (cell2_shape _ _ _ _ _ Hd Hr Hc) as Hcell. unfold cell2 in Hcell.
  destruct (d !! r) as [row|]; [|done]. by rewrite Hcell.
Qed.

Lemma store2_run Rows Cols h l d r c v :
  h !! l = Some d → shape2 Rows Cols d → r < Rows → c < Cols →
  store2 l r c v h = (Ok tt, <[l := set2 d r c v]> h).
Proof.
  intros Hl Hd Hr Hc. unfold store2, set2. rewrite Hl.
  destruct (shape2_lookup _ _ _ _ Hd Hr) as (row & -> & Hlen).
  rewrite decide_True by lia. done.
Qed.

End Array2.

(** ** Loops that fill a two-dimensional array *)

Section Fill2.
Context {T : Type} `{Numeric T}.
Implicit Types (d : list (list T)) (h : gmap nat (list (list T))).
Implicit Types (g : nat → nat → T) (v : T).

Lemma filled2_step Rows Cols g r c d :
  r < Rows → c < Cols → filled2 Rows Cols g r c d →
  filled2 Rows Cols g r (S c) (set2 d r c (g r c)).
Proof.
  intros Hr Hc [Hd Hcells]. split; [by apply shape2_set2|].
  intros r' c' Hr' Hc' Hbefore.
  destruct (decide ((r', c') = (r, c))) as [[= -> ->]|Hne].
  - by eapply cell2_set2_eq.
  - rewrite cell2_set2_ne by done. apply Hcells; [done..|].
    destruct Hbefore as [?|[-> ?]]; [by left|right].
    split; [done|]. destruct (decide (c' = c)) as [->|]; [done|lia].
Qed.

Lemma filled2_next_row Rows Cols g r d :
  filled2 Rows Cols g r Cols d → filled2 Rows Cols g (S r) 0 d.
Proof.
  intros [Hd Hcells]. split; [done|].
  intros r' c' Hr' Hc' [Hlt|[_ ?]]; [|lia].
  apply Hcells; [done..|]. destruct (decide (r' = r)) as [->|]; [by right|left; lia].
Qed.

Lemma filled2_all Rows Cols g d :
  filled2 Rows Cols g Rows 0 d → d = tabulate2 Rows Cols g.
Proof.
  intros [Hd Hcells]. apply (array2_ext Rows Cols); [done|apply shape2_tabulate2|].
  intros r c Hr Hc. rewrite cell2_tabulate2 by done. apply Hcells; auto.
Qed.

(** Two nested loops whose body stores [g r c] at [(r, c)] of the object
    at [l], and steps the local variables from [st r c] to [st r (c+1)],
    leave the array [tabulate2 g] there and touch nothing else. *)
Lemma loop2_fill {L} Rows Cols (l : nat) h0
    (body : nat → nat → L → M (gmap nat (list (list T))) L)
    (st : nat → nat → L) (g : nat → nat → T) d0 :
  (∀ r, r < Rows → st r Cols = st (S r) 0) →
  (∀ r c d, r < Rows → c < Cols → shape2 Rows Cols d →
     body r c (st r c) (<[l := d]> h0)
     = (Ok (st r (S c)), <[l := set2 d r c (g r c)]> h0)) →
  shape2 Rows Cols d0 →
  for_loop Rows (λ r s, for_loop Cols (λ c s, body r c s) s) (st 0 0)
    (<[l := d0]> h0)
  = (Ok (st Rows 0), <[l := tabulate2 Rows Cols g]> h0).
Proof.
  intros Hst Hbody Hd0.
  destruct (for_loop_inv
    (λ r s σ, s = st r 0 ∧ ∃ d, σ = <[l := d]> h0 ∧ filled2 Rows Cols g r 0 d)
    (λ r s, for_loop Cols (λ c s, body r c s) s) Rows (st 0 0) (<[l := d0]> h0))
    as (s & σ & Hrun & -> & d & -> & Hfilled).
  - split; [done|]. exists d0. split; [done|]. split; [done|]. intros; lia.
  - intros r s σ Hr (-> & d & -> & Hfilled).
    destruct (for_loop_inv
      (λ c s σ, s = st r c ∧ ∃ d, σ = <[l := d]> h0 ∧ filled2 Rows Cols g r c d)
      (λ c s, body r c s) Cols (st r 0) (<[l := d]> h0))
      as (s & σ & Hrun & -> & d' & -> & Hfilled').
    + eauto.
    + intros c s σ Hc (-> & d1 & -> & Hfilled1).
      eexists _, _. split; [apply Hbody; [done..|apply Hfilled1]|].
      split; [done|]. eexists. split; [done|]. by apply filled2_step.
    + eexists _, _. split; [exact Hrun|]. split; [by apply Hst|].
      eexists. split; [done|]. by apply filled2_next_row.
  - rewrite Hrun. by rewrite (filled2_all _ _ _ _ Hfilled).
Qed.

Lemma loop2_fill_unit Rows Cols (l : nat) h0
    (body : nat → nat → M (gmap nat (list (list T))) unit)
    (g : nat → nat → T) d0 :
  (∀ r c d, r < Rows → c < Cols → shape2 Rows Cols d →
     body r c (<[l := d]> h0) = (Ok tt, <[l := set2 d r c (g r c)]> h0)) →
  shape2 Rows Cols d0 →
  for_ Rows (λ r, for_ Cols (λ c, body r c)) (<[l := d0]> h0)
  = (Ok tt, <[l := tabulate2 Rows Cols g]> h0).
Proof.
  intros Hbody Hd0. unfold for_, for_loop.
  rewrite (for_from_ext _ (λ r s, for_loop Cols (λ c _, body r c) s)).
  - apply (loop2_fill Rows Cols l h0 (λ r c _, body r c) (λ _ _, tt) g d0); auto.
  - by intros r [] σ.
Qed.

End Fill2.

(** ** The store *)

Section StoreFacts.
Context {V : Type}.
Implicit Types (h : gmap nat V).

Lemma next_loc_fresh h : h !! next_loc h = None.
Proof. unfold next_loc. apply (not_elem_of_dom (D := gset nat)), is_fresh. Qed.

Lemma index_bound (a n b m : nat) : a < n → b < m → a * m + b < n * m.
Proof. nia. Qed.

Lemma alloc_run h (v : V) : alloc v h = (Ok (next_loc h), <[next_loc h := v]> h).
Proof. done. Qed.

Lemma unwinding_Ok {A} l (m : M (gmap nat V) A) h h' a :
  m h = (Ok a, h') → unwinding l m h = (Ok a, h').
Proof. unfold unwinding. by intros ->. Qed.

Lemma unwinding_Undefined {A} l (m : M (gmap nat V) A) h :
  (m h).1 = Undefined → (unwinding l m h).1 = Undefined.
Proof. unfold unwinding. by destruct (m h) as [[a|e|] h']. Qed.

Lemma preserved_new h v : preserved h (<[next_loc h := v]> h).
Proof.
  intros l w Hl. rewrite lookup_insert_ne; [done|].
  intros <-. by rewrite next_loc_fresh in Hl.
Qed.

End StoreFacts.

(** ** The member functions of [Matrix] *)

(** Runs the next call of a sequence, given the equation of its run. *)
Ltac run_with lem := erewrite bind_Ok by (eapply lem; eauto).

Section MatrixFacts.
Context {T : Type} `{Numeric T}.
Variable indeterminate : T.
Implicit Types (d : list (list T)) (h : gmap nat (list (list T))).
Implicit Types (g : nat → nat → T) (v : T).

Lemma Matrix_holds_frame {Rows Cols} h (m : Matrix T Rows Cols) d l d' :
  Matrix_holds h m d → h !! l = None → (<[l := d']> h) !! Matrix_addr m = Some d.
Proof.
  intros [Hm _] Hl. rewrite lookup_insert_ne; [done|]. congruence.
Qed.

Lemma Matrix_ctor_run Rows Cols h :
  Matrix_ctor indeterminate Rows Cols h
  = (Ok (Matrix_object (next_loc h)),
     <[next_loc h := tabulate2 Rows Cols (λ _ _, T_zero)]> h).
Proof.
  unfold Matrix_ctor. run_with @alloc_run.
  erewrite bind_Ok; [done|].
  apply loop2_fill_unit; [|apply shape2_replicate].
  intros r c d Hr Hc Hd.
  erewrite store2_run by (done || apply lookup_insert_eq).
  by rewrite insert_insert_eq.
Qed.

Lemma Matrix_at_run {Rows Cols} (m : Matrix T Rows Cols) h d r c :
  h !! Matrix_addr m = Some d → shape2 Rows Cols d → r < Rows → c < Cols →
  Matrix_at m r c h = (Ok (get2 d r c), h).
Proof.
  intros Hm Hd Hr Hc. unfold Matrix_at.
  rewrite (proj2 (Nat.leb_gt Rows r)), (proj2 (Nat.leb_gt Cols c)) by done.
  by eapply load2_run.
Qed.

Lemma Matrix_at_out_of_range {Rows Cols} (m : Matrix T Rows Cols) h r c :
  Rows ≤ r ∨ Cols ≤ c →
  Matrix_at m r c h = (Throw (out_of_range "Matrix access out of bounds"), h).
Proof.
  intros Hrc. unfold Matrix_at.
  replace ((Rows <=? r) || (Cols <=? c)) with true; [done|].
  symmetry. apply orb_true_iff. rewrite !Nat.leb_le. done.
Qed.

Lemma Matrix_ref_run {Rows Cols} (m : Matrix T Rows Cols) h r c :
  r < Rows → c < Cols →
  Matrix_ref m r c h = (Ok (Ref2 (Matrix_addr m) r c), h).
Proof.
  intros Hr Hc. unfold Matrix_ref.
  by rewrite (proj2 (Nat.leb_gt Rows r)), (proj2 (Nat.leb_gt Cols c)).
Qed.

Lemma Matrix_ref_out_of_range {Rows Cols} (m : Matrix T Rows Cols) h r c :
  Rows ≤ r ∨ Cols ≤ c →
  Matrix_ref m r c h = (Throw (out_of_range "Matrix access out of bounds"), h).
Proof.
  intros Hrc. unfold Matrix_ref.
  replace ((Rows <=? r) || (Cols <=? c)) with true; [done|].
  symmetry. apply orb_true_iff. rewrite !Nat.leb_le. done.
Qed.

(** [result(r, c) = v] on the local object. *)
Lemma Matrix_assign_run Rows Cols l h d r c v :
  shape2 Rows Cols d → r < Rows → c < Cols →
  (p <- Matrix_ref (@Matrix_object T Rows Cols l) r c ;; assign2 p v) (<[l := d]> h)
  = (Ok tt, <[l := set2 d r c v]> h).
Proof.
  intros Hd Hr Hc. run_with @Matrix_ref_run. unfold assign2. simpl.
  erewrite store2_run by (done || apply lookup_insert_eq).
  by rewrite insert_insert_eq.
Qed.

(** The body shared by the element-wise operators with two operands. *)
Lemma Matrix_binary_body_run (op : T → T → T) Rows Cols
    (this other : Matrix T Rows Cols) l h dA dB d r c :
  Matrix_holds h this dA → Matrix_holds h other dB → h !! l = None →
  shape2 Rows Cols d → r < Rows → c < Cols →
  (a <- Matrix_at this r c ;;
   b <- Matrix_at other r c ;;
   p <- Matrix_ref (@Matrix_object T Rows Cols l) r c ;;
   assign2 p (op a b)) (<[l := d]> h)
  = (Ok tt, <[l := set2 d r c (op (get2 dA r c) (get2 dB r c))]> h).
Proof.
  intros HA HB Hl Hd Hr Hc.
  erewrite bind_Ok
    by (eapply Matrix_at_run; [by eapply Matrix_holds_frame|apply HA|done..]).
  erewrite bind_Ok
    by (eapply Matrix_at_run; [by eapply Matrix_holds_frame|apply HB|done..]).
  by apply Matrix_assign_run.
Qed.

Lemma Matrix_add_run {Rows Cols} (this other : Matrix T Rows Cols) h dA dB :
  Matrix_holds h this dA → Matrix_holds h other dB →
  Matrix_add indeterminate this other h
  = (Ok (Matrix_object (next_loc h)),
     <[next_loc h :=
         tabulate2 Rows Cols (λ r c, T_add (get2 dA r c) (get2 dB r c))]> h).
Proof.
  intros HA HB. unfold Matrix_add. run_with Matrix_ctor_run.
  apply unwinding_Ok. erewrite bind_Ok; [done|].
  apply loop2_fill_unit; [|apply shape2_tabulate2].
  intros r c d Hr Hc Hd.
  eapply Matrix_binary_body_run; eauto using next_loc_fresh.
Qed.

Lemma Matrix_sub_run {Rows Cols} (this other : Matrix T Rows Cols) h dA dB :
  Matrix_holds h this dA → Matrix_holds h other dB →
  Matrix_sub indeterminate this other h
  = (Ok (Matrix_object (next_loc h)),
     <[next_loc h :=
         tabulate2 Rows Cols (λ r c, T_sub (get2 dA r c) (get2 dB r c))]> h).
Proof.
  intros HA HB. unfold Matrix_sub. run_with Matrix_ctor_run.
  apply unwinding_Ok. erewrite bind_Ok; [done|].
  apply loop2_fill_unit; [|apply shape2_tabulate2].
  intros r c d Hr Hc Hd.
  eapply Matrix_binary_body_run; eauto using next_loc_fresh.
Qed.

Lemma Matrix_mul_run {Rows Cols OtherCols}
    (this : Matrix T Rows Cols) (other : Matrix T Cols OtherCols) h dA dB :
  Matrix_holds h this dA → Matrix_holds h other dB →
  Matrix_mul indeterminate this other h
  = (Ok (Matrix_object (next_loc h)),
     <[next_loc h := tabulate2 Rows OtherCols (dot Cols dA dB)]> h).
Proof.
  intros HA HB. unfold Matrix_mul. run_with Matrix_ctor_run.
  apply unwinding_Ok. erewrite bind_Ok; [done|].
  apply loop2_fill_unit; [|apply shape2_tabulate2].
  intros i j d Hi Hj Hd.
  erewrite bind_Ok; [by apply Matrix_assign_run|].
  apply for_loop_pure with
    (f := λ k sum, T_add sum (T_mul (get2 dA i k) (get2 dB k j))).
  intros k sum Hk.
  erewrite bind_Ok by (eapply Matrix_at_run;
    [by eapply Matrix_holds_frame, next_loc_fresh|apply HA|done..]).
  erewrite bind_Ok by (eapply Matrix_at_run;
    [by eapply Matrix_holds_frame, next_loc_fresh|apply HB|done..]).
  done.
Qed.

Lemma Matrix_div_throw {Rows Cols} (this : Matrix T Rows Cols) scalar h :
  zero_divisor scalar = true →
  Matrix_div indeterminate this scalar h
  = (Throw (runtime_error (Matrix_div_what T)), h).
Proof.
  unfold zero_divisor, Matrix_div, Matrix_div_what. intros Hz.
  apply bind_Throw. destruct is_floating_point; by rewrite Hz.
Qed.

(** The body of the loops of [operator/]: the quotient is stored, or the
    division is undefined. *)
Lemma Matrix_div_body_run Rows Cols (this : Matrix T Rows Cols) scalar
    l h dA d r c :
  Matrix_holds h this dA → h !! l = None →
  shape2 Rows Cols d → r < Rows → c < Cols →
  (a <- Matrix_at this r c ;;
   q <- defined (T_div a scalar) ;;
   p <- Matrix_ref (@Matrix_object T Rows Cols l) r c ;;
   assign2 p q) (<[l := d]> h)
  = match T_div (get2 dA r c) scalar with
    | Some q => (Ok tt, <[l := set2 d r c q]> h)
    | None => (Undefined, <[l := d]> h)
    end.
Proof.
  intros HA Hl Hd Hr Hc.
  erewrite bind_Ok
    by (eapply Matrix_at_run; [by eapply Matrix_holds_frame|apply HA|done..]).
  destruct (T_div (get2 dA r c) scalar) as [q|]; [|done].
  unfold bind at 1. simpl. by apply Matrix_assign_run.
Qed.

Lemma Matrix_div_run {Rows Cols} (this : Matrix T Rows Cols) scalar h dA :
  zero_divisor scalar = false → Matrix_holds h this dA →
  defined_quotients2 Rows Cols dA scalar →
  Matrix_div indeterminate this scalar h
  = (Ok (Matrix_object (next_loc h)),
     <[next_loc h := tabulate2 Rows Cols (λ r c, quotient (get2 dA r c) scalar)]> h).
Proof.
  unfold zero_divisor, Matrix_div. intros Hz HA Hq.
  erewrite bind_Ok; [|by destruct is_floating_point; rewrite Hz].
  run_with Matrix_ctor_run.
  apply unwinding_Ok. erewrite bind_Ok; [done|].
  apply loop2_fill_unit; [|apply shape2_tabulate2].
  intros r c d Hr Hc Hd.
  erewrite Matrix_div_body_run by eauto using next_loc_fresh.
  unfold quotient. by destruct (Hq r c Hr Hc) as [q ->].
Qed.

(** With a divisor that passes the test, [operator/] returns when every
    quotient is defined, and otherwise its behaviour is undefined. *)
Lemma Matrix_div_cases {Rows Cols} (this : Matrix T Rows Cols) scalar h dA :
  zero_divisor scalar = false → Matrix_holds h this dA →
  defined_quotients2 Rows Cols dA scalar
  ∨ ((Matrix_div indeterminate this scalar h).1 = Undefined ∧
     ∃ r c, r < Rows ∧ c < Cols ∧ T_div (get2 dA r c) scalar = None).
Proof.
  unfold zero_divisor, Matrix_div. intros Hz HA.
  erewrite bind_Ok; [|by destruct is_floating_point; rewrite Hz].
  run_with Matrix_ctor_run.
  set (l := next_loc h).
  destruct (loop2_or
    (λ σ, ∃ d, σ = <[l := d]> h ∧ shape2 Rows Cols d)
    (λ r c, is_Some (T_div (get2 dA r c) scalar))
    (∃ r c, r < Rows ∧ c < Cols ∧ T_div (get2 dA r c) scalar = None)
    (λ r c, a <- Matrix_at this r c ;;
            q <- defined (T_div a scalar) ;;
            p <- Matrix_ref (@Matrix_object T Rows Cols l) r c ;;
            assign2 p q)
    Rows Cols (<[l := tabulate2 Rows Cols (λ _ _, T_zero)]> h))
    as [(σ' & _ & _ & Hall)|[Hrun Hnone]].
  - eexists. split; [done|]. apply shape2_tabulate2.
  - intros r c σ Hr Hc (d & -> & Hd).
    rewrite (Matrix_div_body_run Rows Cols this scalar l h dA d r c)
      by (done || apply next_loc_fresh).
    destruct (T_div (get2 dA r c) scalar) as [q|] eqn:Hq.
    + left. eexists. split; [done|]. split; [|done].
      eexists. split; [done|]. by apply shape2_set2.
    + right. split; [done|]. by exists r, c.
  - by left.
  - right. split; [|done]. by apply unwinding_Undefined, bind_Undefined.
Qed.

Lemma Matrix_div_undefined {Rows Cols} (this : Matrix T Rows Cols) scalar h dA
    r c :
  zero_divisor scalar = false → Matrix_holds h this dA →
  r < Rows → c < Cols → T_div (get2 dA r c) scalar = None →
  (Matrix_div indeterminate this scalar h).1 = Undefined.
Proof.
  intros Hz HA Hr Hc Hnone.
  destruct (Matrix_div_cases this scalar h dA Hz HA) as [Hq|[Hrun _]]; [|done].
  destruct (Hq r c Hr Hc) as [q Hsome]. congruence.
Qed.

(** A run of [operator/] that returns has stored every quotient. *)
Lemma Matrix_div_returns {Rows Cols} (this : Matrix T Rows Cols) scalar h dA
    result h' :
  Matrix_holds h this dA →
  Matrix_div indeterminate this scalar h = (Ok result, h') →
  zero_divisor scalar = false ∧ defined_quotients2 Rows Cols dA scalar.
Proof.
  intros HA Hrun. destruct (zero_divisor scalar) eqn:Hz.
  { by rewrite Matrix_div_throw in Hrun. }
  split; [done|].
  destruct (Matrix_div_cases this scalar h dA Hz HA) as [Hq|[Hund _]]; [done|].
  by rewrite Hrun in Hund.
Qed.

(** The array [values] of [populate]: every conversion is defined. *)
Lemma cast_all_run {Σ} (args : list arg) (values : list T) (σ : Σ) :
  mapM static_cast args = Some values → cast_all args σ = (Ok values, σ).
Proof.
  revert values. induction args as [|a args IH]; intros values; simpl.
  - by intros [= <-].
  - destruct (static_cast a) as [v|] eqn:Hv; simpl; [|done].
    destruct (mapM static_cast args) as [vs|]; simpl; [|done].
    intros [= <-]. unfold bind at 1. simpl. by rewrite (bind_Ok _ _ _ _ _ (IH _ eq_refl)).
Qed.

Lemma cast_all_undefined {Σ} (args : list arg) (σ : Σ) :
  mapM static_cast args = None → cast_all (T := T) args σ = (Undefined, σ).
Proof.
  induction args as [|a args IH]; simpl; [done|].
  destruct (static_cast a) as [v|] eqn:Hv; simpl; [|done].
  destruct (mapM static_cast args) as [vs|]; simpl; [done|].
  intros _. unfold bind at 1. simpl. unfold bind. by rewrite IH.
Qed.

Lemma Matrix_populate_run {Rows Cols} (this : Matrix T Rows Cols) args Hlen
    values h d :
  Matrix_holds h this d → mapM static_cast args = Some values →
  Matrix_populate this args Hlen h
  = (Ok tt, <[Matrix_addr this := tabulate2 Rows Cols (row_major Cols values)]> h).
Proof.
  intros [Hthis Hd] Hvalues. unfold Matrix_populate.
  run_with @cast_all_run.
  assert (length values = Rows * Cols) as Hlen'.
  { rewrite <- Hlen. symmetry. by eapply length_mapM. }
  erewrite bind_Ok; [done|].
  rewrite <- (insert_id h _ _ Hthis) at 1.
  apply (loop2_fill Rows Cols (Matrix_addr this) h
    (λ r c k, v <- defined (values !! k) ;;
              store2 (Matrix_addr this) r c v ;; ret (S k))
    (λ r c, r * Cols + c) (row_major Cols values) d); [lia| |done].
  intros r c d' Hr Hc Hd'. unfold row_major.
  destruct (lookup_lt_is_Some_2 values (r * Cols + c)) as [v Hv].
  { rewrite Hlen'. by apply index_bound. }
  rewrite Hv. simpl. unfold bind at 1. simpl.
  erewrite bind_Ok by (eapply store2_run; [apply lookup_insert_eq|done..]).
  rewrite insert_insert_eq. unfold ret. do 2 f_equal. lia.
Qed.

End MatrixFacts.

(** ** Three-dimensional arrays *)

Section Array3.
Context {T : Type} `{Numeric T}.
Implicit Types (t : list (list (list T))) (h : gmap nat (list (list (list T)))).
Implicit Types (g : nat → nat → nat → T) (v : T).

Lemma shape3_lookup Depth Rows Cols t d :
  shape3 Depth Rows Cols t → d < Depth →
  ∃ slice, t !! d = Some slice ∧ shape2 Rows Cols slice.
Proof.
  intros [Hlen Hall] Hd. destruct (lookup_lt_is_Some_2 t d) as [slice Hslice]; [lia|].
  exists slice. split; [done|]. by eapply (Forall_lookup_1 _ _ _ _ Hall).
Qed.

Lemma cell3_shape Depth Rows Cols t d r c :
  shape3 Depth Rows Cols t → d < Depth → r < Rows → c < Cols →
  cell3 t d r c = Some (get3 t d r c).
Proof.
  intros Ht Hd Hr Hc. unfold get3, cell3.
  destruct (shape3_lookup _ _ _ _ _ Ht Hd) as (slice & -> & Hslice).
  by erewrite cell2_shape.
Qed.

Lemma shape3_set3 Depth Rows Cols t d r c v :
  shape3 Depth Rows Cols t → shape3 Depth Rows Cols (set3 t d r c v).
Proof.
  intros [Hlen Hall]. unfold set3.
  destruct (t !! d) as [slice|] eqn:Hslice; [|done]. split.
  - by rewrite length_insert.
  - apply Forall_insert; [done|]. apply shape2_set2.
    by eapply (Forall_lookup_1 _ _ _ _ Hall).
Qed.

Lemma cell3_set3_eq Depth Rows Cols t d r c v :
  shape3 Depth Rows Cols t → d < Depth → r < Rows → c < Cols →
  cell3 (set3 t d r c v) d r c = Some v.
Proof.
  intros Ht Hd Hr Hc. unfold set3, cell3.
  destruct (shape3_lookup _ _ _ _ _ Ht Hd) as (slice & Hslice & Hshape).
  rewrite Hslice, list_lookup_insert_eq by (by eapply lookup_lt_Some).
  by eapply cell2_set2_eq.
Qed.

Lemma cell3_set3_ne t d r c v d' r' c' :
  (d', r', c') ≠ (d, r, c) → cell3 (set3 t d r c v) d' r' c' = cell3 t d' r' c'.
Proof.
  intros Hne. unfold set3, cell3.
  destruct (t !! d) as [slice|] eqn:Hslice; [|done].
  destruct (decide (d' = d)) as [->|Hd].
  - rewrite list_lookup_insert_eq by (by eapply lookup_lt_Some). rewrite Hslice.
    apply cell2_set2_ne. congruence.
  - by rewrite list_lookup_insert_ne.
Qed.

Lemma shape3_tabulate3 Depth Rows Cols g :
  shape3 Depth Rows Cols (tabulate3 Depth Rows Cols g).
Proof.
  unfold tabulate3. split.
  - by rewrite length_fmap, length_seq.
  - apply Forall_fmap, Forall_forall. intros d _. apply shape2_tabulate2.
Qed.

Lemma cell3_tabulate3 Depth Rows Cols g d r c :
  d < Depth → r < Rows → c < Cols →
  cell3 (tabulate3 Depth Rows Cols g) d r c = Some (g d r c).
Proof.
  intros Hd Hr Hc. unfold cell3, tabulate3.
  rewrite list_lookup_fmap, lookup_seq_lt by done. simpl.
  by apply cell2_tabulate2.
Qed.

Lemma get3_tabulate3 Depth Rows Cols g d r c :
  d < Depth → r < Rows → c < Cols →
  get3 (tabulate3 Depth Rows Cols g) d r c = g d r c.
Proof. intros Hd Hr Hc. unfold get3. by rewrite cell3_tabulate3. Qed.

Lemma array3_ext Depth Rows Cols t t' :
  shape3 Depth Rows Cols t → shape3 Depth Rows Cols t' →
  (∀ d r c, d < Depth → r < Rows → c < Cols → cell3 t d r c = cell3 t' d r c) →
  t = t'.
Proof.
  intros Ht Ht' Hcells. apply list_eq. intros d.
  destruct (decide (d < Depth)) as [Hd|Hd].
  - destruct (shape3_lookup _ _ _ _ _ Ht Hd) as (slice & Hslice & Hshape).
    destruct (shape3_lookup _ _ _ _ _ Ht' Hd) as (slice' & Hslice' & Hshape').
    rewrite Hslice, Hslice'. f_equal.
    apply (array2_ext Rows Cols); [done..|].
    intros r c Hr Hc. specialize (Hcells d r c Hd Hr Hc). unfold cell3 in Hcells.
    by rewrite Hslice, Hslice' in Hcells.
  - destruct Ht as [Hl _], Ht' as [Hl' _].
    rewrite !lookup_ge_None_2 by lia. done.
Qed.

Lemma shape3_replicate Depth Rows Cols (v : T) :
  shape3 Depth Rows Cols (replicate Depth (replicate Rows (replicate Cols v))).
Proof.
  split; [by rewrite length_replicate|].
  apply Forall_replicate, shape2_replicate.
Qed.

Lemma load3_run Depth Rows Cols h l t d r c :
  h !! l = Some t → shape3 Depth Rows Cols t → d < Depth → r < Rows → c < Cols →
  load3 l d r c h = (Ok (get3 t d r c), h).
Proof.
  intros Hl Ht Hd Hr Hc. unfold load3. rewrite Hl.
  pose proof (cell3_shape _ _ _ _ _ _ _ Ht Hd Hr Hc) as Hcell.
  unfold cell3, cell2 in Hcell.
  destruct (t !! d) as [slice|]; [|done].
  destruct (slice !! r) as [row|]; [|done]. by rewrite Hcell.
Qed.

Lemma store3_run Depth Rows Cols h l t d r c v :
  h !! l = Some t → shape3 Depth Rows Cols t → d < Depth → r < Rows → c < Cols →
  store3 l d r c v h = (Ok tt, <[l := set3 t d r c v]> h).
Proof.
  intros Hl Ht Hd Hr Hc. unfold store3, set3, set2. rewrite Hl.
  destruct (shape3_lookup _ _ _ _ _ Ht Hd) as (slice & -> & Hshape).
  destruct (shape2_lookup _ _ _ _ Hshape Hr) as (row & -> & Hlen).
  rewrite decide_True by lia. done.
Qed.

End Array3.

(** ** Loops that fill a three-dimensional array *)

Section Fill3.
Context {T : Type} `{Numeric T}.
Implicit Types (t : list (list (list T))) (h : gmap nat (list (list (list T)))).
Implicit Types (g : nat → nat → nat → T) (v : T).

Lemma filled3_step Depth Rows Cols g d r c t :
  d < Depth → r < Rows → c < Cols → filled3 Depth Rows Cols g d r c t →
  filled3 Depth Rows Cols g d r (S c) (set3 t d r c (g d r c)).
Proof.
  intros Hd Hr Hc [Ht Hcells]. split; [by apply shape3_set3|].
  intros d' r' c' Hd' Hr' Hc' Hbefore.
  destruct (decide ((d', r', c') = (d, r, c))) as [[= -> -> ->]|Hne].
  - by eapply cell3_set3_eq.
  - rewrite cell3_set3_ne by done. apply Hcells; [done..|].
    unfold before3 in *.
    destruct (decide (d' = d)) as [->|]; [|lia].
    destruct (decide (r' = r)) as [->|]; [|lia].
    destruct (decide (c' = c)) as [->|]; [done|lia].
Qed.

Lemma filled3_next_row Depth Rows Cols g d r t :
  filled3 Depth Rows Cols g d r Cols t → filled3 Depth Rows Cols g d (S r) 0 t.
Proof.
  intros [Ht Hcells]. split; [done|].
  intros d' r' c' Hd' Hr' Hc' Hbefore. apply Hcells; [done..|].
  unfold before3 in *. lia.
Qed.

Lemma filled3_next_slice Depth Rows Cols g d t :
  filled3 Depth Rows Cols g d Rows 0 t → filled3 Depth Rows Cols g (S d) 0 0 t.
Proof.
  intros [Ht Hcells]. split; [done|].
  intros d' r' c' Hd' Hr' Hc' Hbefore. apply Hcells; [done..|].
  unfold before3 in *. lia.
Qed.

Lemma filled3_all Depth Rows Cols g t :
  filled3 Depth Rows Cols g Depth 0 0 t → t = tabulate3 Depth Rows Cols g.
Proof.
  intros [Ht Hcells]. apply (array3_ext Depth Rows Cols); [done|apply shape3_tabulate3|].
  intros d r c Hd Hr Hc. rewrite cell3_tabulate3 by done.
  apply Hcells; [done..|]. by left.
Qed.

Lemma loop3_fill {L} Depth Rows Cols (l : nat) h0
    (body : nat → nat → nat → L → M (gmap nat (list (list (list T)))) L)
    (st : nat → nat → nat → L) (g : nat → nat → nat → T) t0 :
  (∀ d r, d < Depth → r < Rows → st d r Cols = st d (S r) 0) →
  (∀ d, d < Depth → st d Rows 0 = st (S d) 0 0) →
  (∀ d r c t, d < Depth → r < Rows → c < Cols → shape3 Depth Rows Cols t →
     body d r c (st d r c) (<[l := t]> h0)
     = (Ok (st d r (S c)), <[l := set3 t d r c (g d r c)]> h0)) →
  shape3 Depth Rows Cols t0 →
  for_loop Depth (λ d s,
    for_loop Rows (λ r s,
      for_loop Cols (λ c s, body d r c s) s) s) (st 0 0 0) (<[l := t0]> h0)
  = (Ok (st Depth 0 0), <[l := tabulate3 Depth Rows Cols g]> h0).
Proof.
  intros Hrow Hslice Hbody Ht0.
  set (I := λ d r c (s : L) (σ : gmap nat (list (list (list T)))),
         s = st d r c ∧ ∃ t, σ = <[l := t]> h0 ∧ filled3 Depth Rows Cols g d r c t).
  destruct (for_loop_inv (λ d, I d 0 0)
    (λ d s, for_loop Rows (λ r s, for_loop Cols (λ c s, body d r c s) s) s)
    Depth (st 0 0 0) (<[l := t0]> h0))
    as (s & σ & Hrun & -> & t & -> & Hfilled).
  - split; [done|]. exists t0. split; [done|]. split; [done|].
    unfold before3. intros; lia.
  - intros d s σ Hd HI.
    destruct (for_loop_inv (λ r, I d r 0)
      (λ r s, for_loop Cols (λ c s, body d r c s) s) Rows s σ)
      as (s1 & σ1 & Hrun1 & -> & t1 & -> & Hfilled1); [done| |].
    + intros r s1 σ1 Hr HI1.
      destruct (for_loop_inv (λ c, I d r c) (λ c s, body d r c s) Cols s1 σ1)
        as (s2 & σ2 & Hrun2 & -> & t2 & -> & Hfilled2); [done| |].
      * intros c s2 σ2 Hc (-> & t2 & -> & Hfilled2).
        eexists _, _. split; [apply Hbody; [done..|apply Hfilled2]|].
        split; [done|]. eexists. split; [done|]. by apply filled3_step.
      * eexists _, _. split; [exact Hrun2|]. split; [by apply Hrow|].
        eexists. split; [done|]. by apply filled3_next_row.
    + eexists _, _. split; [exact Hrun1|]. split; [by apply Hslice|].
      eexists. split; [done|]. by apply filled3_next_slice.
  - rewrite Hrun. by rewrite (filled3_all _ _ _ _ _ Hfilled).
Qed.

Lemma loop3_fill_unit Depth Rows Cols (l : nat) h0
    (body : nat → nat → nat → M (gmap nat (list (list (list T)))) unit)
    (g : nat → nat → nat → T) t0 :
  (∀ d r c t, d < Depth → r < Rows → c < Cols → shape3 Depth Rows Cols t →
     body d r c (<[l := t]> h0) = (Ok tt, <[l := set3 t d r c (g d r c)]> h0)) →
  shape3 Depth Rows Cols t0 →
  for_ Depth (λ d, for_ Rows (λ r, for_ Cols (λ c, body d r c))) (<[l := t0]> h0)
  = (Ok tt, <[l := tabulate3 Depth Rows Cols g]> h0).
Proof.
  intros Hbody Ht0. unfold for_, for_loop.
  rewrite (for_from_ext _
    (λ d s, for_loop Rows (λ r s, for_loop Cols (λ c _, body d r c) s) s)).
  - apply (loop3_fill Depth Rows Cols l h0 (λ d r c _, body d r c)
             (λ _ _ _, tt) g t0); auto.
  - intros d [] σ. unfold for_loop.
    apply for_from_ext. by intros r [] σ'.
Qed.

End Fill3.

(** ** The member functions of [Tensor3D] *)

Section Tensor3DFacts.
Context {T : Type} `{Numeric T}.
Variable indeterminate : T.
Implicit Types (t : list (list (list T))) (h : gmap nat (list (list (list T)))).
Implicit Types (g : nat → nat → nat → T) (v : T).

Lemma Tensor3D_holds_frame {Depth Rows Cols} h (m : Tensor3D T Depth Rows Cols)
    t l t' :
  Tensor3D_holds h m t → h !! l = None →
  (<[l := t']> h) !! Tensor3D_addr m = Some t.
Proof.
  intros [Hm _] Hl. rewrite lookup_insert_ne; [done|]. congruence.
Qed.

Lemma Tensor3D_bounds Depth Rows Cols d r c :
  d < Depth → r < Rows → c < Cols →
  (Depth <=? d) || (Rows <=? r) || (Cols <=? c) = false.
Proof.
  intros Hd Hr Hc.
  by rewrite (proj2 (Nat.leb_gt Depth d)), (proj2 (Nat.leb_gt Rows r)),
    (proj2 (Nat.leb_gt Cols c)).
Qed.

Lemma Tensor3D_out_of_bounds Depth Rows Cols d r c :
  Depth ≤ d ∨ Rows ≤ r ∨ Cols ≤ c →
  (Depth <=? d) || (Rows <=? r) || (Cols <=? c) = true.
Proof.
  intros Hdrc. rewrite !orb_true_iff, !Nat.leb_le. tauto.
Qed.

Lemma Tensor3D_ctor_run Depth Rows Cols h :
  Tensor3D_ctor indeterminate Depth Rows Cols h
  = (Ok (Tensor3D_object (next_loc h)),
     <[next_loc h := tabulate3 Depth Rows Cols (λ _ _ _, T_zero)]> h).
Proof.
  unfold Tensor3D_ctor. run_with @alloc_run.
  erewrite bind_Ok; [done|].
  apply loop3_fill_unit; [|apply shape3_replicate].
  intros d r c t Hd Hr Hc Ht.
  erewrite store3_run by (done || apply lookup_insert_eq).
  by rewrite insert_insert_eq.
Qed.

Lemma Tensor3D_at_run {Depth Rows Cols} (m : Tensor3D T Depth Rows Cols)
    h t d r c :
  h !! Tensor3D_addr m = Some t → shape3 Depth Rows Cols t →
  d < Depth → r < Rows → c < Cols →
  Tensor3D_at m d r c h = (Ok (get3 t d r c), h).
Proof.
  intros Hm Ht Hd Hr Hc. unfold Tensor3D_at.
  rewrite Tensor3D_bounds by done. by eapply load3_run.
Qed.

Lemma Tensor3D_at_out_of_range {Depth Rows Cols}
    (m : Tensor3D T Depth Rows Cols) h d r c :
  Depth ≤ d ∨ Rows ≤ r ∨ Cols ≤ c →
  Tensor3D_at m d r c h
  = (Throw (out_of_range "Tensor3D access out of bounds"), h).
Proof.
  intros Hdrc. unfold Tensor3D_at. by rewrite Tensor3D_out_of_bounds.
Qed.

Lemma Tensor3D_ref_run {Depth Rows Cols} (m : Tensor3D T Depth Rows Cols)
    h d r c :
  d < Depth → r < Rows → c < Cols →
  Tensor3D_ref m d r c h = (Ok (Ref3 (Tensor3D_addr m) d r c), h).
Proof.
  intros Hd Hr Hc. unfold Tensor3D_ref. by rewrite Tensor3D_bounds.
Qed.

Lemma Tensor3D_ref_out_of_range {Depth Rows Cols}
    (m : Tensor3D T Depth Rows Cols) h d r c :
  Depth ≤ d ∨ Rows ≤ r ∨ Cols ≤ c →
  Tensor3D_ref m d r c h
  = (Throw (out_of_range "Tensor3D access out of bounds"), h).
Proof.
  intros Hdrc. unfold Tensor3D_ref. by rewrite Tensor3D_out_of_bounds.
Qed.

(** [result(d, r, c) = v] on the local object. *)
Lemma Tensor3D_assign_run Depth Rows Cols l h t d r c v :
  shape3 Depth Rows Cols t → d < Depth → r < Rows → c < Cols →
  (p <- Tensor3D_ref (@Tensor3D_object T Depth Rows Cols l) d r c ;;
   assign3 p v) (<[l := t]> h)
  = (Ok tt, <[l := set3 t d r c v]> h).
Proof.
  intros Ht Hd Hr Hc. run_with @Tensor3D_ref_run. unfold assign3. simpl.
  erewrite store3_run by (done || apply lookup_insert_eq).
  by rewrite insert_insert_eq.
Qed.

Lemma Tensor3D_binary_body_run (op : T → T → T) Depth Rows Cols
    (this other : Tensor3D T Depth Rows Cols) l h tA tB t d r c :
  Tensor3D_holds h this tA → Tensor3D_holds h other tB → h !! l = None →
  shape3 Depth Rows Cols t → d < Depth → r < Rows → c < Cols →
  (a <- Tensor3D_at this d r c ;;
   b <- Tensor3D_at other d r c ;;
   p <- Tensor3D_ref (@Tensor3D_object T Depth Rows Cols l) d r c ;;
   assign3 p (op a b)) (<[l := t]> h)
  = (Ok tt, <[l := set3 t d r c (op (get3 tA d r c) (get3 tB d r c))]> h).
Proof.
  intros HA HB Hl Ht Hd Hr Hc.
  erewrite bind_Ok
    by (eapply Tensor3D_at_run; [by eapply Tensor3D_holds_frame|apply HA|done..]).
  erewrite bind_Ok
    by (eapply Tensor3D_at_run; [by eapply Tensor3D_holds_frame|apply HB|done..]).
  by apply Tensor3D_assign_run.
Qed.

Lemma Tensor3D_unary_body_run (op : T → T) Depth Rows Cols
    (this : Tensor3D T Depth Rows Cols) l h tA t d r c :
  Tensor3D_holds h this tA → h !! l = None →
  shape3 Depth Rows Cols t → d < Depth → r < Rows → c < Cols →
  (a <- Tensor3D_at this d r c ;;
   p <- Tensor3D_ref (@Tensor3D_object T Depth Rows Cols l) d r c ;;
   assign3 p (op a)) (<[l := t]> h)
  = (Ok tt, <[l := set3 t d r c (op (get3 tA d r c))]> h).
Proof.
  intros HA Hl Ht Hd Hr Hc.
  erewrite bind_Ok
    by (eapply Tensor3D_at_run; [by eapply Tensor3D_holds_frame|apply HA|done..]).
  by apply Tensor3D_assign_run.
Qed.

Lemma Tensor3D_add_run {Depth Rows Cols}
    (this other : Tensor3D T Depth Rows Cols) h tA tB :
  Tensor3D_holds h this tA → Tensor3D_holds h other tB →
  Tensor3D_add indeterminate this other h
  = (Ok (Tensor3D_object (next_loc h)),
     <[next_loc h := tabulate3 Depth Rows Cols
         (λ d r c, T_add (get3 tA d r c) (get3 tB d r c))]> h).
Proof.
  intros HA HB. unfold Tensor3D_add. run_with Tensor3D_ctor_run.
  apply unwinding_Ok. erewrite bind_Ok; [done|].
  apply loop3_fill_unit; [|apply shape3_tabulate3].
  intros d r c t Hd Hr Hc Ht.
  eapply Tensor3D_binary_body_run; eauto using next_loc_fresh.
Qed.

Lemma Tensor3D_sub_run {Depth Rows Cols}
    (this other : Tensor3D T Depth Rows Cols) h tA tB :
  Tensor3D_holds h this tA → Tensor3D_holds h other tB →
  Tensor3D_sub indeterminate this other h
  = (Ok (Tensor3D_object (next_loc h)),
     <[next_loc h := tabulate3 Depth Rows Cols
         (λ d r c, T_sub (get3 tA d r c) (get3 tB d r c))]> h).
Proof.
  intros HA HB. unfold Tensor3D_sub. run_with Tensor3D_ctor_run.
  apply unwinding_Ok. erewrite bind_Ok; [done|].
  apply loop3_fill_unit; [|apply shape3_tabulate3].
  intros d r c t Hd Hr Hc Ht.
  eapply Tensor3D_binary_body_run; eauto using next_loc_fresh.
Qed.

Lemma Tensor3D_mul_run {Depth Rows Cols}
    (this : Tensor3D T Depth Rows Cols) scalar h tA :
  Tensor3D_holds h this tA →
  Tensor3D_mul indeterminate this scalar h
  = (Ok (Tensor3D_object (next_loc h)),
     <[next_loc h := tabulate3 Depth Rows Cols
         (λ d r c, T_mul (get3 tA d r c) scalar)]> h).
Proof.
  intros HA. unfold Tensor3D_mul. run_with Tensor3D_ctor_run.
  apply unwinding_Ok. erewrite bind_Ok; [done|].
  apply loop3_fill_unit; [|apply shape3_tabulate3].
  intros d r c t Hd Hr Hc Ht.
  eapply (Tensor3D_unary_body_run (λ a, T_mul a scalar));
    eauto using next_loc_fresh.
Qed.

Lemma Tensor3D_div_throw {Depth Rows Cols}
    (this : Tensor3D T Depth Rows Cols) scalar h :
  zero_divisor scalar = true →
  Tensor3D_div indeterminate this scalar h
  = (Throw (runtime_error (Tensor3D_div_what T)), h).
Proof.
  unfold zero_divisor, Tensor3D_div, Tensor3D_div_what. intros Hz.
  apply bind_Throw. destruct is_floating_point; by rewrite Hz.
Qed.

Lemma Tensor3D_div_body_run Depth Rows Cols
    (this : Tensor3D T Depth Rows Cols) scalar l h tA t d r c :
  Tensor3D_holds h this tA → h !! l = None →
  shape3 Depth Rows Cols t → d < Depth → r < Rows → c < Cols →
  (a <- Tensor3D_at this d r c ;;
   q <- defined (T_div a scalar) ;;
   p <- Tensor3D_ref (@Tensor3D_object T Depth Rows Cols l) d r c ;;
   assign3 p q) (<[l := t]> h)
  = match T_div (get3 tA d r c) scalar with
    | Some q => (Ok tt, <[l := set3 t d r c q]> h)
    | None => (Undefined, <[l := t]> h)
    end.
Proof.
  intros HA Hl Ht Hd Hr Hc.
  erewrite bind_Ok
    by (eapply Tensor3D_at_run; [by eapply Tensor3D_holds_frame|apply HA|done..]).
  destruct (T_div (get3 tA d r c) scalar) as [q|]; [|done].
  unfold bind at 1. simpl. by apply Tensor3D_assign_run.
Qed.

Lemma Tensor3D_div_run {Depth Rows Cols}
    (this : Tensor3D T Depth Rows Cols) scalar h tA :
  zero_divisor scalar = false → Tensor3D_holds h this tA →
  defined_quotients3 Depth Rows Cols tA scalar →
  Tensor3D_div indeterminate this scalar h
  = (Ok (Tensor3D_object (next_loc h)),
     <[next_loc h := tabulate3 Depth Rows Cols
         (λ d r c, quotient (get3 tA d r c) scalar)]> h).
Proof.
  unfold zero_divisor, Tensor3D_div. intros Hz HA Hq.
  erewrite bind_Ok; [|by destruct is_floating_point; rewrite Hz].
  run_with Tensor3D_ctor_run.
  apply unwinding_Ok. erewrite bind_Ok; [done|].
  apply loop3_fill_unit; [|apply shape3_tabulate3].
  intros d r c t Hd Hr Hc Ht.
  erewrite Tensor3D_div_body_run by eauto using next_loc_fresh.
  unfold quotient. by destruct (Hq d r c Hd Hr Hc) as [q ->].
Qed.

Lemma Tensor3D_div_cases {Depth Rows Cols}
    (this : Tensor3D T Depth Rows Cols) scalar h tA :
  zero_divisor scalar = false → Tensor3D_holds h this tA →
  defined_quotients3 Depth Rows Cols tA scalar
  ∨ ((Tensor3D_div indeterminate this scalar h).1 = Undefined ∧
     ∃ d r c, d < Depth ∧ r < Rows ∧ c < Cols ∧
              T_div (get3 tA d r c) scalar = None).
Proof.
  unfold zero_divisor, Tensor3D_div. intros Hz HA.
  erewrite bind_Ok; [|by destruct is_floating_point; rewrite Hz].
  run_with Tensor3D_ctor_run.
  set (l := next_loc h).
  destruct (loop3_or
    (λ σ, ∃ t, σ = <[l := t]> h ∧ shape3 Depth Rows Cols t)
    (λ d r c, is_Some (T_div (get3 tA d r c) scalar))
    (∃ d r c, d < Depth ∧ r < Rows ∧ c < Cols ∧
              T_div (get3 tA d r c) scalar = None)
    (λ d r c, a <- Tensor3D_at this d r c ;;
              q <- defined (T_div a scalar) ;;
              p <- Tensor3D_ref (@Tensor3D_object T Depth Rows Cols l) d r c ;;
              assign3 p q)
    Depth Rows Cols (<[l := tabulate3 Depth Rows Cols (λ _ _ _, T_zero)]> h))
    as [(σ' & _ & _ & Hall)|[Hrun Hnone]].
  - eexists. split; [done|]. apply shape3_tabulate3.
  - intros d r c σ Hd Hr Hc (t & -> & Ht).
    rewrite (Tensor3D_div_body_run Depth Rows Cols this scalar l h tA t d r c)
      by (done || apply next_loc_fresh).
    destruct (T_div (get3 tA d r c) scalar) as [q|] eqn:Hq.
    + left. eexists. split; [done|]. split; [|done].
      eexists. split; [done|]. by apply shape3_set3.
    + right. split; [done|]. by exists d, r, c.
  - by left.
  - right. split; [|done]. by apply unwinding_Undefined, bind_Undefined.
Qed.

Lemma Tensor3D_div_undefined {Depth Rows Cols}
    (this : Tensor3D T Depth Rows Cols) scalar h tA d r c :
  zero_divisor scalar = false → Tensor3D_holds h this tA →
  d < Depth → r < Rows → c < Cols → T_div (get3 tA d r c) scalar = None →
  (Tensor3D_div indeterminate this scalar h).1 = Undefined.
Proof.
  intros Hz HA Hd Hr Hc Hnone.
  destruct (Tensor3D_div_cases this scalar h tA Hz HA) as [Hq|[Hrun _]]; [|done].
  destruct (Hq d r c Hd Hr Hc) as [q Hsome]. congruence.
Qed.

Lemma Tensor3D_div_returns {Depth Rows Cols}
    (this : Tensor3D T Depth Rows Cols) scalar h tA result h' :
  Tensor3D_holds h this tA →
  Tensor3D_div indeterminate this scalar h = (Ok result, h') →
  zero_divisor scalar = false ∧ defined_quotients3 Depth Rows Cols tA scalar.
Proof.
  intros HA Hrun. destruct (zero_divisor scalar) eqn:Hz.
  { by rewrite Tensor3D_div_throw in Hrun. }
  split; [done|].
  destruct (Tensor3D_div_cases this scalar h tA Hz HA) as [Hq|[Hund _]]; [done|].
  by rewrite Hrun in Hund.
Qed.

Lemma Tensor3D_populate_run {Depth Rows Cols}
    (this : Tensor3D T Depth Rows Cols) args Hlen values h t :
  Tensor3D_holds h this t → mapM static_cast args = Some values →
  Tensor3D_populate this args Hlen h
  = (Ok tt, <[Tensor3D_addr this :=
                tabulate3 Depth Rows Cols (depth_major Rows Cols values)]> h).
Proof.
  intros [Hthis Ht] Hvalues. unfold Tensor3D_populate.
  run_with @cast_all_run.
  assert (length values = Depth * Rows * Cols) as Hlen'.
  { rewrite <- Hlen. symmetry. by eapply length_mapM. }
  erewrite bind_Ok; [done|].
  rewrite <- (insert_id h _ _ Hthis) at 1.
  apply (loop3_fill Depth Rows Cols (Tensor3D_addr this) h
    (λ d r c k, v <- defined (values !! k) ;;
                store3 (Tensor3D_addr this) d r c v ;; ret (S k))
    (λ d r c, (d * Rows + r) * Cols + c) (depth_major Rows Cols values) t);
    [intros; lia|intros; lia| |done].
  intros d r c t' Hd Hr Hc Ht'. unfold depth_major.
  destruct (lookup_lt_is_Some_2 values ((d * Rows + r) * Cols + c)) as [v Hv].
  { rewrite Hlen'. by apply index_bound; [apply index_bound|]. }
  rewrite Hv. simpl. unfold bind at 1. simpl.
  erewrite bind_Ok by (eapply store3_run; [apply lookup_insert_eq|done..]).
  rewrite insert_insert_eq. unfold ret. do 2 f_equal. lia.
Qed.

End Tensor3DFacts.

(** ** What the accessors read from an object *)

Section Reading.
Context {T : Type} `{Numeric T}.

Lemma Matrix_holds_new Rows Cols (h : gmap nat (list (list T))) l g :
  Matrix_holds (<[l := tabulate2 Rows Cols g]> h)
    (@Matrix_object T Rows Cols l) (tabulate2 Rows Cols g).
Proof. split; [apply lookup_insert_eq|apply shape2_tabulate2]. Qed.

Lemma Matrix_at_holds {Rows Cols} (m : Matrix T Rows Cols) h d r c :
  Matrix_holds h m d → r < Rows → c < Cols →
  Matrix_at m r c h = (Ok (get2 d r c), h).
Proof. intros [Hm Hd] Hr Hc. by eapply Matrix_at_run. Qed.

Lemma Matrix_at_new Rows Cols (h : gmap nat (list (list T))) l g r c :
  r < Rows → c < Cols →
  Matrix_at (@Matrix_object T Rows Cols l) r c (<[l := tabulate2 Rows Cols g]> h)
  = (Ok (g r c), <[l := tabulate2 Rows Cols g]> h).
Proof.
  intros Hr Hc. erewrite Matrix_at_holds by (done || apply Matrix_holds_new).
  by rewrite get2_tabulate2.
Qed.

Lemma Tensor3D_holds_new Depth Rows Cols (h : gmap nat (list (list (list T)))) l g :
  Tensor3D_holds (<[l := tabulate3 Depth Rows Cols g]> h)
    (@Tensor3D_object T Depth Rows Cols l) (tabulate3 Depth Rows Cols g).
Proof. split; [apply lookup_insert_eq|apply shape3_tabulate3]. Qed.

Lemma Tensor3D_at_holds {Depth Rows Cols} (m : Tensor3D T Depth Rows Cols)
    h t d r c :
  Tensor3D_holds h m t → d < Depth → r < Rows → c < Cols →
  Tensor3D_at m d r c h = (Ok (get3 t d r c), h).
Proof. intros [Hm Ht] Hd Hr Hc. by eapply Tensor3D_at_run. Qed.

Lemma Tensor3D_at_new Depth Rows Cols (h : gmap nat (list (list (list T)))) l g
    d r c :
  d < Depth → r < Rows → c < Cols →
  Tensor3D_at (@Tensor3D_object T Depth Rows Cols l) d r c
    (<[l := tabulate3 Depth Rows Cols g]> h)
  = (Ok (g d r c), <[l := tabulate3 Depth Rows Cols g]> h).
Proof.
  intros Hd Hr Hc.
  erewrite Tensor3D_at_holds by (done || apply Tensor3D_holds_new).
  by rewrite get3_tabulate3.
Qed.

(** What [populate] leaves in the object. *)
Lemma Matrix_populate_elements {Rows Cols} (m : Matrix T Rows Cols)
    (args : list arg) (Hlen : length args = Rows * Cols) (values : list T) h d :
  Matrix_holds h m d → mapM static_cast args = Some values →
  ∃ h', Matrix_populate m args Hlen h = (Ok tt, h') ∧
    ∀ r c, r < Rows → c < Cols →
      ∃ v, values !! (r * Cols + c) = Some v ∧ Matrix_at m r c h' = (Ok v, h').
Proof.
  intros Hm Hv. eexists. split; [by eapply Matrix_populate_run|].
  intros r c Hr Hc.
  destruct (lookup_lt_is_Some_2 values (r * Cols + c)) as [v Hv'].
  { rewrite <- (length_mapM _ _ _ Hv), Hlen. by apply index_bound. }
  exists v. split; [done|].
  destruct m as [l]. simpl. rewrite Matrix_at_new by done.
  unfold row_major. by rewrite Hv'.
Qed.

Lemma Tensor3D_populate_elements {Depth Rows Cols}
    (t : Tensor3D T Depth Rows Cols) (args : list arg)
    (Hlen : length args = Depth * Rows * Cols) (values : list T) h dt :
  Tensor3D_holds h t dt → mapM static_cast args = Some values →
  ∃ h', Tensor3D_populate t args Hlen h = (Ok tt, h') ∧
    ∀ d r c, d < Depth → r < Rows → c < Cols →
      ∃ v, values !! ((d * Rows + r) * Cols + c) = Some v ∧
           Tensor3D_at t d r c h' = (Ok v, h').
Proof.
  intros Ht Hv. eexists. split; [by eapply Tensor3D_populate_run|].
  intros d r c Hd Hr Hc.
  destruct (lookup_lt_is_Some_2 values ((d * Rows + r) * Cols + c)) as [v Hv'].
  { rewrite <- (length_mapM _ _ _ Hv), Hlen.
    by apply index_bound; [apply index_bound|]. }
  exists v. split; [done|].
  destruct t as [l]. simpl. rewrite Tensor3D_at_new by done.
  unfold depth_major. by rewrite Hv'.
Qed.

End Reading.

(** ** The element types *)

Lemma int_of_Z_val_eq z : int_val (int_of_Z z) = wrap32 z.
Proof.
  unfold int_of_Z.
  generalize (eq_refl (in_int (wrap32 z))).
  generalize (in_int (wrap32 z)) at 2 3.
  intros [] Hb; [done|]. exfalso.
  apply Bool.not_true_iff_false in Hb. apply Hb.
  unfold in_int, wrap32, int_min, int_max.
  pose proof (Z.mod_pos_bound (z + 2 ^ 31) (2 ^ 32) eq_refl).
  apply andb_true_iff. rewrite !Z.leb_le. lia.
Qed.

Lemma int_range (a : int) : (int_min ≤ int_val a ≤ int_max)%Z.
Proof.
  destruct a as [z Hz]. simpl. unfold in_int in Hz.
  apply andb_true_iff in Hz. rewrite !Z.leb_le in Hz. done.
Qed.

Lemma wrap32_id z : (int_min ≤ z ≤ int_max)%Z → wrap32 z = z.
Proof.
  unfold wrap32, int_min, int_max. intros Hz. rewrite Z.mod_small; lia.
Qed.

Lemma int_eq (a b : int) : int_val a = int_val b → a = b.
Proof.
  destruct a as [x Hx], b as [y Hy]; simpl. intros ->.
  f_equal. apply UIP_dec. apply Bool.bool_dec.
Qed.

Lemma int_of_Z_in_range z : in_int z = true → int_val (int_of_Z z) = z.
Proof.
  intros Hz. rewrite int_of_Z_val_eq. apply wrap32_id.
  unfold in_int in Hz. apply andb_true_iff in Hz. rewrite !Z.leb_le in Hz. done.
Qed.

(** [T{}] is a right identity of [+] on [int]. *)
Lemma int_add_zero_r (a : int) : T_add a T_zero = a.
Proof.
  apply int_eq. simpl. unfold int_add. rewrite !int_of_Z_val_eq.
  rewrite (wrap32_id 0) by (unfold int_min, int_max; lia).
  rewrite Z.add_0_r. apply wrap32_id, int_range.
Qed.

(** On [int] the divisor test is the comparison with zero. *)
Lemma zero_divisor_int (s : int) : zero_divisor s = true ↔ int_val s = 0%Z.
Proof.
  unfold zero_divisor. simpl. unfold int_eqb. rewrite Z.eqb_eq.
  by rewrite int_of_Z_val_eq.
Qed.

(** On [double] it is [|s| < epsilon]. *)
Lemma zero_divisor_double (s : double) :
  zero_divisor s = SFltb (SFabs s) double_epsilon.
Proof. done. Qed.

(** The division of [int] is undefined at a zero divisor and at
    [INT_MIN / -1], and nowhere else. *)
Lemma int_div_None (a b : int) :
  T_div a b = None ↔
  int_val b = 0%Z ∨ (int_val a = int_min ∧ int_val b = (-1)%Z).
Proof.
  simpl. unfold int_div.
  pose proof (int_range a) as Ha. pose proof (int_range b) as Hb.
  destruct (Z.eqb_spec (int_val b) 0) as [Hb0|Hb0]; [by split; [left|]|].
  destruct (in_int (Z.quot (int_val a) (int_val b))) eqn:Hin.
  - split; [done|]. intros [?|[Ha' Hb']]; [done|].
    rewrite Ha', Hb' in Hin. by vm_compute in Hin.
  - split; [|done]. intros _. right.
    unfold in_int in Hin. apply andb_false_iff in Hin.
    rewrite !Z.leb_gt in Hin. unfold int_min, int_max in *.
    assert (2 ^ 31 = 2147483648)%Z as H31 by reflexivity. rewrite H31 in *.
    Z.to_euclidean_division_equations. nia.
Qed.

(** So the quotients of an array of [int]s by a divisor other than 0
    and -1 are all defined. *)
Lemma defined_quotients2_int Rows Cols (d : list (list int)) (scalar : int) :
  int_val scalar ≠ 0%Z → int_val scalar ≠ (-1)%Z →
  defined_quotients2 Rows Cols d scalar.
Proof.
  intros H0 H1 r c _ _.
  destruct (T_div (get2 d r c) scalar) as [q|] eqn:Hq; [by eexists|].
  apply int_div_None in Hq as [?|[_ ?]]; done.
Qed.

Lemma defined_quotients3_int Depth Rows Cols (t : list (list (list int)))
    (scalar : int) :
  int_val scalar ≠ 0%Z → int_val scalar ≠ (-1)%Z →
  defined_quotients3 Depth Rows Cols t scalar.
Proof.
  intros H0 H1 d r c _ _ _.
  destruct (T_div (get3 t d r c) scalar) as [q|] eqn:Hq; [by eexists|].
  apply int_div_None in Hq as [?|[_ ?]]; done.
Qed.

(** The division of [double] is defined everywhere. *)
Lemma defined_quotients2_double Rows Cols (d : list (list double))
    (scalar : double) :
  defined_quotients2 Rows Cols d scalar.
Proof. intros r c _ _. by eexists. Qed.

Lemma defined_quotients3_double Depth Rows Cols (t : list (list (list double)))
    (scalar : double) :
  defined_quotients3 Depth Rows Cols t scalar.
Proof. intros d r c _ _ _. by eexists. Qed.

(** ** The stream inserters *)

Section InserterFacts.
Context {T : Type} `{Numeric T}.
Variable lib : iostreams T.

Lemma for__inv {Σ} (I : Σ → Prop) (body : nat → M Σ unit) n σ :
  I σ →
  (∀ j σ, j < n → I σ → ∃ σ', body j σ = (Ok tt, σ') ∧ I σ') →
  ∃ σ', for_ n body σ = (Ok tt, σ') ∧ I σ'.
Proof.
  intros HI Hbody.
  destruct (for_loop_inv (λ _ _ σ, I σ) (λ i _, body i) n tt σ HI)
    as ([] & σ' & Hrun & HI').
  - intros j [] σ1 Hj HI1. destruct (Hbody j σ1 Hj HI1) as (σ2 & Hrun & HI2).
    by exists tt, σ2.
  - by exists σ'.
Qed.

Lemma Matrix_print_run {Rows Cols} (m : Matrix T Rows Cols)
    (h : gmap nat (list (list T))) d (os : ostream) :
  Matrix_holds h m d →
  ∃ text, Matrix_print lib m (h, os)
          = (Ok tt, (h, {| fmt := ios_init (global_locale lib); written := text |})).
Proof.
  intros [Hm Hd]. unfold Matrix_print.
  destruct os as [f0 text0].
  do 7 (unfold bind at 1; simpl). unfold bind at 1.
  match goal with |- context [for_ Rows ?body ?σ] =>
    destruct (for__inv (printing h (fixed2 f0)) body Rows σ)
      as ([h' os'] & Hrun & Hh & Hf)
  end.
  - done.
  - intros r [h1 [f1 text1]] Hr [Hh1 Hf1]. simpl in Hh1, Hf1. subst h1 f1.
    unfold bind at 1. simpl. unfold bind at 1.
    match goal with |- context [for_ Cols ?body ?σ] =>
      destruct (for__inv (printing h (fixed2 f0)) body Cols σ)
        as ([h2 [f2 text2]] & Hrun & Hh2 & Hf2)
    end.
    + done.
    + intros c [h2 [f2 text2]] Hc [Hh2 Hf2]. simpl in Hh2, Hf2. subst h2 f2.
      unfold bind at 1. simpl. unfold bind at 1, in_store at 1. simpl.
      rewrite (Matrix_at_run m h d r c Hm Hd Hr Hc).
      eexists. split; [reflexivity|done].
    + simpl in Hh2, Hf2. subst h2 f2. rewrite Hrun.
      eexists. split; [reflexivity|done].
  - simpl in Hh, Hf. subst h'. rewrite Hrun.
    destruct os' as [f' text']. by eexists.
Qed.

Lemma Tensor3D_print_run {Depth Rows Cols} (t : Tensor3D T Depth Rows Cols)
    (h : gmap nat (list (list (list T)))) dt (os : ostream) :
  Tensor3D_holds h t dt →
  ∃ text, Tensor3D_print lib t (h, os)
          = (Ok tt, (h, {| fmt := after_Tensor3D_print (fmt os); written := text |})).
Proof.
  intros [Ht Hdt]. unfold Tensor3D_print.
  destruct os as [f0 text0].
  do 10 (unfold bind at 1; simpl). unfold bind at 1.
  match goal with |- context [for_ Depth ?body ?σ] =>
    destruct (for__inv (printing h (fixed2 f0)) body Depth σ)
      as ([h' os'] & Hrun & Hh & Hf)
  end.
  - done.
  - intros d [h1 [f1 text1]] Hd [Hh1 Hf1]. simpl in Hh1, Hf1. subst h1 f1.
    do 3 (unfold bind at 1; simpl). unfold bind at 1.
    match goal with |- context [for_ Rows ?body ?σ] =>
      destruct (for__inv (printing h (fixed2 f0)) body Rows σ)
        as ([h2 [f2 text2]] & Hrun & Hh2 & Hf2)
    end.
    + done.
    + intros r [h2 [f2 text2]] Hr [Hh2 Hf2]. simpl in Hh2, Hf2. subst h2 f2.
      unfold bind at 1. simpl. unfold bind at 1.
      match goal with |- context [for_ Cols ?body ?σ] =>
        destruct (for__inv (printing h (fixed2 f0)) body Cols σ)
          as ([h3 [f3 text3]] & Hrun & Hh3 & Hf3)
      end.
      * done.
      * intros c [h3 [f3 text3]] Hc [Hh3 Hf3]. simpl in Hh3, Hf3. subst h3 f3.
        unfold bind at 1. simpl. unfold bind at 1, in_store at 1. simpl.
        rewrite (Tensor3D_at_run t h dt d r c Ht Hdt Hd Hr Hc).
        eexists. split; [reflexivity|done].
      * simpl in Hh3, Hf3. subst h3 f3. rewrite Hrun.
        eexists. split; [reflexivity|done].
    + simpl in Hh2, Hf2. subst h2 f2. rewrite Hrun.
      destruct (Z.of_nat d <? size_sub Depth 1)%Z;
        eexists; (split; [reflexivity|done]).
  - simpl in Hh, Hf. subst h'. rewrite Hrun.
    destruct os' as [f' text']. simpl in Hf. subst f'. by eexists.
Qed.

End InserterFacts.

(** ** Calls that leave their operands alone *)

Section Frames.
Context {V R : Type}.
Implicit Types (h : gmap nat V).

Lemma returns_new_object_Ok (addr : R → nat) h result v :
  addr result = next_loc h →
  returns_new_object addr h (Ok result, <[next_loc h := v]> h).
Proof.
  intros Haddr. unfold returns_new_object. simpl. rewrite Haddr.
  split; [apply next_loc_fresh|]. split; [|apply preserved_new].
  rewrite lookup_insert_eq. by eexists.
Qed.

End Frames.

(** * The claims *)

Section Claims.
Context {T : Type} `{Numeric T}.
Variable indeterminate : T.

(** C1.  For a [Rows x Cols] matrix [A] and a [Cols x OtherCols] matrix [B],
    [A * B] returns a [Rows x OtherCols] matrix whose element [(i, j)] is the
    sum of [A(i,k) * B(k,j)], accumulated in [T]'s arithmetic from [T{}]
    with [k] ascending from [0] to [Cols - 1]. *)
Theorem Matrix_mul_dot_product {Rows Cols OtherCols}
    (A : Matrix T Rows Cols) (B : Matrix T Cols OtherCols)
    (h : gmap nat (list (list T))) (dA dB : list (list T)) :
  Matrix_holds h A dA → Matrix_holds h B dB →
  ∃ (result : Matrix T Rows OtherCols) h' dR,
    Matrix_mul indeterminate A B h = (Ok result, h') ∧
    Matrix_holds h' result dR ∧
    ∀ i j, i < Rows → j < OtherCols →
      Matrix_at result i j h'
      = (Ok (foldl (λ sum k, T_add sum (T_mul (get2 dA i k) (get2 dB k j)))
               T_zero (seq 0 Cols)), h').
Proof.
  intros HA HB. eexists _, _, _.
  split; [by eapply Matrix_mul_run|].
  split; [apply Matrix_holds_new|].
  intros i j Hi Hj. by rewrite Matrix_at_new.
Qed.

(** C2.  [operator/] of [Matrix] and of [Tensor3D] fails with the
    division-by-zero [std::runtime_error] exactly when the divisor test
    holds: [scalar == T{}] for an integer [T], [|scalar| < epsilon] for a
    floating-point [T].  The test comes first: the failure does not depend
    on the object and leaves the store as it was.  A call that returns has
    passed the test and computed every quotient [m(..) / scalar], and its
    result holds them.  When the test does not hold, the call returns as
    soon as every quotient is defined in [T]; where one is not (for [int],
    [INT_MIN / -1]) the behaviour of the call is undefined. *)
Theorem div_by_scalar {Rows Cols Depth Rows3 Cols3}
    (m : Matrix T Rows Cols) (t : Tensor3D T Depth Rows3 Cols3)
    (hm : gmap nat (list (list T))) (ht : gmap nat (list (list (list T))))
    (dm : list (list T)) (dt : list (list (list T))) (scalar : T) :
  Matrix_holds hm m dm → Tensor3D_holds ht t dt →
  let zero :=
    match is_floating_point with
    | Some F => T_lt F (fabs F scalar) (epsilon F)
    | None => T_eq scalar T_zero
    end in
  (((∃ what, (Matrix_div indeterminate m scalar hm).1 = Throw (runtime_error what))
    ↔ zero = true) ∧
   (zero = true → ∀ h,
      Matrix_div indeterminate m scalar h
      = (Throw (runtime_error (Matrix_div_what T)), h)) ∧
   (∀ result h', Matrix_div indeterminate m scalar hm = (Ok result, h') →
      zero = false ∧
      ∀ r c, r < Rows → c < Cols →
        ∃ q, T_div (get2 dm r c) scalar = Some q ∧
             Matrix_at result r c h' = (Ok q, h')) ∧
   (zero = false → defined_quotients2 Rows Cols dm scalar →
      ∃ result h', Matrix_div indeterminate m scalar hm = (Ok result, h')) ∧
   (zero = false → ∀ r c, r < Rows → c < Cols →
      T_div (get2 dm r c) scalar = None →
      (Matrix_div indeterminate m scalar hm).1 = Undefined))
  ∧
  (((∃ what, (Tensor3D_div indeterminate t scalar ht).1 = Throw (runtime_error what))
    ↔ zero = true) ∧
   (zero = true → ∀ h,
      Tensor3D_div indeterminate t scalar h
      = (Throw (runtime_error (Tensor3D_div_what T)), h)) ∧
   (∀ result h', Tensor3D_div indeterminate t scalar ht = (Ok result, h') →
      zero = false ∧
      ∀ d r c, d < Depth → r < Rows3 → c < Cols3 →
        ∃ q, T_div (get3 dt d r c) scalar = Some q ∧
             Tensor3D_at result d r c h' = (Ok q, h')) ∧
   (zero = false → defined_quotients3 Depth Rows3 Cols3 dt scalar →
      ∃ result h', Tensor3D_div indeterminate t scalar ht = (Ok result, h')) ∧
   (zero = false → ∀ d r c, d < Depth → r < Rows3 → c < Cols3 →
      T_div (get3 dt d r c) scalar = None →
      (Tensor3D_div indeterminate t scalar ht).1 = Undefined)).
Proof.
  intros Hm Ht zero. fold (zero_divisor scalar) in zero.
  split; (split; [|split; [|split; [|split]]]).
  - split.
    + intros [what Hthrow]. destruct zero eqn:Hz; [done|].
      destruct (Matrix_div_cases indeterminate m scalar hm dm Hz Hm)
        as [Hq|[Hund _]].
      * by rewrite (Matrix_div_run indeterminate m scalar hm dm Hz Hm Hq)
          in Hthrow.
      * by rewrite Hund in Hthrow.
    + intros Hz. eexists. by rewrite Matrix_div_throw.
  - intros Hz h. by apply Matrix_div_throw.
  - intros result h' Hrun.
    destruct (Matrix_div_returns indeterminate m scalar hm dm result h' Hm Hrun)
      as [Hz Hq].
    split; [done|]. intros r c Hr Hc.
    rewrite (Matrix_div_run indeterminate m scalar hm dm Hz Hm Hq) in Hrun.
    injection Hrun as <- <-.
    destruct (Hq r c Hr Hc) as [q Hsome]. exists q. split; [done|].
    rewrite Matrix_at_new by done. unfold quotient. by rewrite Hsome.
  - intros Hz Hq. eexists _, _. by eapply Matrix_div_run.
  - intros Hz r c Hr Hc Hnone. by eapply Matrix_div_undefined.
  - split.
    + intros [what Hthrow]. destruct zero eqn:Hz; [done|].
      destruct (Tensor3D_div_cases indeterminate t scalar ht dt Hz Ht)
        as [Hq|[Hund _]].
      * by rewrite (Tensor3D_div_run indeterminate t scalar ht dt Hz Ht Hq)
          in Hthrow.
      * by rewrite Hund in Hthrow.
    + intros Hz. eexists. by rewrite Tensor3D_div_throw.
  - intros Hz h. by apply Tensor3D_div_throw.
  - intros result h' Hrun.
    destruct (Tensor3D_div_returns indeterminate t scalar ht dt result h' Ht Hrun)
      as [Hz Hq].
    split; [done|]. intros d r c Hd Hr Hc.
    rewrite (Tensor3D_div_run indeterminate t scalar ht dt Hz Ht Hq) in Hrun.
    injection Hrun as <- <-.
    destruct (Hq d r c Hd Hr Hc) as [q Hsome]. exists q. split; [done|].
    rewrite Tensor3D_at_new by done. unfold quotient. by rewrite Hsome.
  - intros Hz Hq. eexists _, _. by eapply Tensor3D_div_run.
  - intros Hz d r c Hd Hr Hc Hnone. by eapply Tensor3D_div_undefined.
Qed.

(** C3.  Both forms of [operator()] of a [Rows x Cols] matrix throw
    [std::out_of_range] whenever [row >= Rows] or [col >= Cols], in any
    store and on every call, in particular at [(Rows, 0)] and [(0, Cols)];
    those of a tensor do whenever one of the three indices reaches its
    bound.  With the indices in bounds the [const] form returns the stored
    element, the other form a reference to it: reading through the
    reference gives the stored element, and after an assignment through it
    the element read is the one assigned. *)
Theorem element_access {Rows Cols Depth Rows3 Cols3}
    (m : Matrix T Rows Cols) (t : Tensor3D T Depth Rows3 Cols3)
    (hm : gmap nat (list (list T))) (ht : gmap nat (list (list (list T))))
    (dm : list (list T)) (dt : list (list (list T))) :
  Matrix_holds hm m dm → Tensor3D_holds ht t dt →
  ((∀ h row col, Rows ≤ row ∨ Cols ≤ col →
      Matrix_at m row col h
      = (Throw (out_of_range "Matrix access out of bounds"), h) ∧
      Matrix_ref m row col h
      = (Throw (out_of_range "Matrix access out of bounds"), h)) ∧
   (∀ h, (Matrix_at m Rows 0 h).1 = Throw (out_of_range "Matrix access out of bounds")
       ∧ (Matrix_at m 0 Cols h).1 = Throw (out_of_range "Matrix access out of bounds")) ∧
   (∀ row col, row < Rows → col < Cols →
      ∃ v, cell2 dm row col = Some v ∧
        Matrix_at m row col hm = (Ok v, hm) ∧
        (p <- Matrix_ref m row col ;; read2 p) hm = (Ok v, hm) ∧
        ∀ w, (p <- Matrix_ref m row col ;; assign2 p w ;;
              Matrix_at m row col) hm
             = (Ok w, <[Matrix_addr m := set2 dm row col w]> hm)))
  ∧
  ((∀ h depth row col, Depth ≤ depth ∨ Rows3 ≤ row ∨ Cols3 ≤ col →
      Tensor3D_at t depth row col h
      = (Throw (out_of_range "Tensor3D access out of bounds"), h) ∧
      Tensor3D_ref t depth row col h
      = (Throw (out_of_range "Tensor3D access out of bounds"), h)) ∧
   (∀ depth row col, depth < Depth → row < Rows3 → col < Cols3 →
      ∃ v, cell3 dt depth row col = Some v ∧
        Tensor3D_at t depth row col ht = (Ok v, ht) ∧
        (p <- Tensor3D_ref t depth row col ;; read3 p) ht = (Ok v, ht) ∧
        ∀ w, (p <- Tensor3D_ref t depth row col ;; assign3 p w ;;
              Tensor3D_at t depth row col) ht
             = (Ok w, <[Tensor3D_addr t := set3 dt depth row col w]> ht))).
Proof.
  intros [Hm Hdm] [Ht Hdt]. split; [split; [|split]|split].
  - intros h row col Hout. split.
    + by apply Matrix_at_out_of_range.
    + by apply Matrix_ref_out_of_range.
  - intros h. split.
    + rewrite Matrix_at_out_of_range; [done|by left].
    + rewrite Matrix_at_out_of_range; [done|by right].
  - intros row col Hr Hc. exists (get2 dm row col).
    split; [by eapply cell2_shape|].
    split; [by eapply Matrix_at_run|].
    split.
    + run_with @Matrix_ref_run. unfold read2. simpl. by eapply load2_run.
    + intros w. run_with @Matrix_ref_run. unfold assign2. simpl.
      erewrite bind_Ok by (by eapply store2_run).
      erewrite Matrix_at_run;
        [|apply lookup_insert_eq|by apply shape2_set2|done..].
      unfold get2. by erewrite cell2_set2_eq.
  - intros h depth row col Hout. split.
    + by apply Tensor3D_at_out_of_range.
    + by apply Tensor3D_ref_out_of_range.
  - intros depth row col Hd Hr Hc. exists (get3 dt depth row col).
    split; [by eapply cell3_shape|].
    split; [by eapply Tensor3D_at_run|].
    split.
    + run_with @Tensor3D_ref_run. unfold read3. simpl. by eapply load3_run.
    + intros w. run_with @Tensor3D_ref_run. unfold assign3. simpl.
      erewrite bind_Ok by (by eapply store3_run).
      erewrite Tensor3D_at_run;
        [|apply lookup_insert_eq|by apply shape3_set3|done..].
      unfold get3. by erewrite cell3_set3_eq.
Qed.

(** C4.  [populate] assigns its arguments with the slowest axis first: the
    element [(r, c)] of a matrix receives the value number [r * Cols + c],
    the element [(d, r, c)] of a tensor the value number
    [(d * Rows3 + r) * Cols3 + c], which is the position of [(d, r, c)] in the
    lexicographic enumeration of the indices. *)
Theorem populate_order {Rows Cols Depth Rows3 Cols3}
    (m : Matrix T Rows Cols) (t : Tensor3D T Depth Rows3 Cols3)
    (hm : gmap nat (list (list T))) (ht : gmap nat (list (list (list T))))
    (dm : list (list T)) (dt : list (list (list T)))
    (args2 args3 : list arg) (values2 values3 : list T)
    (Hlen2 : length args2 = Rows * Cols)
    (Hlen3 : length args3 = Depth * Rows3 * Cols3) :
  Matrix_holds hm m dm → Tensor3D_holds ht t dt →
  mapM static_cast args2 = Some values2 →
  mapM static_cast args3 = Some values3 →
  (∃ h', Matrix_populate m args2 Hlen2 hm = (Ok tt, h') ∧
     ∀ r c, r < Rows → c < Cols →
       ∃ v, values2 !! (r * Cols + c) = Some v ∧
            Matrix_at m r c h' = (Ok v, h'))
  ∧
  (∃ h', Tensor3D_populate t args3 Hlen3 ht = (Ok tt, h') ∧
     ∀ d r c, d < Depth → r < Rows3 → c < Cols3 →
       ∃ v, values3 !! ((d * Rows3 + r) * Cols3 + c) = Some v ∧
            Tensor3D_at t d r c h' = (Ok v, h')).
Proof.
  intros Hm Ht Hv2 Hv3. split.
  - by eapply Matrix_populate_elements.
  - by eapply Tensor3D_populate_elements.
Qed.

(** C6.  The commuted form [k * t] is the member [t * k]: the two calls
    have the same outcome and leave the same store, and both return the
    tensor of the products [t(d, r, c) * k]. *)
Theorem scalar_mul_commutes {Depth Rows Cols}
    (t : Tensor3D T Depth Rows Cols) (k : T)
    (h : gmap nat (list (list (list T)))) (dt : list (list (list T))) :
  Tensor3D_holds h t dt →
  scalar_mul_Tensor3D indeterminate k t h = Tensor3D_mul indeterminate t k h ∧
  ∃ result h',
    scalar_mul_Tensor3D indeterminate k t h = (Ok result, h') ∧
    Tensor3D_mul indeterminate t k h = (Ok result, h') ∧
    ∀ d r c, d < Depth → r < Rows → c < Cols →
      Tensor3D_at result d r c h' = (Ok (T_mul (get3 dt d r c) k), h').
Proof.
  intros Ht. split; [done|]. eexists _, _.
  split; [by eapply Tensor3D_mul_run|].
  split; [by eapply Tensor3D_mul_run|].
  intros d r c Hd Hr Hc. by rewrite Tensor3D_at_new.
Qed.

(** C7.  No operator mutates an operand.  Each of [+], [-], [*], [/] of
    [Matrix] and of [+], [-], [*], [/] of [Tensor3D] (and the commuted
    [k * t]) returns an object that did not exist before the call and
    leaves every object of the store, the receiver and the argument among
    them, with the elements it had; a division that fails leaves the store
    exactly as it was.  For [/] this is every call whose behaviour is
    defined: the failing ones, and the ones that return, which are those
    whose divisor passes the test and whose quotients are all defined. *)
Theorem operators_do_not_mutate {Rows Cols OtherCols Depth Rows3 Cols3}
    (A B : Matrix T Rows Cols) (C : Matrix T Cols OtherCols)
    (U W : Tensor3D T Depth Rows3 Cols3)
    (hm : gmap nat (list (list T))) (ht : gmap nat (list (list (list T))))
    (dA dB dC : list (list T)) (dU dW : list (list (list T))) (scalar : T) :
  Matrix_holds hm A dA → Matrix_holds hm B dB → Matrix_holds hm C dC →
  Tensor3D_holds ht U dU → Tensor3D_holds ht W dW →
  (returns_new_object Matrix_addr hm (Matrix_add indeterminate A B hm) ∧
   returns_new_object Matrix_addr hm (Matrix_sub indeterminate A B hm) ∧
   returns_new_object Matrix_addr hm (Matrix_mul indeterminate A C hm) ∧
   ((Matrix_div indeterminate A scalar hm).1 ≠ Undefined →
    returns_new_object Matrix_addr hm (Matrix_div indeterminate A scalar hm)) ∧
   (zero_divisor scalar = true →
    Matrix_div indeterminate A scalar hm
    = (Throw (runtime_error (Matrix_div_what T)), hm)) ∧
   (zero_divisor scalar = false → defined_quotients2 Rows Cols dA scalar →
    ∃ result h', Matrix_div indeterminate A scalar hm = (Ok result, h')))
  ∧
  (returns_new_object Tensor3D_addr ht (Tensor3D_add indeterminate U W ht) ∧
   returns_new_object Tensor3D_addr ht (Tensor3D_sub indeterminate U W ht) ∧
   returns_new_object Tensor3D_addr ht (Tensor3D_mul indeterminate U scalar ht) ∧
   returns_new_object Tensor3D_addr ht (scalar_mul_Tensor3D indeterminate scalar U ht) ∧
   ((Tensor3D_div indeterminate U scalar ht).1 ≠ Undefined →
    returns_new_object Tensor3D_addr ht (Tensor3D_div indeterminate U scalar ht)) ∧
   (zero_divisor scalar = true →
    Tensor3D_div indeterminate U scalar ht
    = (Throw (runtime_error (Tensor3D_div_what T)), ht)) ∧
   (zero_divisor scalar = false → defined_quotients3 Depth Rows3 Cols3 dU scalar →
    ∃ result h', Tensor3D_div indeterminate U scalar ht = (Ok result, h'))).
Proof.
  intros HA HB HC HU HW. split.
  - split; [|split; [|split; [|split; [|split]]]].
    + erewrite Matrix_add_run by done. by apply returns_new_object_Ok.
    + erewrite Matrix_sub_run by done. by apply returns_new_object_Ok.
    + erewrite Matrix_mul_run by done. by apply returns_new_object_Ok.
    + intros Hdefined. destruct (zero_divisor scalar) eqn:Hz.
      * by rewrite Matrix_div_throw.
      * destruct (Matrix_div_cases indeterminate A scalar hm dA Hz HA)
          as [Hq|[Hund _]]; [|done].
        erewrite Matrix_div_run by done. by apply returns_new_object_Ok.
    + intros Hz. by apply Matrix_div_throw.
    + intros Hz Hq. eexists _, _. by eapply Matrix_div_run.
  - split; [|split; [|split; [|split; [|split; [|split]]]]].
    + erewrite Tensor3D_add_run by done. by apply returns_new_object_Ok.
    + erewrite Tensor3D_sub_run by done. by apply returns_new_object_Ok.
    + erewrite Tensor3D_mul_run by done. by apply returns_new_object_Ok.
    + unfold scalar_mul_Tensor3D.
      erewrite Tensor3D_mul_run by done. by apply returns_new_object_Ok.
    + intros Hdefined. destruct (zero_divisor scalar) eqn:Hz.
      * by rewrite Tensor3D_div_throw.
      * destruct (Tensor3D_div_cases indeterminate U scalar ht dU Hz HU)
          as [Hq|[Hund _]]; [|done].
        erewrite Tensor3D_div_run by done. by apply returns_new_object_Ok.
    + intros Hz. by apply Tensor3D_div_throw.
    + intros Hz Hq. eexists _, _. by eapply Tensor3D_div_run.
Qed.

(** C8.  A default-constructed container holds [T{}] in every element,
    whatever its storage held before; and adding a default-constructed
    container of the same shape to [m] returns a container whose element at
    every position is [m]'s element plus [T{}], which is [m]'s element as
    soon as [T{}] is a right identity of [T]'s [+].  The identity is stated
    for a relation [same] on [T]: equality for the integer types, [==] for
    the floating-point ones. *)
Theorem default_is_additive_identity {Rows Cols Depth Rows3 Cols3}
    (m : Matrix T Rows Cols) (t : Tensor3D T Depth Rows3 Cols3)
    (hm : gmap nat (list (list T))) (ht : gmap nat (list (list (list T))))
    (dm : list (list T)) (dt : list (list (list T)))
    (same : T → T → Prop) :
  Matrix_holds hm m dm → Tensor3D_holds ht t dt →
  (∀ x, same (T_add x T_zero) x) →
  (∃ zeros h1,
     Matrix_ctor indeterminate Rows Cols hm = (Ok zeros, h1) ∧
     (∀ r c, r < Rows → c < Cols → Matrix_at zeros r c h1 = (Ok T_zero, h1)) ∧
     ∃ result h2,
       Matrix_add indeterminate m zeros h1 = (Ok result, h2) ∧
       ∀ r c, r < Rows → c < Cols →
         ∃ x y, Matrix_at m r c h2 = (Ok x, h2) ∧
                Matrix_at result r c h2 = (Ok y, h2) ∧
                y = T_add x T_zero ∧ same y x)
  ∧
  (∃ zeros h1,
     Tensor3D_ctor indeterminate Depth Rows3 Cols3 ht = (Ok zeros, h1) ∧
     (∀ d r c, d < Depth → r < Rows3 → c < Cols3 →
        Tensor3D_at zeros d r c h1 = (Ok T_zero, h1)) ∧
     ∃ result h2,
       Tensor3D_add indeterminate t zeros h1 = (Ok result, h2) ∧
       ∀ d r c, d < Depth → r < Rows3 → c < Cols3 →
         ∃ x y, Tensor3D_at t d r c h2 = (Ok x, h2) ∧
                Tensor3D_at result d r c h2 = (Ok y, h2) ∧
                y = T_add x T_zero ∧ same y x).
Proof.
  intros Hm Ht Hsame. split.
  - pose proof (preserved_new hm (tabulate2 Rows Cols (λ _ _, T_zero))) as Hpres.
    assert (Matrix_holds (<[next_loc hm := tabulate2 Rows Cols (λ _ _, T_zero)]> hm)
              m dm) as Hm1.
    { destruct Hm as [Hm Hdm]. split; [by apply Hpres|done]. }
    eexists _, _. split; [apply Matrix_ctor_run|].
    split; [intros r c Hr Hc; by rewrite Matrix_at_new|].
    eexists _, _. split.
    { eapply Matrix_add_run; [exact Hm1|apply Matrix_holds_new]. }
    intros r c Hr Hc. eexists _, _.
    split.
    { eapply Matrix_at_holds; [|done..].
      destruct Hm1 as [Hm1 Hdm]. split; [|exact Hdm].
      by apply preserved_new. }
    split; [by rewrite Matrix_at_new|].
    rewrite get2_tabulate2 by done. split; [done|apply Hsame].
  - pose proof (preserved_new ht (tabulate3 Depth Rows3 Cols3 (λ _ _ _, T_zero)))
      as Hpres.
    assert (Tensor3D_holds
              (<[next_loc ht := tabulate3 Depth Rows3 Cols3 (λ _ _ _, T_zero)]> ht)
              t dt) as Ht1.
    { destruct Ht as [Ht Hdt]. split; [by apply Hpres|done]. }
    eexists _, _. split; [apply Tensor3D_ctor_run|].
    split; [intros d r c Hd Hr Hc; by rewrite Tensor3D_at_new|].
    eexists _, _. split.
    { eapply Tensor3D_add_run; [exact Ht1|apply Tensor3D_holds_new]. }
    intros d r c Hd Hr Hc. eexists _, _.
    split.
    { eapply Tensor3D_at_holds; [|done..].
      destruct Ht1 as [Ht1 Hdt]. split; [|exact Hdt].
      by apply preserved_new. }
    split; [by rewrite Tensor3D_at_new|].
    rewrite get3_tabulate3 by done. split; [done|apply Hsame].
Qed.

(** C9, as amended.  On operands that hold arrays of their shapes, no
    element access made by [+], [-], [*], [/] of [Matrix] or of
    [Tensor3D] is out of bounds: no call ends in [std::out_of_range].
    [+], [-] and [*] always return.  [/] throws the division error when
    the divisor test holds, and returns when it does not and every
    quotient is defined in [T]; with that, the call is free of undefined
    behaviour too. *)
Theorem operators_stay_in_bounds {Rows Cols OtherCols Depth Rows3 Cols3}
    (A B : Matrix T Rows Cols) (C : Matrix T Cols OtherCols)
    (U W : Tensor3D T Depth Rows3 Cols3)
    (hm : gmap nat (list (list T))) (ht : gmap nat (list (list (list T))))
    (dA dB dC : list (list T)) (dU dW : list (list (list T))) (scalar : T) :
  Matrix_holds hm A dA → Matrix_holds hm B dB → Matrix_holds hm C dC →
  Tensor3D_holds ht U dU → Tensor3D_holds ht W dW →
  ((∃ result h', Matrix_add indeterminate A B hm = (Ok result, h')) ∧
   (∃ result h', Matrix_sub indeterminate A B hm = (Ok result, h')) ∧
   (∃ result h', Matrix_mul indeterminate A C hm = (Ok result, h')) ∧
   (∀ what, (Matrix_div indeterminate A scalar hm).1 ≠ Throw (out_of_range what)) ∧
   (zero_divisor scalar = true →
    Matrix_div indeterminate A scalar hm
    = (Throw (runtime_error (Matrix_div_what T)), hm)) ∧
   (zero_divisor scalar = false → defined_quotients2 Rows Cols dA scalar →
    ∃ result h', Matrix_div indeterminate A scalar hm = (Ok result, h')) ∧
   (defined_quotients2 Rows Cols dA scalar →
    in_bounds (Matrix_div indeterminate A scalar hm)))
  ∧
  ((∃ result h', Tensor3D_add indeterminate U W ht = (Ok result, h')) ∧
   (∃ result h', Tensor3D_sub indeterminate U W ht = (Ok result, h')) ∧
   (∃ result h', Tensor3D_mul indeterminate U scalar ht = (Ok result, h')) ∧
   (∀ what, (Tensor3D_div indeterminate U scalar ht).1 ≠ Throw (out_of_range what)) ∧
   (zero_divisor scalar = true →
    Tensor3D_div indeterminate U scalar ht
    = (Throw (runtime_error (Tensor3D_div_what T)), ht)) ∧
   (zero_divisor scalar = false → defined_quotients3 Depth Rows3 Cols3 dU scalar →
    ∃ result h', Tensor3D_div indeterminate U scalar ht = (Ok result, h')) ∧
   (defined_quotients3 Depth Rows3 Cols3 dU scalar →
    in_bounds (Tensor3D_div indeterminate U scalar ht))).
Proof.
  intros HA HB HC HU HW. split.
  - split; [|split; [|split; [|split; [|split; [|split]]]]].
    + eexists _, _. by eapply Matrix_add_run.
    + eexists _, _. by eapply Matrix_sub_run.
    + eexists _, _. by eapply Matrix_mul_run.
    + intros what. destruct (zero_divisor scalar) eqn:Hz.
      * by rewrite Matrix_div_throw.
      * destruct (Matrix_div_cases indeterminate A scalar hm dA Hz HA)
          as [Hq|[Hund _]].
        -- by erewrite Matrix_div_run.
        -- by rewrite Hund.
    + intros Hz. by apply Matrix_div_throw.
    + intros Hz Hq. eexists _, _. by eapply Matrix_div_run.
    + intros Hq. destruct (zero_divisor scalar) eqn:Hz.
      * by rewrite Matrix_div_throw.
      * by erewrite Matrix_div_run.
  - split; [|split; [|split; [|split; [|split; [|split]]]]].
    + eexists _, _. by eapply Tensor3D_add_run.
    + eexists _, _. by eapply Tensor3D_sub_run.
    + eexists _, _. by eapply Tensor3D_mul_run.
    + intros what. destruct (zero_divisor scalar) eqn:Hz.
      * by rewrite Tensor3D_div_throw.
      * destruct (Tensor3D_div_cases indeterminate U scalar ht dU Hz HU)
          as [Hq|[Hund _]].
        -- by erewrite Tensor3D_div_run.
        -- by rewrite Hund.
    + intros Hz. by apply Tensor3D_div_throw.
    + intros Hz Hq. eexists _, _. by eapply Tensor3D_div_run.
    + intros Hq. destruct (zero_divisor scalar) eqn:Hz.
      * by rewrite Tensor3D_div_throw.
      * by erewrite Tensor3D_div_run.
Qed.

End Claims.

(** [Z.quot] rounds toward zero: the quotient is the integer of largest
    magnitude that does not pass the fraction, and it has the sign of the
    fraction. *)
Lemma quot_toward_zero (n d : Z) :
  (0 < d)%Z →
  (Z.abs (Z.quot n d) * d ≤ Z.abs n < (Z.abs (Z.quot n d) + 1) * d)%Z ∧
  (0 ≤ Z.quot n d * n)%Z.
Proof.
  intros Hd.
  assert (Z.abs (Z.quot n d) = Z.abs n / d)%Z as Habs.
  { rewrite <- Z.quot_abs by lia. rewrite (Z.abs_eq d) by lia.
    apply Z.quot_div_nonneg; lia. }
  split.
  - rewrite Habs.
    pose proof (Z.mul_div_le (Z.abs n) d Hd).
    pose proof (Z.mul_succ_div_gt (Z.abs n) d Hd). lia.
  - destruct (Z.le_gt_cases 0 n) as [Hn|Hn].
    + rewrite Z.quot_div_nonneg by lia.
      pose proof (Z.div_pos n d Hn Hd). nia.
    + replace n with (- (- n))%Z at 1 by lia.
      rewrite Z.quot_opp_l by lia. rewrite Z.quot_div_nonneg by lia.
      pose proof (Z.div_pos (- n) d). nia.
Qed.

Lemma double_den_pos (d : double) : (0 < double_den d)%Z.
Proof. destruct d; simpl; try lia; apply Z.pow_pos_nonneg; lia. Qed.

(** C10.  [populate] converts each argument with [static_cast<T>] and
    stores the converted value: the element at position [n] of the
    row-major (depth-major) order holds [static_cast<T>] of argument [n].
    On a matrix of [int] given [double] arguments, the stored value is the
    argument truncated toward zero. *)
Theorem populate_converts_arguments {T : Type} `{Numeric T} {Rows Cols Depth Rows3 Cols3}
    (m : Matrix T Rows Cols) (t : Tensor3D T Depth Rows3 Cols3)
    (hm : gmap nat (list (list T))) (ht : gmap nat (list (list (list T))))
    (dm : list (list T)) (dt : list (list (list T)))
    (args2 args3 : list arg) (values2 values3 : list T)
    (Hlen2 : length args2 = Rows * Cols)
    (Hlen3 : length args3 = Depth * Rows3 * Cols3)
    (mi : Matrix int Rows Cols) (hi : gmap nat (list (list int)))
    (di : list (list int)) (doubles : list double) (ints : list Z)
    (Hleni : length (arg_double <$> doubles) = Rows * Cols) :
  Matrix_holds hm m dm → Tensor3D_holds ht t dt → Matrix_holds hi mi di →
  mapM static_cast args2 = Some values2 →
  mapM static_cast args3 = Some values3 →
  mapM double_trunc doubles = Some ints →
  Forall (λ z, in_int z = true) ints →
  (∃ h', Matrix_populate m args2 Hlen2 hm = (Ok tt, h') ∧
     ∀ r c, r < Rows → c < Cols →
       ∃ a v, args2 !! (r * Cols + c) = Some a ∧ static_cast a = Some v ∧
              Matrix_at m r c h' = (Ok v, h'))
  ∧
  (∃ h', Tensor3D_populate t args3 Hlen3 ht = (Ok tt, h') ∧
     ∀ d r c, d < Depth → r < Rows3 → c < Cols3 →
       ∃ a v, args3 !! ((d * Rows3 + r) * Cols3 + c) = Some a ∧
              static_cast a = Some v ∧
              Tensor3D_at t d r c h' = (Ok v, h'))
  ∧
  (∃ h', Matrix_populate mi (arg_double <$> doubles) Hleni hi = (Ok tt, h') ∧
     ∀ r c, r < Rows → c < Cols →
       ∃ x i, doubles !! (r * Cols + c) = Some x ∧
              Matrix_at mi r c h' = (Ok i, h') ∧
              int_val i = Z.quot (double_num x) (double_den x) ∧
              (Z.abs (int_val i) * double_den x ≤ Z.abs (double_num x)
               < (Z.abs (int_val i) + 1) * double_den x)%Z ∧
              (0 ≤ int_val i * double_num x)%Z).
Proof.
  intros Hm Ht Hi Hv2 Hv3 Hints Hrange.
  destruct (Matrix_populate_elements m args2 Hlen2 values2 hm dm Hm Hv2)
    as [h2 [Hrun2 Hat2]].
  destruct (Tensor3D_populate_elements t args3 Hlen3 values3 ht dt Ht Hv3)
    as [h3 [Hrun3 Hat3]].
  split; [|split].
  - exists h2. split; [done|]. intros r c Hr Hc.
    destruct (Hat2 r c Hr Hc) as (v & Hv & Hat).
    destruct (Forall2_lookup_r _ _ _ _ _ (mapM_Some_1 _ _ _ Hv2) Hv)
      as (a & Ha & Hcast).
    by exists a, v.
  - exists h3. split; [done|]. intros d r c Hd Hr Hc.
    destruct (Hat3 d r c Hd Hr Hc) as (v & Hv & Hat).
    destruct (Forall2_lookup_r _ _ _ _ _ (mapM_Some_1 _ _ _ Hv3) Hv)
      as (a & Ha & Hcast).
    by exists a, v.
  - assert (mapM static_cast (arg_double <$> doubles) = Some (int_of_Z <$> ints))
      as Hcasts.
    { apply mapM_Some_2, Forall2_fmap.
      apply mapM_Some_1 in Hints.
      clear Hleni. induction Hints as [|x z doubles ints Hx Hrest IH];
        [constructor|].
      apply Forall_cons in Hrange as [Hz Hrange].
      constructor; [|by apply IH]. simpl. unfold static_cast_int.
      rewrite Hx. simpl. by rewrite Hz. }
    destruct (Matrix_populate_elements mi (arg_double <$> doubles) Hleni
                (int_of_Z <$> ints) hi di Hi Hcasts) as [h' [Hrun Hat]].
    exists h'. split; [done|]. intros r c Hr Hc.
    destruct (Hat r c Hr Hc) as (i & Hi' & Hati).
    apply list_lookup_fmap_Some_1 in Hi' as (z & -> & Hz).
    destruct (Forall2_lookup_r _ _ _ _ _ (mapM_Some_1 _ _ _ Hints) Hz)
      as (x & Hx & Htrunc).
    exists x, (int_of_Z z). split; [done|]. split; [done|].
    rewrite int_of_Z_in_range
      by (by eapply (Forall_lookup_1 _ _ _ _ Hrange)).
    assert (z = Z.quot (double_num x) (double_den x)) as ->.
    { unfold double_trunc in Htrunc. destruct x; congruence. }
    split; [done|]. apply quot_toward_zero, double_den_pos.
Qed.

(** C5, as the code has it.  After [os << matrix] the formatting state of
    the stream is that of a newly initialised [std::ios], whatever it was
    before the call.  After [os << tensor] the flags, the fill character
    and the locale are what they were before the call, and the width is 0. *)
Theorem print_formatting_state {T : Type} `{Numeric T} {Rows Cols Depth Rows3 Cols3}
    (lib : iostreams T)
    (m : Matrix T Rows Cols) (t : Tensor3D T Depth Rows3 Cols3)
    (hm : gmap nat (list (list T))) (ht : gmap nat (list (list (list T))))
    (dm : list (list T)) (dt : list (list (list T))) (os : ostream) :
  Matrix_holds hm m dm → Tensor3D_holds ht t dt →
  (∃ os', Matrix_print lib m (hm, os) = (Ok tt, (hm, os')) ∧
     fmt os' = ios_init (global_locale lib))
  ∧
  (∃ os', Tensor3D_print lib t (ht, os) = (Ok tt, (ht, os')) ∧
     ios_flags (fmt os') = ios_flags (fmt os) ∧
     ios_fill (fmt os') = ios_fill (fmt os) ∧
     ios_locale (fmt os') = ios_locale (fmt os) ∧
     ios_width (fmt os') = 0%Z).
Proof.
  intros Hm Ht. split.
  - destruct (Matrix_print_run lib m hm dm os Hm) as [text Hrun].
    eexists. split; [exact Hrun|done].
  - destruct (Tensor3D_print_run lib t ht dt os Ht) as [text Hrun].
    eexists. split; [exact Hrun|done].
Qed.

(** ** Instances *)

(** The object is in the store and its array has the shape of its type. *)
Ltac holds := split; [reflexivity|repeat (constructor || reflexivity)].

(** C1 at the product [A * C] of [[1 2; 3 4]] and the column [[5; 6]]. *)
Lemma Matrix_mul_dot_product_witness :
  ∃ (result : Matrix int 2 1) h' dR,
    Matrix_mul (I32 0) A_2x2 C_2x1 matrices = (Ok result, h') ∧
    Matrix_holds h' result dR ∧
    ∀ i j, i < 2 → j < 1 →
      Matrix_at result i j h'
      = (Ok (foldl (λ sum k, T_add sum
                      (T_mul (get2 [[I32 1; I32 2]; [I32 3; I32 4]] i k)
                             (get2 [[I32 5]; [I32 6]] k j)))
               T_zero (seq 0 2)), h').
Proof.
  apply (Matrix_mul_dot_product (I32 0) A_2x2 C_2x1 matrices); holds.
Defined.

(** The divisor 2 is neither 0 nor -1. *)
Ltac other_divisor :=
  apply defined_quotients2_int; intros E; vm_compute in E; discriminate E.

(** C2 at [A / 2]: the divisor test does not hold, every quotient is
    defined, the call returns and its result holds the quotients. *)
Lemma div_by_scalar_witness :
  (∃ result h', Matrix_div (I32 0) A_2x2 (I32 2) matrices = (Ok result, h')) ∧
  (∀ result h', Matrix_div (I32 0) A_2x2 (I32 2) matrices = (Ok result, h') →
     zero_divisor (I32 2) = false ∧
     ∀ r c, r < 2 → c < 2 →
       ∃ q, T_div (get2 array_A r c) (I32 2) = Some q ∧
            Matrix_at result r c h' = (Ok q, h')).
Proof.
  destruct (proj1 (div_by_scalar (I32 0) A_2x2 U_2x2x2 matrices tensors
    array_A array_U (I32 2) ltac:(holds) ltac:(holds)))
    as (_ & _ & Hreturned & Hreturns & _).
  split; [apply Hreturns; [reflexivity|other_divisor]|exact Hreturned].
Defined.

(** C3 at the 2 x 2 matrix [A]: [A(2, 0)] and [A(0, 2)] throw. *)
Lemma element_access_witness :
  (Matrix_at A_2x2 2 0 matrices).1 = Throw (out_of_range "Matrix access out of bounds") ∧
  (Matrix_at A_2x2 0 2 matrices).1 = Throw (out_of_range "Matrix access out of bounds").
Proof.
  refine (proj1 (proj2 (proj1
    (element_access A_2x2 U_2x2x2 matrices tensors _ _ _ _))) matrices); holds.
Defined.

(** C4 at [A.populate(1, 2, 3, 4)]. *)
Lemma populate_order_witness :
  ∃ h', Matrix_populate A_2x2 [int_arg 1; int_arg 2; int_arg 3; int_arg 4]
          eq_refl matrices = (Ok tt, h') ∧
    ∀ r c, r < 2 → c < 2 →
      ∃ v, [I32 1; I32 2; I32 3; I32 4] !! (r * 2 + c) = Some v ∧
           Matrix_at A_2x2 r c h' = (Ok v, h').
Proof.
  refine (proj1 (populate_order A_2x2 U_2x2x2 matrices tensors _ _
    [int_arg 1; int_arg 2; int_arg 3; int_arg 4]
    [int_arg 1; int_arg 2; int_arg 3; int_arg 4;
     int_arg 5; int_arg 6; int_arg 7; int_arg 8]
    _ _ eq_refl eq_refl _ _ _ _)); [holds|holds|reflexivity|reflexivity].
Defined.

(** C6 at [3 * U] and [U * 3]. *)
Lemma scalar_mul_commutes_witness :
  scalar_mul_Tensor3D (I32 0) (I32 3) U_2x2x2 tensors
  = Tensor3D_mul (I32 0) U_2x2x2 (I32 3) tensors.
Proof.
  refine (proj1 (scalar_mul_commutes (I32 0) U_2x2x2 (I32 3) tensors _ _)); holds.
Defined.

(** C7 at [A + B], [A - B], [A * C], [A / 2] and the failing [A / 0]. *)
Lemma operators_do_not_mutate_witness :
  returns_new_object Matrix_addr matrices (Matrix_add (I32 0) A_2x2 B_2x2 matrices) ∧
  returns_new_object Matrix_addr matrices (Matrix_sub (I32 0) A_2x2 B_2x2 matrices) ∧
  returns_new_object Matrix_addr matrices (Matrix_mul (I32 0) A_2x2 C_2x1 matrices) ∧
  returns_new_object Matrix_addr matrices (Matrix_div (I32 0) A_2x2 (I32 2) matrices) ∧
  (∃ result h', Matrix_div (I32 0) A_2x2 (I32 2) matrices = (Ok result, h')) ∧
  returns_new_object Matrix_addr matrices (Matrix_div (I32 0) A_2x2 (I32 0) matrices) ∧
  Matrix_div (I32 0) A_2x2 (I32 0) matrices
  = (Throw (runtime_error (Matrix_div_what int)), matrices).
Proof.
  destruct (proj1 (operators_do_not_mutate (I32 0) A_2x2 B_2x2 C_2x1
    U_2x2x2 W_2x2x2 matrices tensors array_A array_B [[I32 5]; [I32 6]]
    array_U array_W (I32 2)
    ltac:(holds) ltac:(holds) ltac:(holds) ltac:(holds) ltac:(holds)))
    as (Hadd & Hsub & Hmul & Hdiv & _ & Hreturns).
  destruct (proj1 (operators_do_not_mutate (I32 0) A_2x2 B_2x2 C_2x1
    U_2x2x2 W_2x2x2 matrices tensors array_A array_B [[I32 5]; [I32 6]]
    array_U array_W (I32 0)
    ltac:(holds) ltac:(holds) ltac:(holds) ltac:(holds) ltac:(holds)))
    as (_ & _ & _ & Hfailed & Hthrows & _).
  split; [exact Hadd|]. split; [exact Hsub|]. split; [exact Hmul|].
  split; [apply Hdiv; vm_compute; discriminate|].
  split; [apply Hreturns; [reflexivity|other_divisor]|].
  split; [apply Hfailed; vm_compute; discriminate|].
  apply Hthrows. reflexivity.
Defined.

(** C8 at [A + Matrix<int,2,2>()], with equality on [int]. *)
Lemma default_is_additive_identity_witness :
  ∃ zeros h1,
    Matrix_ctor (I32 7) 2 2 matrices = (Ok zeros, h1) ∧
    (∀ r c, r < 2 → c < 2 → Matrix_at zeros r c h1 = (Ok T_zero, h1)) ∧
    ∃ result h2,
      Matrix_add (I32 7) A_2x2 zeros h1 = (Ok result, h2) ∧
      ∀ r c, r < 2 → c < 2 →
        ∃ x y, Matrix_at A_2x2 r c h2 = (Ok x, h2) ∧
               Matrix_at result r c h2 = (Ok y, h2) ∧
               y = T_add x T_zero ∧ y = x.
Proof.
  refine (proj1 (default_is_additive_identity (I32 7) A_2x2 U_2x2x2
    matrices tensors _ _ eq _ _ int_add_zero_r)); holds.
Defined.

(** C9, as amended, at [A + B], [A - B], [A * C] and [A / 2]. *)
Lemma operators_stay_in_bounds_witness :
  (∃ result h', Matrix_add (I32 0) A_2x2 B_2x2 matrices = (Ok result, h')) ∧
  (∃ result h', Matrix_sub (I32 0) A_2x2 B_2x2 matrices = (Ok result, h')) ∧
  (∃ result h', Matrix_mul (I32 0) A_2x2 C_2x1 matrices = (Ok result, h')) ∧
  (∀ what, (Matrix_div (I32 0) A_2x2 (I32 2) matrices).1
           ≠ Throw (out_of_range what)) ∧
  (∃ result h', Matrix_div (I32 0) A_2x2 (I32 2) matrices = (Ok result, h')) ∧
  in_bounds (Matrix_div (I32 0) A_2x2 (I32 2) matrices).
Proof.
  destruct (proj1 (operators_stay_in_bounds (I32 0) A_2x2 B_2x2 C_2x1
    U_2x2x2 W_2x2x2 matrices tensors array_A array_B [[I32 5]; [I32 6]]
    array_U array_W (I32 2)
    ltac:(holds) ltac:(holds) ltac:(holds) ltac:(holds) ltac:(holds)))
    as (Hadd & Hsub & Hmul & Hrange & _ & Hreturns & Hbounds).
  split; [exact Hadd|]. split; [exact Hsub|]. split; [exact Hmul|].
  split; [exact Hrange|].
  split; [apply Hreturns; [reflexivity|other_divisor]|].
  apply Hbounds. other_divisor.
Defined.

(** C9, as stated, fails: [/] is not total.  The divisor -1 passes the
    test, and on the matrix (and the tensor) that holds [INT_MIN] the
    quotient [INT_MIN / -1] is not representable: the call neither returns
    nor throws, its behaviour is undefined. *)
Lemma div_is_not_total :
  (Matrix_holds extreme_matrices M_1x1 [[I32 int_min]] ∧
   zero_divisor (I32 (-1)) = false ∧
   (Matrix_div (I32 0) M_1x1 (I32 (-1)) extreme_matrices).1 = Undefined ∧
   ¬ in_bounds (Matrix_div (I32 0) M_1x1 (I32 (-1)) extreme_matrices))
  ∧
  (Tensor3D_holds extreme_tensors N_1x1x1 [[[I32 int_min]]] ∧
   (Tensor3D_div (I32 0) N_1x1x1 (I32 (-1)) extreme_tensors).1 = Undefined ∧
   ¬ in_bounds (Tensor3D_div (I32 0) N_1x1x1 (I32 (-1)) extreme_tensors)).
Proof.
  split.
  - split; [holds|]. split; [reflexivity|].
    split; [by vm_compute|]. intros Hin. by vm_compute in Hin.
  - split; [holds|].
    split; [by vm_compute|]. intros Hin. by vm_compute in Hin.
Qed.

(** C10 at [A.populate(1.5, -2.75, 3.0, 0.875)] on a matrix of [int]. *)
Lemma populate_converts_arguments_witness :
  ∃ h', Matrix_populate A_2x2 (arg_double <$> some_doubles) eq_refl matrices
        = (Ok tt, h') ∧
    ∀ r c, r < 2 → c < 2 →
      ∃ x i, some_doubles !! (r * 2 + c) = Some x ∧
             Matrix_at A_2x2 r c h' = (Ok i, h') ∧
             int_val i = Z.quot (double_num x) (double_den x) ∧
             (Z.abs (int_val i) * double_den x ≤ Z.abs (double_num x)
              < (Z.abs (int_val i) + 1) * double_den x)%Z ∧
             (0 ≤ int_val i * double_num x)%Z.
Proof.
  refine (proj2 (proj2 (populate_converts_arguments A_2x2 U_2x2x2
    matrices tensors _ _
    [int_arg 1; arg_double (double_of_Z 3 (-1)); int_arg 3; int_arg 4]
    [int_arg 1; int_arg 2; int_arg 3; int_arg 4;
     int_arg 5; int_arg 6; int_arg 7; int_arg 8]
    _ _ eq_refl eq_refl A_2x2 matrices _ some_doubles [1; -2; 3; 0]%Z eq_refl
    _ _ _ _ _ _ _)));
    [holds|holds|holds|reflexivity|reflexivity|reflexivity|
     repeat constructor].
Defined.

(** C5, as amended, at [os << A] and [os << U] on a stream whose precision
    was set to 10. *)
Lemma print_formatting_state_witness :
  (∃ os', Matrix_print plain_iostreams A_2x2 (matrices, precise_stream)
          = (Ok tt, (matrices, os')) ∧
     fmt os' = ios_init "C")
  ∧
  (∃ os', Tensor3D_print plain_iostreams U_2x2x2 (tensors, precise_stream)
          = (Ok tt, (tensors, os')) ∧
     ios_flags (fmt os') = ios_flags (fmt precise_stream) ∧
     ios_fill (fmt os') = ios_fill (fmt precise_stream) ∧
     ios_locale (fmt os') = ios_locale (fmt precise_stream) ∧
     ios_width (fmt os') = 0%Z).
Proof.
  eapply (print_formatting_state plain_iostreams A_2x2 U_2x2x2 matrices tensors);
    holds.
Defined.

(** C5, as stated, fails.  A matrix written to a stream whose precision
    is 10 leaves the precision at 6; a tensor written to a stream as
    constructed (precision 6) leaves the precision at 2. *)
Lemma print_does_not_restore_formatting_state :
  fmt (Matrix_print plain_iostreams A_2x2 (matrices, precise_stream)).2.2
    ≠ fmt precise_stream ∧
  fmt (Tensor3D_print plain_iostreams U_2x2x2 (tensors, new_stream)).2.2
    ≠ fmt new_stream.
Proof. split; vm_compute; discriminate. Qed.

(** ** The code on concrete inputs *)

(** [Matrix<int,2,2>.populate(1,2,3,4)] is row-major. *)
Example populate_1_2_3_4 :
  (Matrix_populate A_2x2 [int_arg 1; int_arg 2; int_arg 3; int_arg 4] eq_refl ;;
   a <- Matrix_at A_2x2 0 0 ;; b <- Matrix_at A_2x2 0 1 ;;
   c <- Matrix_at A_2x2 1 0 ;; d <- Matrix_at A_2x2 1 1 ;;
   ret (int_val <$> [a; b; c; d])) matrices
  = (Ok [1; 2; 3; 4]%Z, matrices).
Proof. vm_compute. reflexivity. Qed.

(** [Tensor3D<int,1,1,1>.populate(5)] yields [element(0,0,0) = 5], and in a
    [2 x 2 x 2] tensor the depth varies slowest. *)
Example populate_tensor :
  (point <- Tensor3D_ctor (I32 0) 1 1 1 ;;
   Tensor3D_populate point [int_arg 5] eq_refl ;;
   Tensor3D_populate U_2x2x2
     [int_arg 10; int_arg 11; int_arg 12; int_arg 13;
      int_arg 14; int_arg 15; int_arg 16; int_arg 17] eq_refl ;;
   x <- Tensor3D_at point 0 0 0 ;;
   a <- Tensor3D_at U_2x2x2 0 0 1 ;; b <- Tensor3D_at U_2x2x2 0 1 0 ;;
   c <- Tensor3D_at U_2x2x2 1 0 0 ;;
   ret (int_val <$> [x; a; b; c])) tensors
  = (Ok [5; 11; 12; 14]%Z,
     <[2 := [[[I32 5]]]]>
       (<[0 := [[[I32 10; I32 11]; [I32 12; I32 13]];
                [[I32 14; I32 15]; [I32 16; I32 17]]]]> tensors)).
Proof. vm_compute. reflexivity. Qed.

(** [populate(1.5, -2.75, 3.0, 0.875)] on a matrix of [int] stores
    1, -2, 3 and 0. *)
Example populate_truncates :
  (Matrix_populate A_2x2 (arg_double <$> some_doubles) eq_refl ;;
   a <- Matrix_at A_2x2 0 0 ;; b <- Matrix_at A_2x2 0 1 ;;
   c <- Matrix_at A_2x2 1 0 ;; d <- Matrix_at A_2x2 1 1 ;;
   ret (int_val <$> [a; b; c; d])) matrices
  = (Ok [1; -2; 3; 0]%Z, <[0 := [[I32 1; I32 (-2)]; [I32 3; I32 0]]]> matrices).
Proof. vm_compute. reflexivity. Qed.

(** The product [A * C] and the quotient [A / 2]. *)
Example mul_and_div :
  (p <- Matrix_mul (I32 0) A_2x2 C_2x1 ;;
   q <- Matrix_div (I32 0) A_2x2 (I32 2) ;;
   ret (p, q)) matrices
  = (Ok (Matrix_object 3, Matrix_object 4),
     <[4 := [[I32 0; I32 1]; [I32 1; I32 2]]]>
       (<[3 := [[I32 17]; [I32 39]]]> matrices)).
Proof. vm_compute. reflexivity. Qed.

(** Division by the integer zero, and by a double below epsilon. *)
Example div_by_zero_int :
  Matrix_div (I32 0) A_2x2 (I32 0) matrices
  = (Throw (runtime_error "Matrix division by zero scalar"), matrices).
Proof. vm_compute. reflexivity. Qed.

Example div_by_tiny_double :
  (t <- Tensor3D_ctor (S754_zero false) 1 1 1 ;;
   Tensor3D_div (S754_zero false) t (double_of_Z 1 (-60)))
    (∅ : gmap nat (list (list (list double))))
  = (Throw (runtime_error "Tensor3D division by zero or near-zero scalar"),
     <[0 := [[[S754_zero false]]]]> ∅).
Proof. vm_compute. reflexivity. Qed.

(** The scenario of the repository's test: the 4 x 4 identity times the
    column (1, 2, 3, 4), written to a stream. *)
Example identity_times_vector :
  (vec <- in_store (Matrix_ctor (I32 0) 4 1) ;;
   in_store (Matrix_populate vec
     [int_arg 1; int_arg 2; int_arg 3; int_arg 4] eq_refl) ;;
   mat <- in_store (Matrix_ctor (I32 0) 4 4) ;;
   in_store (Matrix_populate mat
     [int_arg 1; int_arg 0; int_arg 0; int_arg 0;
      int_arg 0; int_arg 1; int_arg 0; int_arg 0;
      int_arg 0; int_arg 0; int_arg 1; int_arg 0;
      int_arg 0; int_arg 0; int_arg 0; int_arg 1] eq_refl) ;;
   vecmod <- in_store (Matrix_mul (I32 0) mat vec) ;;
   Matrix_print plain_iostreams vecmod ;;
   in_store (Matrix_at vecmod 3 0))
    (∅ : gmap nat (list (list int)), new_stream)
  = (Ok (I32 4),
     (<[2 := [[I32 1]; [I32 2]; [I32 3]; [I32 4]]]>
        (<[1 := [[I32 1; I32 0; I32 0; I32 0]; [I32 0; I32 1; I32 0; I32 0];
                 [I32 0; I32 0; I32 1; I32 0]; [I32 0; I32 0; I32 0; I32 1]]]>
           (<[0 := [[I32 1]; [I32 2]; [I32 3]; [I32 4]]]> ∅)),
      {| fmt := ios_init "C";
         written := "Matrix (4x1):" ++ newline ++
                    "[       1 ]" ++ newline ++
                    "[       2 ]" ++ newline ++
                    "[       3 ]" ++ newline ++
                    "[       4 ]" ++ newline |})).
Proof. vm_compute. reflexivity. Qed.

Lemma SFeqb_refl_finite s m e :
  SFeqb (S754_finite s m e) (S754_finite s m e) = true.
Proof.
  unfold SFeqb, SFcompare. rewrite Z.compare_refl.
  change (PosDef.Pos.compare_cont Eq m m) with (Pos.compare m m).
  rewrite Pos.compare_refl. by destruct s.
Qed.

(** On [double], [x + T{}] compares equal to [x] for every number [x]
    (the two differ in the sign of zero when [x] is [-0.0]), and is NaN
    when [x] is. *)
Lemma double_add_zero_r (x : double) : double_same (T_add x T_zero) x.
Proof.
  destruct x as [s|s| |s m e]; simpl.
  - left. by destruct s.
  - left. by destruct s.
  - by right.
  - left. apply SFeqb_refl_finite.
Qed.

Example double_add_zero_negative_zero :
  T_add (S754_zero true : double) T_zero = S754_zero false.
Proof. reflexivity. Qed.

(** * Further properties of the code *)

(** ** Arithmetic of [int] *)

Lemma wrap32_mod z : (wrap32 z mod 2 ^ 32 = z mod 2 ^ 32)%Z.
Proof.
  unfold wrap32. rewrite Zminus_mod, Zmod_mod, <- Zminus_mod.
  f_equal. lia.
Qed.

Lemma wrap32_eq a b : (a mod 2 ^ 32 = b mod 2 ^ 32)%Z → wrap32 a = wrap32 b.
Proof.
  intros Hab. unfold wrap32. f_equal.
  rewrite (Zplus_mod a), (Zplus_mod b). by rewrite Hab.
Qed.

Lemma int_eq_mod (a : int) z : (int_val a mod 2 ^ 32 = z mod 2 ^ 32)%Z → a = int_of_Z z.
Proof.
  intros Haz. apply int_eq. rewrite int_of_Z_val_eq.
  rewrite <- (wrap32_id (int_val a)) by apply int_range. by apply wrap32_eq.
Qed.

Lemma int_add_comm (a b : int) : T_add a b = T_add b a.
Proof. simpl. unfold int_add. by rewrite Z.add_comm. Qed.

Lemma int_add_zero_l (a : int) : T_add T_zero a = a.
Proof. rewrite int_add_comm. apply int_add_zero_r. Qed.

Lemma int_sub_self (a : int) : T_sub a a = T_zero.
Proof. simpl. unfold int_sub. by rewrite Z.sub_diag. Qed.

Lemma int_add_sub (a b : int) : T_sub (T_add a b) b = a.
Proof.
  symmetry. simpl. unfold int_sub, int_add. apply int_eq_mod.
  rewrite int_of_Z_val_eq.
  rewrite (Zminus_mod (wrap32 _)), wrap32_mod, <- Zminus_mod. f_equal. lia.
Qed.

Lemma int_mul_one_l (a : int) : T_mul (int_of_Z 1) a = a.
Proof.
  symmetry. simpl. unfold int_mul. apply int_eq_mod. f_equal.
  rewrite int_of_Z_val_eq, wrap32_id by (unfold int_min, int_max; lia). lia.
Qed.

Lemma int_mul_one_r (a : int) : T_mul a (int_of_Z 1) = a.
Proof.
  symmetry. simpl. unfold int_mul. apply int_eq_mod. f_equal.
  rewrite int_of_Z_val_eq, wrap32_id by (unfold int_min, int_max; lia). lia.
Qed.

Lemma int_mul_zero_l (a : int) : T_mul T_zero a = T_zero.
Proof.
  apply (int_eq_mod _ 0).
  change (int_val (T_mul T_zero a))
    with (int_val (int_of_Z (int_val (int_of_Z 0) * int_val a))).
  rewrite int_of_Z_val_eq, wrap32_mod, int_of_Z_val_eq.
  change (wrap32 0) with 0%Z. f_equal; lia.
Qed.

Lemma int_mul_zero_r (a : int) : T_mul a T_zero = T_zero.
Proof.
  apply (int_eq_mod _ 0).
  change (int_val (T_mul a T_zero))
    with (int_val (int_of_Z (int_val a * int_val (int_of_Z 0)))).
  rewrite int_of_Z_val_eq, wrap32_mod, int_of_Z_val_eq.
  change (wrap32 0) with 0%Z. f_equal; lia.
Qed.

Lemma int_add_assoc (a b c : int) : T_add (T_add a b) c = T_add a (T_add b c).
Proof.
  simpl. unfold int_add. apply int_eq. rewrite !int_of_Z_val_eq.
  apply wrap32_eq.
  rewrite (Zplus_mod (wrap32 _)), wrap32_mod, <- Zplus_mod.
  rewrite (Zplus_mod _ (wrap32 _)), wrap32_mod, <- Zplus_mod.
  f_equal. lia.
Qed.

Lemma int_mul_add_distr_l (a b c : int) :
  T_mul a (T_add b c) = T_add (T_mul a b) (T_mul a c).
Proof.
  simpl. unfold int_mul, int_add. apply int_eq. rewrite !int_of_Z_val_eq.
  apply wrap32_eq.
  rewrite (Zmult_mod _ (wrap32 _)), wrap32_mod, <- Zmult_mod.
  rewrite (Zplus_mod (wrap32 _) (wrap32 _)), !wrap32_mod, <- Zplus_mod.
  f_equal. lia.
Qed.

Lemma int_mul_add_distr_r (a b c : int) :
  T_mul (T_add a b) c = T_add (T_mul a c) (T_mul b c).
Proof.
  simpl. unfold int_mul, int_add. apply int_eq. rewrite !int_of_Z_val_eq.
  apply wrap32_eq.
  rewrite (Zmult_mod (wrap32 _)), wrap32_mod, <- Zmult_mod.
  rewrite (Zplus_mod (wrap32 _) (wrap32 _)), !wrap32_mod, <- Zplus_mod.
  f_equal. lia.
Qed.

Lemma int_mul_assoc (a b c : int) : T_mul (T_mul a b) c = T_mul a (T_mul b c).
Proof.
  simpl. unfold int_mul. apply int_eq. rewrite !int_of_Z_val_eq.
  apply wrap32_eq.
  rewrite (Zmult_mod (wrap32 _)), wrap32_mod, <- Zmult_mod.
  rewrite (Zmult_mod _ (wrap32 _)), wrap32_mod, <- Zmult_mod.
  f_equal. lia.
Qed.

(** ** Arrays *)

Lemma preserved_trans {V} (h1 h2 h3 : gmap nat V) :
  preserved h1 h2 → preserved h2 h3 → preserved h1 h3.
Proof. intros H12 H23 l v Hl. by apply H23, H12. Qed.

Section MoreArrays.
Context {T : Type} `{Numeric T}.
Implicit Types (d : list (list T)) (h : gmap nat (list (list T))).
Implicit Types (g : nat → nat → T) (v : T).

Lemma array2_tabulate2 Rows Cols d :
  shape2 Rows Cols d → tabulate2 Rows Cols (get2 d) = d.
Proof.
  intros Hd. apply (array2_ext Rows Cols); [apply shape2_tabulate2|done|].
  intros r c Hr Hc. rewrite cell2_tabulate2 by done.
  symmetry. by eapply cell2_shape.
Qed.

Lemma tabulate2_ext Rows Cols g g' :
  (∀ r c, r < Rows → c < Cols → g r c = g' r c) →
  tabulate2 Rows Cols g = tabulate2 Rows Cols g'.
Proof.
  intros Hg. apply (array2_ext Rows Cols); try apply shape2_tabulate2.
  intros r c Hr Hc. rewrite !cell2_tabulate2 by done. f_equal. by apply Hg.
Qed.

(** An array built from the elements of [d] by a function that gives
    them back is [d]. *)
Lemma tabulate2_same Rows Cols d g :
  shape2 Rows Cols d →
  (∀ r c, r < Rows → c < Cols → g r c = get2 d r c) →
  tabulate2 Rows Cols g = d.
Proof.
  intros Hd Hg. rewrite (tabulate2_ext _ _ _ _ Hg). by apply array2_tabulate2.
Qed.

Lemma get2_set2 Rows Cols d r c v r' c' :
  shape2 Rows Cols d → r < Rows → c < Cols → r' < Rows → c' < Cols →
  get2 (set2 d r c v) r' c' = if decide (r' = r ∧ c' = c) then v else get2 d r' c'.
Proof.
  intros Hd Hr Hc Hr' Hc'. unfold get2. case_decide as Heq.
  - destruct Heq as [-> ->]. by erewrite cell2_set2_eq.
  - rewrite cell2_set2_ne; [done|]. intros [= -> ->]. by apply Heq.
Qed.

Lemma Matrix_holds_preserved {Rows Cols} h h' (m : Matrix T Rows Cols) d :
  Matrix_holds h m d → preserved h h' → Matrix_holds h' m d.
Proof. intros [Hm Hd] Hpres. split; [by apply Hpres|done]. Qed.

Lemma Matrix_holds_insert {Rows Cols} h l d :
  shape2 Rows Cols d → Matrix_holds (<[l := d]> h) (@Matrix_object T Rows Cols l) d.
Proof. intros Hd. split; [apply lookup_insert_eq|done]. Qed.

End MoreArrays.

Section MoreArrays3.
Context {T : Type} `{Numeric T}.
Implicit Types (t : list (list (list T))) (h : gmap nat (list (list (list T)))).
Implicit Types (g : nat → nat → nat → T) (v : T).

Lemma array3_tabulate3 Depth Rows Cols t :
  shape3 Depth Rows Cols t → tabulate3 Depth Rows Cols (get3 t) = t.
Proof.
  intros Ht. apply (array3_ext Depth Rows Cols); [apply shape3_tabulate3|done|].
  intros d r c Hd Hr Hc. rewrite cell3_tabulate3 by done.
  symmetry. by eapply cell3_shape.
Qed.

Lemma tabulate3_ext Depth Rows Cols g g' :
  (∀ d r c, d < Depth → r < Rows → c < Cols → g d r c = g' d r c) →
  tabulate3 Depth Rows Cols g = tabulate3 Depth Rows Cols g'.
Proof.
  intros Hg. apply (array3_ext Depth Rows Cols); try apply shape3_tabulate3.
  intros d r c Hd Hr Hc. rewrite !cell3_tabulate3 by done. f_equal. by apply Hg.
Qed.

Lemma get3_set3 Depth Rows Cols t d r c v d' r' c' :
  shape3 Depth Rows Cols t → d < Depth → r < Rows → c < Cols →
  d' < Depth → r' < Rows → c' < Cols →
  get3 (set3 t d r c v) d' r' c'
  = if decide (d' = d ∧ r' = r ∧ c' = c) then v else get3 t d' r' c'.
Proof.
  intros Ht Hd Hr Hc Hd' Hr' Hc'. unfold get3. case_decide as Heq.
  - destruct Heq as (-> & -> & ->). by erewrite cell3_set3_eq.
  - rewrite cell3_set3_ne; [done|]. intros [= -> -> ->]. by apply Heq.
Qed.

Lemma Tensor3D_holds_preserved {Depth Rows Cols} h h'
    (m : Tensor3D T Depth Rows Cols) t :
  Tensor3D_holds h m t → preserved h h' → Tensor3D_holds h' m t.
Proof. intros [Hm Ht] Hpres. split; [by apply Hpres|done]. Qed.

End MoreArrays3.

(** ** Element-wise operators *)

Section Elementwise.
Context {T : Type} `{Numeric T}.
Variable indeterminate : T.

(** X1.  [A + B] and [A - B] return new [Rows x Cols] matrices that hold
    [A(r,c) + B(r,c)] and [A(r,c) - B(r,c)] at every [(r, c)]. *)
Theorem Matrix_add_sub_elementwise {Rows Cols} (A B : Matrix T Rows Cols)
    (h : gmap nat (list (list T))) (dA dB : list (list T)) :
  Matrix_holds h A dA → Matrix_holds h B dB →
  (∃ result h' dR,
     Matrix_add indeterminate A B h = (Ok result, h') ∧
     Matrix_holds h' result dR ∧
     ∀ r c, r < Rows → c < Cols →
       Matrix_at result r c h' = (Ok (T_add (get2 dA r c) (get2 dB r c)), h'))
  ∧
  (∃ result h' dR,
     Matrix_sub indeterminate A B h = (Ok result, h') ∧
     Matrix_holds h' result dR ∧
     ∀ r c, r < Rows → c < Cols →
       Matrix_at result r c h' = (Ok (T_sub (get2 dA r c) (get2 dB r c)), h')).
Proof.
  intros HA HB. split.
  - eexists _, _, _. split; [by eapply Matrix_add_run|].
    split; [apply Matrix_holds_new|].
    intros r c Hr Hc. by rewrite Matrix_at_new.
  - eexists _, _, _. split; [by eapply Matrix_sub_run|].
    split; [apply Matrix_holds_new|].
    intros r c Hr Hc. by rewrite Matrix_at_new.
Qed.

(** X2.  [U + W] and [U - W] return new tensors that hold
    [U(d,r,c) + W(d,r,c)] and [U(d,r,c) - W(d,r,c)] at every [(d, r, c)]. *)
Theorem Tensor3D_add_sub_elementwise {Depth Rows Cols}
    (U W : Tensor3D T Depth Rows Cols)
    (h : gmap nat (list (list (list T)))) (dU dW : list (list (list T))) :
  Tensor3D_holds h U dU → Tensor3D_holds h W dW →
  (∃ result h' dR,
     Tensor3D_add indeterminate U W h = (Ok result, h') ∧
     Tensor3D_holds h' result dR ∧
     ∀ d r c, d < Depth → r < Rows → c < Cols →
       Tensor3D_at result d r c h'
       = (Ok (T_add (get3 dU d r c) (get3 dW d r c)), h'))
  ∧
  (∃ result h' dR,
     Tensor3D_sub indeterminate U W h = (Ok result, h') ∧
     Tensor3D_holds h' result dR ∧
     ∀ d r c, d < Depth → r < Rows → c < Cols →
       Tensor3D_at result d r c h'
       = (Ok (T_sub (get3 dU d r c) (get3 dW d r c)), h')).
Proof.
  intros HU HW. split.
  - eexists _, _, _. split; [by eapply Tensor3D_add_run|].
    split; [apply Tensor3D_holds_new|].
    intros d r c Hd Hr Hc. by rewrite Tensor3D_at_new.
  - eexists _, _, _. split; [by eapply Tensor3D_sub_run|].
    split; [apply Tensor3D_holds_new|].
    intros d r c Hd Hr Hc. by rewrite Tensor3D_at_new.
Qed.

(** X3.  Subtracting a container from itself (receiver and argument are
    the same object) returns a container that holds [T{}] everywhere, as
    soon as [x - x] is [T{}] in [T]. *)
Theorem sub_self_is_zero {Rows Cols Depth Rows3 Cols3}
    (m : Matrix T Rows Cols) (t : Tensor3D T Depth Rows3 Cols3)
    (hm : gmap nat (list (list T))) (ht : gmap nat (list (list (list T))))
    (dm : list (list T)) (dt : list (list (list T))) :
  Matrix_holds hm m dm → Tensor3D_holds ht t dt →
  (∀ x, T_sub x x = T_zero) →
  (∃ result h',
     Matrix_sub indeterminate m m hm = (Ok result, h') ∧
     Matrix_holds h' m dm ∧
     ∀ r c, r < Rows → c < Cols → Matrix_at result r c h' = (Ok T_zero, h'))
  ∧
  (∃ result h',
     Tensor3D_sub indeterminate t t ht = (Ok result, h') ∧
     Tensor3D_holds h' t dt ∧
     ∀ d r c, d < Depth → r < Rows3 → c < Cols3 →
       Tensor3D_at result d r c h' = (Ok T_zero, h')).
Proof.
  intros Hm Ht Hsub. split.
  - eexists _, _. split; [by eapply Matrix_sub_run|].
    split; [eapply Matrix_holds_preserved; [done|apply preserved_new]|].
    intros r c Hr Hc. by rewrite Matrix_at_new, Hsub.
  - eexists _, _. split; [by eapply Tensor3D_sub_run|].
    split; [eapply Tensor3D_holds_preserved; [done|apply preserved_new]|].
    intros d r c Hd Hr Hc. by rewrite Tensor3D_at_new, Hsub.
Qed.

(** X4.  When [+] of [T] is commutative, [A + B] and [B + A] are the same
    run: the same new object with the same elements, in the same store. *)
Theorem add_commutes {Rows Cols Depth Rows3 Cols3}
    (A B : Matrix T Rows Cols) (U W : Tensor3D T Depth Rows3 Cols3)
    (hm : gmap nat (list (list T))) (ht : gmap nat (list (list (list T))))
    (dA dB : list (list T)) (dU dW : list (list (list T))) :
  Matrix_holds hm A dA → Matrix_holds hm B dB →
  Tensor3D_holds ht U dU → Tensor3D_holds ht W dW →
  (∀ x y, T_add x y = T_add y x) →
  Matrix_add indeterminate A B hm = Matrix_add indeterminate B A hm ∧
  Tensor3D_add indeterminate U W ht = Tensor3D_add indeterminate W U ht.
Proof.
  intros HA HB HU HW Hcomm. split.
  - erewrite !Matrix_add_run by done. do 2 f_equal.
    apply tabulate2_ext. intros. apply Hcomm.
  - erewrite !Tensor3D_add_run by done. do 2 f_equal.
    apply tabulate3_ext. intros. apply Hcomm.
Qed.

(** X5.  Operators compose through their results: [(A + B) - B] returns a
    matrix that holds the array of [A], when [(x + y) - y] is [x] in [T];
    [A] and [B] still hold their arrays after the two calls. *)
Theorem add_then_sub {Rows Cols} (A B : Matrix T Rows Cols)
    (h : gmap nat (list (list T))) (dA dB : list (list T)) :
  Matrix_holds h A dA → Matrix_holds h B dB →
  (∀ x y, T_sub (T_add x y) y = x) →
  ∃ sum h1 result h2,
    Matrix_add indeterminate A B h = (Ok sum, h1) ∧
    Matrix_sub indeterminate sum B h1 = (Ok result, h2) ∧
    Matrix_addr result ≠ Matrix_addr A ∧
    Matrix_holds h2 result dA ∧ Matrix_holds h2 A dA ∧ Matrix_holds h2 B dB.
Proof.
  intros HA HB Hlaw.
  set (dS := tabulate2 Rows Cols (λ r c, T_add (get2 dA r c) (get2 dB r c))).
  set (h1 := <[next_loc h := dS]> h).
  assert (preserved h h1) as Hp1 by apply preserved_new.
  assert (preserved h1 (<[next_loc h1 := dA]> h1)) as Hp2 by apply preserved_new.
  eexists _, h1, _, (<[next_loc h1 := dA]> h1).
  split; [by eapply Matrix_add_run|]. split.
  { erewrite Matrix_sub_run;
      [|apply Matrix_holds_new|by eapply Matrix_holds_preserved].
    do 2 f_equal. apply tabulate2_same; [apply HA|].
    intros r c Hr Hc. unfold dS. rewrite get2_tabulate2 by done. apply Hlaw. }
  split.
  { simpl. intros Heq. destruct HA as [HA _].
    apply Hp1 in HA. rewrite <- Heq in HA. by rewrite next_loc_fresh in HA. }
  split; [apply Matrix_holds_insert, HA|].
  split; (eapply Matrix_holds_preserved; [done|by eapply preserved_trans]).
Qed.

End Elementwise.

(** ** Multiplication by the identity matrix *)

Section Identity.
Context {T : Type} `{Numeric T}.
Variable indeterminate : T.
Implicit Types (d : list (list T)) (h : gmap nat (list (list T))).

Lemma get2_identity2 n one i k :
  i < n → k < n →
  get2 (identity2 n one) i k = if decide (i = k) then one else T_zero.
Proof. intros Hi Hk. unfold identity2. by rewrite get2_tabulate2. Qed.

Lemma dot_identity_l n one d i j :
  (∀ x, T_mul one x = x) → (∀ x, T_mul T_zero x = T_zero) →
  (∀ x, T_add x T_zero = x) → (∀ x, T_add T_zero x = x) →
  i < n → dot n (identity2 n one) d i j = get2 d i j.
Proof.
  intros Hone Hzero Hr Hl Hi. unfold dot.
  assert (∀ m, m ≤ n →
    foldl (λ sum k, T_add sum (T_mul (get2 (identity2 n one) i k) (get2 d k j)))
      T_zero (seq 0 m)
    = if decide (i < m) then get2 d i j else T_zero) as Hfold.
  { induction m as [|m IH]; intros Hm; [done|].
    rewrite seq_S, foldl_app, IH by lia. simpl.
    rewrite get2_identity2 by lia.
    destruct (decide (i = m)) as [->|Hne].
    - rewrite decide_False, decide_True by lia. by rewrite Hone, Hl.
    - rewrite Hzero, Hr. repeat case_decide; (done || lia). }
  rewrite Hfold by done. by rewrite decide_True.
Qed.

Lemma dot_identity_r n one d i j :
  (∀ x, T_mul x one = x) → (∀ x, T_mul x T_zero = T_zero) →
  (∀ x, T_add x T_zero = x) → (∀ x, T_add T_zero x = x) →
  j < n → dot n d (identity2 n one) i j = get2 d i j.
Proof.
  intros Hone Hzero Hr Hl Hj. unfold dot.
  assert (∀ m, m ≤ n →
    foldl (λ sum k, T_add sum (T_mul (get2 d i k) (get2 (identity2 n one) k j)))
      T_zero (seq 0 m)
    = if decide (j < m) then get2 d i j else T_zero) as Hfold.
  { induction m as [|m IH]; intros Hm; [done|].
    rewrite seq_S, foldl_app, IH by lia. simpl.
    rewrite get2_identity2 by lia.
    destruct (decide (m = j)) as [->|Hne].
    - rewrite decide_False, decide_True by lia. by rewrite Hone, Hl.
    - rewrite Hzero, Hr. repeat case_decide; (done || lia). }
  rewrite Hfold by done. by rewrite decide_True.
Qed.

(** X6.  The identity matrix is neutral for [operator*]: when [one] and
    [T{}] behave as 1 and 0 in [T], [Id * B] returns a matrix that holds the
    array of [B], and [A * Id] one that holds the array of [A]. *)
Theorem Matrix_mul_identity {Rows n Cols}
    (Id : Matrix T n n) (A : Matrix T Rows n) (B : Matrix T n Cols)
    (h : gmap nat (list (list T))) (one : T) (dA dB : list (list T)) :
  Matrix_holds h Id (identity2 n one) →
  Matrix_holds h A dA → Matrix_holds h B dB →
  (∀ x, T_mul one x = x) → (∀ x, T_mul x one = x) →
  (∀ x, T_mul T_zero x = T_zero) → (∀ x, T_mul x T_zero = T_zero) →
  (∀ x, T_add x T_zero = x) → (∀ x, T_add T_zero x = x) →
  (∃ result h', Matrix_mul indeterminate Id B h = (Ok result, h') ∧
     Matrix_holds h' result dB)
  ∧
  (∃ result h', Matrix_mul indeterminate A Id h = (Ok result, h') ∧
     Matrix_holds h' result dA).
Proof.
  intros HId HA HB H1l H1r H0l H0r Hr Hl. split.
  - eexists _, _. split; [by eapply Matrix_mul_run|].
    erewrite (tabulate2_same _ _ dB); [apply Matrix_holds_insert|..]; try apply HB.
    intros r c Hr' Hc'. by apply dot_identity_l.
  - eexists _, _. split; [by eapply Matrix_mul_run|].
    erewrite (tabulate2_same _ _ dA); [apply Matrix_holds_insert|..]; try apply HA.
    intros r c Hr' Hc'. by apply dot_identity_r.
Qed.

End Identity.

(** ** Assignment through [operator()] *)

Section Assignment.
Context {T : Type} `{Numeric T}.
Variable indeterminate : T.

Lemma Matrix_assign_holds {Rows Cols} (m : Matrix T Rows Cols)
    (h : gmap nat (list (list T))) d r c v :
  Matrix_holds h m d → r < Rows → c < Cols →
  (p <- Matrix_ref m r c ;; assign2 p v) h
  = (Ok tt, <[Matrix_addr m := set2 d r c v]> h).
Proof.
  intros [Hm Hd] Hr Hc. run_with @Matrix_ref_run. unfold assign2. simpl.
  by eapply store2_run.
Qed.

Lemma Tensor3D_assign_holds {Depth Rows Cols} (m : Tensor3D T Depth Rows Cols)
    (h : gmap nat (list (list (list T)))) t d r c v :
  Tensor3D_holds h m t → d < Depth → r < Rows → c < Cols →
  (p <- Tensor3D_ref m d r c ;; assign3 p v) h
  = (Ok tt, <[Tensor3D_addr m := set3 t d r c v]> h).
Proof.
  intros [Hm Ht] Hd Hr Hc. run_with @Tensor3D_ref_run. unfold assign3. simpl.
  by eapply store3_run.
Qed.

(** X7.  An assignment [m(r, c) = v] with the indices in bounds changes the
    element [(r, c)] of [m] and nothing else: every other element of [m]
    and every other object of the store is as before.  The same holds for
    [t(d, r, c) = v]. *)
Theorem assignment_changes_one_element {Rows Cols Depth Rows3 Cols3}
    (m : Matrix T Rows Cols) (t : Tensor3D T Depth Rows3 Cols3)
    (hm : gmap nat (list (list T))) (ht : gmap nat (list (list (list T))))
    (dm : list (list T)) (dt : list (list (list T)))
    (r c d3 r3 c3 : nat) (v : T) :
  Matrix_holds hm m dm → Tensor3D_holds ht t dt →
  r < Rows → c < Cols → d3 < Depth → r3 < Rows3 → c3 < Cols3 →
  (∃ h', (p <- Matrix_ref m r c ;; assign2 p v) hm = (Ok tt, h') ∧
     (∀ l, l ≠ Matrix_addr m → h' !! l = hm !! l) ∧
     ∀ r' c', r' < Rows → c' < Cols →
       Matrix_at m r' c' h'
       = (Ok (if decide (r' = r ∧ c' = c) then v else get2 dm r' c'), h'))
  ∧
  (∃ h', (p <- Tensor3D_ref t d3 r3 c3 ;; assign3 p v) ht = (Ok tt, h') ∧
     (∀ l, l ≠ Tensor3D_addr t → h' !! l = ht !! l) ∧
     ∀ d' r' c', d' < Depth → r' < Rows3 → c' < Cols3 →
       Tensor3D_at t d' r' c' h'
       = (Ok (if decide (d' = d3 ∧ r' = r3 ∧ c' = c3) then v
              else get3 dt d' r' c'), h')).
Proof.
  intros Hm Ht Hr Hc Hd3 Hr3 Hc3. split.
  - eexists. split; [by eapply Matrix_assign_holds|].
    split; [intros l Hl; by rewrite lookup_insert_ne|].
    intros r' c' Hr' Hc'.
    erewrite Matrix_at_run;
      [|apply lookup_insert_eq|apply shape2_set2, Hm|done..].
    by erewrite get2_set2 by (done || apply Hm).
  - eexists. split; [by eapply Tensor3D_assign_holds|].
    split; [intros l Hl; by rewrite lookup_insert_ne|].
    intros d' r' c' Hd' Hr' Hc'.
    erewrite Tensor3D_at_run;
      [|apply lookup_insert_eq|apply shape3_set3, Ht|done..].
    by erewrite get3_set3 by (done || apply Ht).
Qed.

(** X8.  The result of an operator shares no storage with its operands:
    after [A + B], assigning to an element of the result leaves [A] and [B]
    with their arrays, and assigning to an element of [A] leaves the result
    with the sums. *)
Theorem result_is_independent {Rows Cols} (A B : Matrix T Rows Cols)
    (h : gmap nat (list (list T))) (dA dB : list (list T))
    (i j : nat) (v : T) :
  Matrix_holds h A dA → Matrix_holds h B dB → i < Rows → j < Cols →
  ∃ result h1 dR,
    Matrix_add indeterminate A B h = (Ok result, h1) ∧
    Matrix_holds h1 result dR ∧
    (∃ h2, (p <- Matrix_ref result i j ;; assign2 p v) h1 = (Ok tt, h2) ∧
       Matrix_at result i j h2 = (Ok v, h2) ∧
       Matrix_holds h2 A dA ∧ Matrix_holds h2 B dB) ∧
    (∃ h2, (p <- Matrix_ref A i j ;; assign2 p v) h1 = (Ok tt, h2) ∧
       Matrix_at A i j h2 = (Ok v, h2) ∧
       Matrix_holds h2 result dR).
Proof.
  intros HA HB Hi Hj.
  set (dR := tabulate2 Rows Cols (λ r c, T_add (get2 dA r c) (get2 dB r c))).
  assert (Matrix_addr A ≠ next_loc h) as HneA.
  { intros Heq. destruct HA as [HA _]. by rewrite Heq, next_loc_fresh in HA. }
  assert (Matrix_addr B ≠ next_loc h) as HneB.
  { intros Heq. destruct HB as [HB _]. by rewrite Heq, next_loc_fresh in HB. }
  exists (Matrix_object (next_loc h)), (<[next_loc h := dR]> h), dR.
  split; [by eapply Matrix_add_run|].
  split; [apply Matrix_holds_new|]. split.
  - eexists. split; [eapply Matrix_assign_holds; [apply Matrix_holds_new|done..]|].
    simpl. split.
    + erewrite Matrix_at_run;
        [|apply lookup_insert_eq|apply shape2_set2, shape2_tabulate2|done..].
      erewrite get2_set2 by (done || apply shape2_tabulate2).
      by rewrite decide_True.
    + split; (split; [|apply HA || apply HB]);
        rewrite !lookup_insert_ne by done; apply HA || apply HB.
  - assert (Matrix_holds (<[next_loc h := dR]> h) A dA) as HA1.
    { eapply Matrix_holds_preserved; [done|apply preserved_new]. }
    eexists. split; [by eapply Matrix_assign_holds|]. split.
    + erewrite Matrix_at_run;
        [|apply lookup_insert_eq|apply shape2_set2, HA|done..].
      erewrite get2_set2 by (done || apply HA). by rewrite decide_True.
    + split; [|apply shape2_tabulate2]. simpl.
      rewrite lookup_insert_ne by done. apply lookup_insert_eq.
Qed.

(** X9.  Scalar multiplications of a tensor compose: when [*] of [T] is
    associative, [(t * k1) * k2] and [t * (k1 * k2)] return tensors that
    hold the same array. *)
Theorem scalar_mul_composes {Depth Rows Cols} (t : Tensor3D T Depth Rows Cols)
    (h : gmap nat (list (list (list T)))) (dt : list (list (list T)))
    (k1 k2 : T) :
  Tensor3D_holds h t dt →
  (∀ x y z, T_mul (T_mul x y) z = T_mul x (T_mul y z)) →
  ∃ once h1 twice h2 direct h3 dR,
    Tensor3D_mul indeterminate t k1 h = (Ok once, h1) ∧
    Tensor3D_mul indeterminate once k2 h1 = (Ok twice, h2) ∧
    Tensor3D_mul indeterminate t (T_mul k1 k2) h = (Ok direct, h3) ∧
    Tensor3D_holds h2 twice dR ∧ Tensor3D_holds h3 direct dR.
Proof.
  intros Ht Hassoc.
  assert (tabulate3 Depth Rows Cols (λ d r c,
            T_mul (get3 (tabulate3 Depth Rows Cols
                           (λ d r c, T_mul (get3 dt d r c) k1)) d r c) k2)
          = tabulate3 Depth Rows Cols (λ d r c, T_mul (get3 dt d r c) (T_mul k1 k2)))
    as Heq.
  { apply tabulate3_ext. intros d r c Hd Hr Hc.
    rewrite get3_tabulate3 by done. apply Hassoc. }
  eexists _, _, _, _, _, _, _.
  split; [by eapply Tensor3D_mul_run|].
  split; [eapply Tensor3D_mul_run, Tensor3D_holds_new|].
  split; [by eapply Tensor3D_mul_run|].
  rewrite Heq. split; apply Tensor3D_holds_new.
Qed.

End Assignment.

(** ** [populate] and the flattened array *)

Lemma concat_blocks {X} (F : nat → X) (R C : nat) :
  concat ((λ r, (λ c, F (r * C + c)) <$> seq 0 C) <$> seq 0 R) = F <$> seq 0 (R * C).
Proof.
  induction R as [|R IH]; [done|].
  rewrite seq_S, fmap_app, concat_app, IH. simpl. rewrite app_nil_r.
  replace (C + R * C) with (R * C + C) by lia.
  rewrite seq_app, fmap_app. f_equal. simpl.
  replace (seq (R * C) C) with (Nat.add (R * C) <$> seq 0 C)
    by (rewrite fmap_add_seq; f_equal; lia).
  by rewrite <- list_fmap_compose.
Qed.

Lemma fmap_lookup_seq {X} (x : X) (l : list X) :
  (λ k, default x (l !! k)) <$> seq 0 (length l) = l.
Proof.
  apply list_eq. intros k. rewrite list_lookup_fmap.
  destruct (decide (k < length l)) as [Hk|Hk].
  - rewrite lookup_seq_lt by done. simpl.
    destruct (lookup_lt_is_Some_2 l k Hk) as [y ->]. done.
  - rewrite lookup_seq_ge, lookup_ge_None_2 by lia. done.
Qed.

Section Flatten.
Context {T : Type} `{Numeric T}.

Lemma concat_row_major Rows Cols (values : list T) :
  length values = Rows * Cols →
  concat (tabulate2 Rows Cols (row_major Cols values)) = values.
Proof.
  intros Hlen. unfold tabulate2, row_major.
  rewrite (concat_blocks (λ k, default T_zero (values !! k))), <- Hlen.
  apply fmap_lookup_seq.
Qed.

Lemma concat_depth_major Depth Rows Cols (values : list T) :
  length values = Depth * Rows * Cols →
  concat (concat (tabulate3 Depth Rows Cols (depth_major Rows Cols values)))
  = values.
Proof.
  intros Hlen. unfold tabulate3, tabulate2, depth_major.
  rewrite (concat_blocks
    (λ q, (λ c, default T_zero (values !! (q * Cols + c))) <$> seq 0 Cols)).
  rewrite (concat_blocks (λ k, default T_zero (values !! k))), <- Hlen.
  apply fmap_lookup_seq.
Qed.

(** X10.  [populate] overwrites the whole object and nothing else: the
    elements read back in row-major order (for a tensor: depth, then row,
    then column) are exactly the converted arguments, whatever the object
    held before, and every other object of the store is as before. *)
Theorem populate_round_trip {Rows Cols Depth Rows3 Cols3}
    (m : Matrix T Rows Cols) (t : Tensor3D T Depth Rows3 Cols3)
    (hm : gmap nat (list (list T))) (ht : gmap nat (list (list (list T))))
    (dm : list (list T)) (dt : list (list (list T)))
    (args2 args3 : list arg) (values2 values3 : list T)
    (Hlen2 : length args2 = Rows * Cols)
    (Hlen3 : length args3 = Depth * Rows3 * Cols3) :
  Matrix_holds hm m dm → Tensor3D_holds ht t dt →
  mapM static_cast args2 = Some values2 →
  mapM static_cast args3 = Some values3 →
  (∃ h' d', Matrix_populate m args2 Hlen2 hm = (Ok tt, h') ∧
     Matrix_holds h' m d' ∧ concat d' = values2 ∧
     ∀ l, l ≠ Matrix_addr m → h' !! l = hm !! l)
  ∧
  (∃ h' t', Tensor3D_populate t args3 Hlen3 ht = (Ok tt, h') ∧
     Tensor3D_holds h' t t' ∧ concat (concat t') = values3 ∧
     ∀ l, l ≠ Tensor3D_addr t → h' !! l = ht !! l).
Proof.
  intros Hm Ht Hv2 Hv3. split.
  - eexists _, _. split; [by eapply Matrix_populate_run|].
    split; [split; [apply lookup_insert_eq|apply shape2_tabulate2]|].
    split; [|intros l Hl; by rewrite lookup_insert_ne].
    apply concat_row_major. rewrite <- Hlen2. symmetry. by eapply length_mapM.
  - eexists _, _. split; [by eapply Tensor3D_populate_run|].
    split; [split; [apply lookup_insert_eq|apply shape3_tabulate3]|].
    split; [|intros l Hl; by rewrite lookup_insert_ne].
    apply concat_depth_major. rewrite <- Hlen3. symmetry. by eapply length_mapM.
Qed.

End Flatten.

(** ** Division of [double]s by NaN and by zero *)

Lemma zero_divisor_nan : zero_divisor (S754_nan : double) = false.
Proof. reflexivity. Qed.

Lemma zero_divisor_zero (s : bool) : zero_divisor (S754_zero s : double) = true.
Proof. by destruct s; vm_compute. Qed.

Lemma double_div_nan (x : double) : quotient x (S754_nan : double) = S754_nan.
Proof. by destruct x. Qed.

(** X11.  For [double] the divisor test of [operator/] lets NaN through
    (no comparison with NaN holds): the call returns, and the result holds
    NaN at every position.  A zero of either sign is rejected. *)
Theorem div_by_nan_or_zero {Rows Cols Depth Rows3 Cols3}
    (indeterminate : double)
    (m : Matrix double Rows Cols) (t : Tensor3D double Depth Rows3 Cols3)
    (hm : gmap nat (list (list double))) (ht : gmap nat (list (list (list double))))
    (dm : list (list double)) (dt : list (list (list double))) (sign : bool) :
  Matrix_holds hm m dm → Tensor3D_holds ht t dt →
  (∃ result h',
     Matrix_div indeterminate m S754_nan hm = (Ok result, h') ∧
     ∀ r c, r < Rows → c < Cols → Matrix_at result r c h' = (Ok S754_nan, h'))
  ∧
  Matrix_div indeterminate m (S754_zero sign) hm
  = (Throw (runtime_error "Matrix division by zero or near-zero scalar"), hm)
  ∧
  (∃ result h',
     Tensor3D_div indeterminate t S754_nan ht = (Ok result, h') ∧
     ∀ d r c, d < Depth → r < Rows3 → c < Cols3 →
       Tensor3D_at result d r c h' = (Ok S754_nan, h'))
  ∧
  Tensor3D_div indeterminate t (S754_zero sign) ht
  = (Throw (runtime_error "Tensor3D division by zero or near-zero scalar"), ht).
Proof.
  intros Hm Ht. split; [|split; [|split]].
  - eexists _, _.
    split; [eapply Matrix_div_run;
              [apply zero_divisor_nan|done|apply defined_quotients2_double]|].
    intros r c Hr Hc. rewrite Matrix_at_new by done. by rewrite double_div_nan.
  - by rewrite Matrix_div_throw by apply zero_divisor_zero.
  - eexists _, _.
    split; [eapply Tensor3D_div_run;
              [apply zero_divisor_nan|done|apply defined_quotients3_double]|].
    intros d r c Hd Hr Hc. rewrite Tensor3D_at_new by done.
    by rewrite double_div_nan.
  - by rewrite Tensor3D_div_throw by apply zero_divisor_zero.
Qed.

(** ** The text that the inserters write *)

Lemma string_app_assoc (s1 s2 s3 : string) :
  ((s1 ++ s2) ++ s3 = s1 ++ (s2 ++ s3))%string.
Proof.
  induction s1 as [|a s1 IH]; [reflexivity|].
  change (String a ((s1 ++ s2) ++ s3) = String a (s1 ++ (s2 ++ s3)))%string.
  by f_equal.
Qed.

Lemma string_app_nil_r (s : string) : (s ++ EmptyString = s)%string.
Proof.
  induction s as [|a s IH]; [reflexivity|].
  change (String a (s ++ EmptyString) = String a s)%string. by f_equal.
Qed.

Lemma joined_snoc (l : list string) (s : string) :
  joined (l ++ [s]) = (joined l ++ s)%string.
Proof.
  induction l as [|x l IH].
  - change (s ++ EmptyString = s)%string. apply string_app_nil_r.
  - change (x ++ joined (l ++ [s]) = (x ++ joined l) ++ s)%string.
    rewrite IH. symmetry. apply string_app_assoc.
Qed.

(** The test [c == Cols - 1] of the inserters, for a [size_t] bound. *)
Lemma separator_code (Cols c : nat) :
  (Z.of_nat Cols < 2 ^ 64)%Z → c < Cols →
  (if (Z.of_nat c =? size_sub Cols 1)%Z then EmptyString else ", "%string)
  = separator Cols c.
Proof.
  intros HCols Hc. unfold size_sub, separator.
  rewrite Z.mod_small by lia.
  destruct (Z.eqb_spec (Z.of_nat c) (Z.of_nat Cols - Z.of_nat 1));
    case_decide; (done || lia).
Qed.

(** The test [d < Depth - 1]. *)
Lemma last_slice_code (Depth d : nat) :
  (Z.of_nat Depth < 2 ^ 64)%Z → d < Depth →
  (Z.of_nat d <? size_sub Depth 1)%Z = bool_decide (S d < Depth).
Proof.
  intros HDepth Hd. unfold size_sub. rewrite Z.mod_small by lia.
  destruct (Z.ltb_spec (Z.of_nat d) (Z.of_nat Depth - Z.of_nat 1));
    case_bool_decide; (done || lia).
Qed.

Section InserterText.
Context {T : Type} `{Numeric T}.
Variable lib : iostreams T.

(** A loop whose iteration [j] appends [piece j] to the stream and leaves
    the store and the formatting state as they are. *)
Lemma for__text {V} (h : gmap nat V) (F : ios) (piece : nat → string)
    (body : nat → M (gmap nat V * ostream) unit) (n : nat) (base : string) :
  (∀ j text, j < n →
     body j (h, {| fmt := F; written := text |})
     = (Ok tt, (h, {| fmt := F; written := (text ++ piece j)%string |}))) →
  for_ n body (h, {| fmt := F; written := base |})
  = (Ok tt, (h, {| fmt := F;
                   written := (base ++ joined (piece <$> seq 0 n))%string |})).
Proof.
  intros Hbody.
  destruct (for_loop_inv
    (λ j (_ : unit) σ,
       σ = (h, {| fmt := F;
                  written := (base ++ joined (piece <$> seq 0 j))%string |}))
    (λ i _, body i) n tt (h, {| fmt := F; written := base |}))
    as ([] & σ & Hrun & ->).
  - simpl. by rewrite string_app_nil_r.
  - intros j [] σ Hj ->. eexists tt, _. split; [by apply Hbody|].
    rewrite seq_S, fmap_app. change (piece <$> [0 + j]) with [piece j].
    by rewrite joined_snoc, string_app_assoc.
  - done.
Qed.

(** The rows of one matrix (or of one slice of a tensor). *)
Lemma rows_loop {V} (h : gmap nat V) (f : ios) (bracket : string)
    (Rows Cols : nat) (at_ : nat → nat → M (gmap nat V) T)
    (elem : nat → nat → T) (base : string) :
  (Z.of_nat Cols < 2 ^ 64)%Z →
  (∀ r c, r < Rows → c < Cols → at_ r c h = (Ok (elem r c), h)) →
  for_ Rows (λ r,
    put_string lib bracket ;;
    for_ Cols (λ c,
      setw 8 ;;
      v <- in_store (at_ r c) ;;
      put_T lib v ;;
      put_string lib (if (Z.of_nat c =? size_sub Cols 1)%Z
                      then EmptyString else ", "%string)) ;;
    put_string lib (" ]" ++ newline))
    (h, {| fmt := fixed2 f; written := base |})
  = (Ok tt, (h, {| fmt := fixed2 f;
                   written := (base ++ rows_text lib bracket (fixed2 f)
                                         Rows Cols elem)%string |})).
Proof.
  intros HCols Hat. unfold rows_text.
  apply for__text. intros r text Hr.
  unfold bind at 1. simpl. unfold bind at 1.
  erewrite (for__text h (fixed2 f)
    (λ c, show_T lib (set_width 8 (fixed2 f)) (elem r c)
          ++ show_string lib (fixed2 f) (separator Cols c))%string).
  - unfold put_string, insert, row_text. simpl.
    by rewrite !string_app_assoc.
  - intros c text' Hc. rewrite separator_code by done.
    unfold bind at 1. simpl. unfold bind at 1, in_store at 1. simpl.
    rewrite (Hat r c Hr Hc). unfold bind, put_T, put_string, insert. simpl.
    by rewrite string_app_assoc.
Qed.

End InserterText.

Section PrintedText.
Context {T : Type} `{Numeric T}.
Variable lib : iostreams T.

(** X12. [os << matrix] never fails, leaves the store alone and appends
    to the stream exactly the header line [Matrix (RxC):] and one
    bracketed line per row, each element rendered in fixed notation with
    precision 2 in a field of width 8, the elements of a row separated by
    a comma. *)
Theorem Matrix_print_text {Rows Cols} (m : Matrix T Rows Cols)
    (h : gmap nat (list (list T))) d (os : ostream) :
  (Z.of_nat Cols < 2 ^ 64)%Z →
  Matrix_holds h m d →
  Matrix_print lib m (h, os)
  = (Ok tt, (h, {| fmt := ios_init (global_locale lib);
                   written := (written os
                               ++ Matrix_text lib (fmt os) Rows Cols (get2 d))%string |})).
Proof.
  intros HCols Hm. unfold Matrix_print. destruct os as [f0 text0].
  do 7 (unfold bind at 1; simpl). unfold bind at 1.
  match goal with |- context [for_ Rows ?body (h, {| fmt := _; written := ?W |})] =>
    pose proof (rows_loop lib h f0 "[" Rows Cols (Matrix_at m) (get2 d) W HCols
                  (λ r c, Matrix_at_holds m h d r c Hm)) as Hrows;
    match type of Hrows with ?L = _ =>
      change (for_ Rows body (h, {| fmt := _; written := W |})) with L
    end
  end.
  rewrite Hrows. unfold Matrix_text, copyfmt_ios_nullptr, on_fmt. simpl.
  by rewrite !string_app_assoc.
Qed.

(** X13. [os << tensor] never fails, leaves the store alone and appends
    the header line [Tensor3D (DxRxC):] and then, for each depth slice in
    order, its label [Depth Slice [d]:], one bracketed and indented line
    per row, and an empty line after every slice but the last.  The
    stream is left with fixed notation undone but with precision 2. *)
Theorem Tensor3D_print_text {Depth Rows Cols} (t : Tensor3D T Depth Rows Cols)
    (h : gmap nat (list (list (list T)))) dt (os : ostream) :
  (Z.of_nat Depth < 2 ^ 64)%Z → (Z.of_nat Cols < 2 ^ 64)%Z →
  Tensor3D_holds h t dt →
  Tensor3D_print lib t (h, os)
  = (Ok tt, (h, {| fmt := after_Tensor3D_print (fmt os);
                   written := (written os
                               ++ Tensor3D_text lib (fmt os) Depth Rows Cols
                                    (get3 dt))%string |})).
Proof.
  intros HDepth HCols Ht. unfold Tensor3D_print. destruct os as [f0 text0].
  do 10 (unfold bind at 1; simpl). unfold bind at 1.
  match goal with |- context [for_ Depth ?body (h, {| fmt := _; written := ?W |})] =>
    pose proof (for__text h (fixed2 f0)
      (λ d, slice_text lib (fixed2 f0) Depth Rows Cols d (get3 dt d))
      body Depth W) as Hslices;
    match type of Hslices with _ → ?L = _ =>
      change (for_ Depth body (h, {| fmt := _; written := W |})) with L
    end
  end.
  rewrite Hslices.
  - unfold Tensor3D_text, put_flags, on_fmt. simpl.
    by rewrite !string_app_assoc.
  - clear Hslices. intros d text Hd.
    do 3 (unfold bind at 1; simpl). unfold bind at 1.
    match goal with |- context [for_ Rows ?body (h, {| fmt := _; written := ?W |})] =>
      pose proof (rows_loop lib h f0 "  [" Rows Cols (Tensor3D_at t d) (get3 dt d)
                    W HCols (λ r c, Tensor3D_at_holds t h dt d r c Ht Hd)) as Hrows;
      match type of Hrows with ?L = _ =>
        change (for_ Rows body (h, {| fmt := _; written := W |})) with L
      end
    end.
    rewrite Hrows, last_slice_code by done.
    unfold slice_text, put_string, insert, ret.
    case_bool_decide; case_decide; try done; simpl.
    + by rewrite !string_app_assoc.
    + by rewrite !string_app_assoc, string_app_nil_r.
Qed.

End PrintedText.

(** ** [operator*] in a ring of elements *)

Section Sums.
Context {T : Type} `{Numeric T}.
Variable indeterminate : T.
Implicit Types (f g : nat → T).

Hypothesis add_assoc : ∀ x y z : T, T_add (T_add x y) z = T_add x (T_add y z).
Hypothesis add_comm : ∀ x y : T, T_add x y = T_add y x.
Hypothesis add_zero : ∀ x : T, T_add x T_zero = x.
Hypothesis mul_zero_l : ∀ x : T, T_mul T_zero x = T_zero.
Hypothesis mul_zero_r : ∀ x : T, T_mul x T_zero = T_zero.
Hypothesis mul_add_l : ∀ x y z : T, T_mul x (T_add y z) = T_add (T_mul x y) (T_mul x z).
Hypothesis mul_add_r : ∀ x y z : T, T_mul (T_add x y) z = T_add (T_mul x z) (T_mul y z).
Hypothesis mul_assoc : ∀ x y z : T, T_mul (T_mul x y) z = T_mul x (T_mul y z).

Lemma sum_upto_S n f : sum_upto (S n) f = T_add (sum_upto n f) (f n).
Proof. unfold sum_upto. by rewrite seq_S, foldl_app. Qed.

Lemma sum_upto_ext n f g :
  (∀ k, k < n → f k = g k) → sum_upto n f = sum_upto n g.
Proof.
  induction n as [|n IH]; intros Hfg; [done|].
  rewrite !sum_upto_S, IH, Hfg by (intros; apply Hfg || idtac; lia). done.
Qed.

Lemma dot_sum_upto n (d d' : list (list T)) i j :
  dot n d d' i j = sum_upto n (λ k, T_mul (get2 d i k) (get2 d' k j)).
Proof. reflexivity. Qed.

Lemma sum_upto_zero n : sum_upto n (λ _, T_zero) = T_zero.
Proof.
  induction n as [|n IH]; [done|]. by rewrite sum_upto_S, IH, add_zero.
Qed.

Lemma add_interchange (a b c d : T) :
  T_add (T_add a b) (T_add c d) = T_add (T_add a c) (T_add b d).
Proof.
  rewrite !add_assoc. f_equal. rewrite <- !add_assoc. f_equal. apply add_comm.
Qed.

Lemma sum_upto_add n f g :
  sum_upto n (λ k, T_add (f k) (g k)) = T_add (sum_upto n f) (sum_upto n g).
Proof.
  induction n as [|n IH]; [by rewrite add_zero|].
  rewrite !sum_upto_S, IH. apply add_interchange.
Qed.

Lemma sum_upto_mul_l x n f :
  T_mul x (sum_upto n f) = sum_upto n (λ k, T_mul x (f k)).
Proof.
  induction n as [|n IH]; [apply mul_zero_r|].
  by rewrite !sum_upto_S, mul_add_l, IH.
Qed.

Lemma sum_upto_mul_r x n f :
  T_mul (sum_upto n f) x = sum_upto n (λ k, T_mul (f k) x).
Proof.
  induction n as [|n IH]; [apply mul_zero_l|].
  by rewrite !sum_upto_S, mul_add_r, IH.
Qed.

Lemma sum_upto_swap m n (F : nat → nat → T) :
  sum_upto m (λ k, sum_upto n (λ l, F k l))
  = sum_upto n (λ l, sum_upto m (λ k, F k l)).
Proof.
  induction m as [|m IH]; [symmetry; apply sum_upto_zero|].
  rewrite sum_upto_S, IH, <- sum_upto_add.
  apply sum_upto_ext. intros l _. by rewrite sum_upto_S.
Qed.

Lemma dot_add_r n Cols (dA dB dC : list (list T)) i j :
  j < Cols →
  dot n dA (tabulate2 n Cols (λ r c, T_add (get2 dB r c) (get2 dC r c))) i j
  = T_add (dot n dA dB i j) (dot n dA dC i j).
Proof.
  intros Hj. rewrite !dot_sum_upto, <- sum_upto_add.
  apply sum_upto_ext. intros k Hk. by rewrite get2_tabulate2, mul_add_l.
Qed.

Lemma dot_assoc Rows n p Cols (dA dB dC : list (list T)) i j :
  i < Rows → j < Cols →
  dot p (tabulate2 Rows p (dot n dA dB)) dC i j
  = dot n dA (tabulate2 n Cols (dot p dB dC)) i j.
Proof.
  intros Hi Hj. rewrite !dot_sum_upto.
  rewrite (sum_upto_ext p _
    (λ k, sum_upto n (λ l, T_mul (get2 dA i l)
                             (T_mul (get2 dB l k) (get2 dC k j))))).
  - rewrite sum_upto_swap. apply sum_upto_ext. intros l Hl.
    by rewrite get2_tabulate2, dot_sum_upto, sum_upto_mul_l.
  - intros k Hk. rewrite get2_tabulate2, dot_sum_upto, sum_upto_mul_r by done.
    apply sum_upto_ext. intros l _. apply mul_assoc.
Qed.

Ltac still_holds :=
  eapply Matrix_holds_preserved; [eassumption || apply Matrix_holds_new|];
  repeat (apply preserved_new || (eapply preserved_trans; [apply preserved_new|])).

(** X14.  [operator*] distributes over [operator+] when the elements form
    a ring: computed one after the other, [A * (B + C)] and
    [A * B + A * C] are two objects that hold the same array. *)
Theorem Matrix_mul_distributes {Rows n Cols}
    (A : Matrix T Rows n) (B C : Matrix T n Cols)
    (h : gmap nat (list (list T))) (dA dB dC : list (list T)) :
  Matrix_holds h A dA → Matrix_holds h B dB → Matrix_holds h C dC →
  ∃ sum h1 left h2 ab h3 ac h4 right h5 dR,
    Matrix_add indeterminate B C h = (Ok sum, h1) ∧
    Matrix_mul indeterminate A sum h1 = (Ok left, h2) ∧
    Matrix_mul indeterminate A B h2 = (Ok ab, h3) ∧
    Matrix_mul indeterminate A C h3 = (Ok ac, h4) ∧
    Matrix_add indeterminate ab ac h4 = (Ok right, h5) ∧
    Matrix_addr left ≠ Matrix_addr right ∧
    Matrix_holds h5 left dR ∧ Matrix_holds h5 right dR.
Proof.
  intros HA HB HC.
  set (dS := tabulate2 n Cols (λ r c, T_add (get2 dB r c) (get2 dC r c))).
  set (h1 := <[next_loc h := dS]> h).
  set (dL := tabulate2 Rows Cols (dot n dA dS)).
  set (h2 := <[next_loc h1 := dL]> h1).
  set (dAB := tabulate2 Rows Cols (dot n dA dB)).
  set (h3 := <[next_loc h2 := dAB]> h2).
  set (dAC := tabulate2 Rows Cols (dot n dA dC)).
  set (h4 := <[next_loc h3 := dAC]> h3).
  set (dR := tabulate2 Rows Cols (λ r c, T_add (get2 dAB r c) (get2 dAC r c))).
  set (h5 := <[next_loc h4 := dR]> h4).
  assert (dL = dR) as Heq.
  { apply tabulate2_ext. intros r c Hr Hc. unfold dAB, dAC.
    rewrite !get2_tabulate2 by done. by eapply dot_add_r. }
  assert (Matrix_holds h4 (@Matrix_object T Rows Cols (next_loc h1)) dL) as HL
    by (unfold h4, h3, h2; still_holds).
  exists (Matrix_object (next_loc h)), h1, (Matrix_object (next_loc h1)), h2,
    (Matrix_object (next_loc h2)), h3, (Matrix_object (next_loc h3)), h4,
    (Matrix_object (next_loc h4)), h5, dR.
  split; [by eapply Matrix_add_run|].
  split; [eapply Matrix_mul_run; [unfold h1; still_holds|apply Matrix_holds_new]|].
  split; [eapply Matrix_mul_run; unfold h2, h1; still_holds|].
  split; [eapply Matrix_mul_run; unfold h3, h2, h1; still_holds|].
  split; [eapply Matrix_add_run; unfold h4; [still_holds|apply Matrix_holds_new]|].
  split; [|split; [rewrite <- Heq; still_holds|apply Matrix_holds_new]].
  simpl. intros Hsame. destruct HL as [HL _]. simpl in HL.
  by rewrite Hsame, next_loc_fresh in HL.
Qed.

(** X15.  [operator*] is associative when the elements form a ring:
    computed one after the other, [(A * B) * C] and [A * (B * C)] are two
    objects that hold the same array. *)
Theorem Matrix_mul_associates {Rows n p Cols}
    (A : Matrix T Rows n) (B : Matrix T n p) (C : Matrix T p Cols)
    (h : gmap nat (list (list T))) (dA dB dC : list (list T)) :
  Matrix_holds h A dA → Matrix_holds h B dB → Matrix_holds h C dC →
  ∃ ab h1 left h2 bc h3 right h4 dR,
    Matrix_mul indeterminate A B h = (Ok ab, h1) ∧
    Matrix_mul indeterminate ab C h1 = (Ok left, h2) ∧
    Matrix_mul indeterminate B C h2 = (Ok bc, h3) ∧
    Matrix_mul indeterminate A bc h3 = (Ok right, h4) ∧
    Matrix_addr left ≠ Matrix_addr right ∧
    Matrix_holds h4 left dR ∧ Matrix_holds h4 right dR.
Proof.
  intros HA HB HC.
  set (dAB := tabulate2 Rows p (dot n dA dB)).
  set (h1 := <[next_loc h := dAB]> h).
  set (dL := tabulate2 Rows Cols (dot p dAB dC)).
  set (h2 := <[next_loc h1 := dL]> h1).
  set (dBC := tabulate2 n Cols (dot p dB dC)).
  set (h3 := <[next_loc h2 := dBC]> h2).
  set (dR := tabulate2 Rows Cols (dot n dA dBC)).
  set (h4 := <[next_loc h3 := dR]> h3).
  assert (dL = dR) as Heq.
  { apply tabulate2_ext. intros r c Hr Hc. by eapply dot_assoc. }
  assert (Matrix_holds h3 (@Matrix_object T Rows Cols (next_loc h1)) dL) as HL
    by (unfold h3, h2; still_holds).
  exists (Matrix_object (next_loc h)), h1, (Matrix_object (next_loc h1)), h2,
    (Matrix_object (next_loc h2)), h3, (Matrix_object (next_loc h3)), h4, dR.
  split; [by eapply Matrix_mul_run|].
  split; [eapply Matrix_mul_run; [apply Matrix_holds_new|unfold h1; still_holds]|].
  split; [eapply Matrix_mul_run; unfold h2, h1; still_holds|].
  split; [eapply Matrix_mul_run;
            [unfold h3, h2, h1; still_holds|apply Matrix_holds_new]|].
  split; [|split; [rewrite <- Heq; still_holds|apply Matrix_holds_new]].
  simpl. intros Hsame. destruct HL as [HL _]. simpl in HL.
  by rewrite Hsame, next_loc_fresh in HL.
Qed.

(** X16.  Multiplication of a tensor by a scalar distributes over
    [operator+] when [*] of [T] distributes over [+] on the right:
    [(U + W) * k] and [U * k + W * k] are two objects that hold the same
    array. *)
Theorem scalar_mul_distributes {Depth Rows Cols}
    (U W : Tensor3D T Depth Rows Cols)
    (h : gmap nat (list (list (list T)))) (dU dW : list (list (list T))) (k : T) :
  Tensor3D_holds h U dU → Tensor3D_holds h W dW →
  ∃ sum h1 left h2 uk h3 wk h4 right h5 dR,
    Tensor3D_add indeterminate U W h = (Ok sum, h1) ∧
    Tensor3D_mul indeterminate sum k h1 = (Ok left, h2) ∧
    Tensor3D_mul indeterminate U k h2 = (Ok uk, h3) ∧
    Tensor3D_mul indeterminate W k h3 = (Ok wk, h4) ∧
    Tensor3D_add indeterminate uk wk h4 = (Ok right, h5) ∧
    Tensor3D_holds h5 left dR ∧ Tensor3D_holds h5 right dR.
Proof.
  intros HU HW.
  set (dS := tabulate3 Depth Rows Cols
               (λ d r c, T_add (get3 dU d r c) (get3 dW d r c))).
  set (h1 := <[next_loc h := dS]> h).
  set (dL := tabulate3 Depth Rows Cols (λ d r c, T_mul (get3 dS d r c) k)).
  set (h2 := <[next_loc h1 := dL]> h1).
  set (dUk := tabulate3 Depth Rows Cols (λ d r c, T_mul (get3 dU d r c) k)).
  set (h3 := <[next_loc h2 := dUk]> h2).
  set (dWk := tabulate3 Depth Rows Cols (λ d r c, T_mul (get3 dW d r c) k)).
  set (h4 := <[next_loc h3 := dWk]> h3).
  set (dR := tabulate3 Depth Rows Cols
               (λ d r c, T_add (get3 dUk d r c) (get3 dWk d r c))).
  set (h5 := <[next_loc h4 := dR]> h4).
  assert (dL = dR) as Heq.
  { apply tabulate3_ext. intros d r c Hd Hr Hc. unfold dS, dUk, dWk.
    rewrite !get3_tabulate3 by done. apply mul_add_r. }
  assert (∀ (t : Tensor3D T Depth Rows Cols) dt ha hb,
            Tensor3D_holds ha t dt → preserved ha hb → Tensor3D_holds hb t dt)
    as Hkeep by (intros; by eapply Tensor3D_holds_preserved).
  assert (preserved h h1) as P1 by apply preserved_new.
  assert (preserved h1 h2) as P2 by apply preserved_new.
  assert (preserved h2 h3) as P3 by apply preserved_new.
  assert (preserved h3 h4) as P4 by apply preserved_new.
  assert (preserved h4 h5) as P5 by apply preserved_new.
  exists (Tensor3D_object (next_loc h)), h1, (Tensor3D_object (next_loc h1)), h2,
    (Tensor3D_object (next_loc h2)), h3, (Tensor3D_object (next_loc h3)), h4,
    (Tensor3D_object (next_loc h4)), h5, dR.
  split; [by eapply Tensor3D_add_run|].
  split; [eapply Tensor3D_mul_run, Tensor3D_holds_new|].
  split; [eapply Tensor3D_mul_run; eauto|].
  split; [eapply Tensor3D_mul_run; eauto|].
  split; [eapply Tensor3D_add_run; [eapply Hkeep; [apply Tensor3D_holds_new|done]
                                   |apply Tensor3D_holds_new]|].
  split; [|apply Tensor3D_holds_new].
  rewrite <- Heq.
  eapply Hkeep; [apply Tensor3D_holds_new|].
  eauto using preserved_trans.
Qed.

End Sums.

(** ** Instances of the further properties *)

(** X1 at [A + B]. *)
Lemma Matrix_add_sub_elementwise_witness :
  ∃ result h' dR,
    Matrix_add (I32 0) A_2x2 B_2x2 matrices = (Ok result, h') ∧
    Matrix_holds h' result dR ∧
    ∀ r c, r < 2 → c < 2 →
      Matrix_at result r c h'
      = (Ok (T_add (get2 array_A r c) (get2 array_B r c)), h').
Proof.
  refine (proj1 (Matrix_add_sub_elementwise (I32 0) A_2x2 B_2x2 matrices
    array_A array_B _ _)); holds.
Defined.

(** X2 at [U - W]. *)
Lemma Tensor3D_add_sub_elementwise_witness :
  ∃ result h' dR,
    Tensor3D_sub (I32 0) U_2x2x2 W_2x2x2 tensors = (Ok result, h') ∧
    Tensor3D_holds h' result dR ∧
    ∀ d r c, d < 2 → r < 2 → c < 2 →
      Tensor3D_at result d r c h'
      = (Ok (T_sub (get3 array_U d r c) (get3 array_W d r c)), h').
Proof.
  refine (proj2 (Tensor3D_add_sub_elementwise (I32 0) U_2x2x2 W_2x2x2 tensors
    array_U array_W _ _)); holds.
Defined.

(** X3 at [A - A]. *)
Lemma sub_self_is_zero_witness :
  ∃ result h',
    Matrix_sub (I32 0) A_2x2 A_2x2 matrices = (Ok result, h') ∧
    Matrix_holds h' A_2x2 array_A ∧
    ∀ r c, r < 2 → c < 2 → Matrix_at result r c h' = (Ok (I32 0), h').
Proof.
  refine (proj1 (sub_self_is_zero (I32 0) A_2x2 U_2x2x2 matrices tensors
    array_A array_U _ _ int_sub_self)); holds.
Defined.

(** X4 at [A + B] and [U + W]. *)
Lemma add_commutes_witness :
  Matrix_add (I32 0) A_2x2 B_2x2 matrices = Matrix_add (I32 0) B_2x2 A_2x2 matrices ∧
  Tensor3D_add (I32 0) U_2x2x2 W_2x2x2 tensors
  = Tensor3D_add (I32 0) W_2x2x2 U_2x2x2 tensors.
Proof.
  refine (add_commutes (I32 0) A_2x2 B_2x2 U_2x2x2 W_2x2x2 matrices tensors
    array_A array_B array_U array_W _ _ _ _ int_add_comm); holds.
Defined.

(** X5 at [(A + B) - B]. *)
Lemma add_then_sub_witness :
  ∃ sum h1 result h2,
    Matrix_add (I32 0) A_2x2 B_2x2 matrices = (Ok sum, h1) ∧
    Matrix_sub (I32 0) sum B_2x2 h1 = (Ok result, h2) ∧
    Matrix_addr result ≠ Matrix_addr A_2x2 ∧
    Matrix_holds h2 result array_A ∧ Matrix_holds h2 A_2x2 array_A ∧
    Matrix_holds h2 B_2x2 array_B.
Proof.
  refine (add_then_sub (I32 0) A_2x2 B_2x2 matrices array_A array_B
    _ _ int_add_sub); holds.
Defined.

(** X6 at [Id * Q] and [P * Id] for the 2 x 2 identity. *)
Lemma Matrix_mul_identity_witness :
  (∃ result h', Matrix_mul (I32 0) Id_2x2 Q_2x2 with_identity = (Ok result, h') ∧
     Matrix_holds h' result array_B)
  ∧
  (∃ result h', Matrix_mul (I32 0) P_2x2 Id_2x2 with_identity = (Ok result, h') ∧
     Matrix_holds h' result array_A).
Proof.
  refine (Matrix_mul_identity (I32 0) Id_2x2 P_2x2 Q_2x2 with_identity (I32 1)
    array_A array_B _ _ _ int_mul_one_l int_mul_one_r int_mul_zero_l
    int_mul_zero_r int_add_zero_r int_add_zero_l); holds.
Defined.

(** X7 at [A(0, 1) = 9]. *)
Lemma assignment_changes_one_element_witness :
  ∃ h', (p <- Matrix_ref A_2x2 0 1 ;; assign2 p (I32 9)) matrices = (Ok tt, h') ∧
    (∀ l, l ≠ Matrix_addr A_2x2 → h' !! l = matrices !! l) ∧
    ∀ r' c', r' < 2 → c' < 2 →
      Matrix_at A_2x2 r' c' h'
      = (Ok (if decide (r' = 0 ∧ c' = 1) then I32 9 else get2 array_A r' c'), h').
Proof.
  refine (proj1 (assignment_changes_one_element A_2x2 U_2x2x2 matrices tensors
    array_A array_U 0 1 1 0 1 (I32 9) _ _ _ _ _ _ _)); (lia || holds).
Defined.

(** X8 at [A + B], assigning 9 at [(1, 0)]. *)
Lemma result_is_independent_witness :
  ∃ result h1 dR,
    Matrix_add (I32 0) A_2x2 B_2x2 matrices = (Ok result, h1) ∧
    Matrix_holds h1 result dR ∧
    (∃ h2, (p <- Matrix_ref result 1 0 ;; assign2 p (I32 9)) h1 = (Ok tt, h2) ∧
       Matrix_at result 1 0 h2 = (Ok (I32 9), h2) ∧
       Matrix_holds h2 A_2x2 array_A ∧ Matrix_holds h2 B_2x2 array_B) ∧
    (∃ h2, (p <- Matrix_ref A_2x2 1 0 ;; assign2 p (I32 9)) h1 = (Ok tt, h2) ∧
       Matrix_at A_2x2 1 0 h2 = (Ok (I32 9), h2) ∧
       Matrix_holds h2 result dR).
Proof.
  refine (result_is_independent (I32 0) A_2x2 B_2x2 matrices array_A array_B
    1 0 (I32 9) _ _ _ _); (lia || holds).
Defined.

(** X9 at [(U * 2) * 3] and [U * 6]. *)
Lemma scalar_mul_composes_witness :
  ∃ once h1 twice h2 direct h3 dR,
    Tensor3D_mul (I32 0) U_2x2x2 (I32 2) tensors = (Ok once, h1) ∧
    Tensor3D_mul (I32 0) once (I32 3) h1 = (Ok twice, h2) ∧
    Tensor3D_mul (I32 0) U_2x2x2 (T_mul (I32 2) (I32 3)) tensors = (Ok direct, h3) ∧
    Tensor3D_holds h2 twice dR ∧ Tensor3D_holds h3 direct dR.
Proof.
  refine (scalar_mul_composes (I32 0) U_2x2x2 tensors array_U (I32 2) (I32 3)
    _ int_mul_assoc); holds.
Defined.

(** X10 at [B.populate(1, 2, 3, 4)]. *)
Lemma populate_round_trip_witness :
  ∃ h' d',
    Matrix_populate B_2x2 [int_arg 1; int_arg 2; int_arg 3; int_arg 4] eq_refl
      matrices = (Ok tt, h') ∧
    Matrix_holds h' B_2x2 d' ∧
    concat d' = [I32 1; I32 2; I32 3; I32 4] ∧
    ∀ l, l ≠ Matrix_addr B_2x2 → h' !! l = matrices !! l.
Proof.
  refine (proj1 (populate_round_trip B_2x2 U_2x2x2 matrices tensors
    array_B array_U
    [int_arg 1; int_arg 2; int_arg 3; int_arg 4]
    [int_arg 1; int_arg 2; int_arg 3; int_arg 4;
     int_arg 5; int_arg 6; int_arg 7; int_arg 8]
    [I32 1; I32 2; I32 3; I32 4]
    [I32 1; I32 2; I32 3; I32 4; I32 5; I32 6; I32 7; I32 8]
    eq_refl eq_refl _ _ _ _)); (reflexivity || holds).
Defined.

(** X11 at a matrix and a tensor of [double]s, divided by NaN and by
    [-0.0]. *)
Lemma div_by_nan_or_zero_witness :
  (∃ result h',
     Matrix_div (S754_zero false) D_2x2 S754_nan double_matrices = (Ok result, h') ∧
     ∀ r c, r < 2 → c < 2 → Matrix_at result r c h' = (Ok S754_nan, h'))
  ∧
  Matrix_div (S754_zero false) D_2x2 (S754_zero true) double_matrices
  = (Throw (runtime_error "Matrix division by zero or near-zero scalar"),
     double_matrices)
  ∧
  (∃ result h',
     Tensor3D_div (S754_zero false) E_1x1x2 S754_nan double_tensors
     = (Ok result, h') ∧
     ∀ d r c, d < 1 → r < 1 → c < 2 →
       Tensor3D_at result d r c h' = (Ok S754_nan, h'))
  ∧
  Tensor3D_div (S754_zero false) E_1x1x2 (S754_zero true) double_tensors
  = (Throw (runtime_error "Tensor3D division by zero or near-zero scalar"),
     double_tensors).
Proof.
  refine (div_by_nan_or_zero (S754_zero false) D_2x2 E_1x1x2
    double_matrices double_tensors _ _ true _ _); holds.
Defined.

(** X12 at [os << A] on a stream as constructed. *)
Lemma Matrix_print_text_witness :
  Matrix_print plain_iostreams A_2x2 (matrices, new_stream)
  = (Ok tt, (matrices,
      {| fmt := ios_init "C";
         written := (written new_stream
                     ++ Matrix_text plain_iostreams (fmt new_stream) 2 2
                          (get2 array_A))%string |})).
Proof.
  refine (Matrix_print_text plain_iostreams A_2x2 matrices array_A new_stream
    _ _); [reflexivity|holds].
Defined.

(** X13 at [os << U] on a stream as constructed. *)
Lemma Tensor3D_print_text_witness :
  Tensor3D_print plain_iostreams U_2x2x2 (tensors, new_stream)
  = (Ok tt, (tensors,
      {| fmt := after_Tensor3D_print (fmt new_stream);
         written := (written new_stream
                     ++ Tensor3D_text plain_iostreams (fmt new_stream) 2 2 2
                          (get3 array_U))%string |})).
Proof.
  refine (Tensor3D_print_text plain_iostreams U_2x2x2 tensors array_U new_stream
    _ _ _); [reflexivity|reflexivity|holds].
Defined.

(** X14 at [P * (Q + Id)] and [P * Q + P * Id]. *)
Lemma Matrix_mul_distributes_witness :
  ∃ sum h1 left h2 ab h3 ac h4 right h5 dR,
    Matrix_add (I32 0) Q_2x2 Id_2x2 with_identity = (Ok sum, h1) ∧
    Matrix_mul (I32 0) P_2x2 sum h1 = (Ok left, h2) ∧
    Matrix_mul (I32 0) P_2x2 Q_2x2 h2 = (Ok ab, h3) ∧
    Matrix_mul (I32 0) P_2x2 Id_2x2 h3 = (Ok ac, h4) ∧
    Matrix_add (I32 0) ab ac h4 = (Ok right, h5) ∧
    Matrix_addr left ≠ Matrix_addr right ∧
    Matrix_holds h5 left dR ∧ Matrix_holds h5 right dR.
Proof.
  refine (Matrix_mul_distributes (I32 0) int_add_assoc int_add_comm
    int_add_zero_r int_mul_add_distr_l P_2x2 Q_2x2 Id_2x2 with_identity
    array_A array_B _ _ _ _); holds.
Defined.

(** X15 at [(P * Q) * Id] and [P * (Q * Id)]. *)
Lemma Matrix_mul_associates_witness :
  ∃ ab h1 left h2 bc h3 right h4 dR,
    Matrix_mul (I32 0) P_2x2 Q_2x2 with_identity = (Ok ab, h1) ∧
    Matrix_mul (I32 0) ab Id_2x2 h1 = (Ok left, h2) ∧
    Matrix_mul (I32 0) Q_2x2 Id_2x2 h2 = (Ok bc, h3) ∧
    Matrix_mul (I32 0) P_2x2 bc h3 = (Ok right, h4) ∧
    Matrix_addr left ≠ Matrix_addr right ∧
    Matrix_holds h4 left dR ∧ Matrix_holds h4 right dR.
Proof.
  refine (Matrix_mul_associates (I32 0) int_add_assoc int_add_comm
    int_add_zero_r int_mul_zero_l int_mul_zero_r int_mul_add_distr_l
    int_mul_add_distr_r int_mul_assoc P_2x2 Q_2x2 Id_2x2 with_identity
    array_A array_B _ _ _ _); holds.
Defined.

(** X16 at [(U + W) * 3] and [U * 3 + W * 3]. *)
Lemma scalar_mul_distributes_witness :
  ∃ sum h1 left h2 uk h3 wk h4 right h5 dR,
    Tensor3D_add (I32 0) U_2x2x2 W_2x2x2 tensors = (Ok sum, h1) ∧
    Tensor3D_mul (I32 0) sum (I32 3) h1 = (Ok left, h2) ∧
    Tensor3D_mul (I32 0) U_2x2x2 (I32 3) h2 = (Ok uk, h3) ∧
    Tensor3D_mul (I32 0) W_2x2x2 (I32 3) h3 = (Ok wk, h4) ∧
    Tensor3D_add (I32 0) uk wk h4 = (Ok right, h5) ∧
    Tensor3D_holds h5 left dR ∧ Tensor3D_holds h5 right dR.
Proof.
  refine (scalar_mul_distributes (I32 0) int_mul_add_distr_r U_2x2x2 W_2x2x2
    tensors array_U array_W (I32 3) _ _); holds.
Defined.

(** [os << U] for the 2 x 2 x 2 tensor [U]: the text, and the precision
    that stays behind. *)
Example print_tensor :
  (Tensor3D_print plain_iostreams U_2x2x2 (tensors, new_stream)).2.2
  = {| fmt := set_precision 2 (ios_init "C");
       written := "Tensor3D (2x2x2):" ++ newline ++
                  "Depth Slice [0]:" ++ newline ++
                  "  [       1,        2 ]" ++ newline ++
                  "  [       3,        4 ]" ++ newline ++
                  newline ++
                  "Depth Slice [1]:" ++ newline ++
                  "  [       5,        6 ]" ++ newline ++
                  "  [       7,        8 ]" ++ newline |}.
Proof. vm_compute. reflexivity. Qed.
